(** * Text prediction notebook (223-text-prediction): decoding loop,
      numeric transforms and conversation wrapper

    Shallow embedding of the Python cells of
    [notebooks/223-text-prediction/223-text-prediction.ipynb]:
    [process_logits], [get_top_k_logits], [generate_sequence], [converse]
    and the [Conversation] class.

    Conventions of the embedding.
    - Every numpy array of the notebook carries a leading batch dimension
      of size one ([tokenize] returns arrays of shape (1, L), [converse]
      rebuilds that shape with [np.expand_dims (_, axis=0)], and the
      concatenation with [[next_tokens]] only type-checks for one row).
      A (1, L) array is represented by its single row, a (1, L, V) tensor
      by its list of L rows.
    - A score is an IEEE float that is not a NaN: minus infinity, a finite
      value (a rational number) or plus infinity, which the negation in
      [-np.sort(-scores)] produces from minus infinity.
    - Python exceptions are values of [exn]; a function that can raise
      returns a [res].
    - [softmax] works on whatever floats it is given; it is embedded on
      rows of [float64], numpy's default, which are Rocq's primitive
      floats (IEEE 754 binary64 with one NaN).  [np.exp] and the order in
      which [ndarray.sum] adds the entries are numpy's own and are
      parameters of it.
    - The decoding loop takes its [softmax] and [np.random.choice] as
      parameters: its scores are the numbers above, not floats. *)

From Stdlib Require Import Ascii String QArith Qcanon Qpower Qabs Floats Lqa.
From stdpp Require Import base tactics option list numbers sorting.

Local Open Scope Z_scope.

(** ** Python exceptions and fallible results *)

Inductive exn : Type :=
  | ValueError
  | IndexError
  | RuntimeError.

Inductive res (A : Type) : Type :=
  | Ok (a : A)
  | Err (e : exn).
Arguments Ok {A} a.
Arguments Err {A} e.

#[global] Instance res_ret : MRet res := fun A a => Ok a.
#[global] Instance res_bind : MBind res := fun A B f r =>
  match r with
  | Ok a => f a
  | Err e => Err e
  end.

(** Python subscript [l[i]] on a sequence of length [n]: a negative index
    counts from the end, anything outside [-n, n) raises [IndexError]. *)
Definition py_index (n : nat) (i : Z) : res nat :=
  if decide (0 ≤ i < Z.of_nat n) then Ok (Z.to_nat i)
  else if decide (- Z.of_nat n ≤ i < 0) then Ok (Z.to_nat (Z.of_nat n + i))
  else Err IndexError.

Definition py_getitem {A} (l : list A) (i : Z) : res A :=
  j ← py_index (length l) i;
  match l !! j with
  | Some x => Ok x
  | None => Err IndexError
  end.

(** ** Scores *)

Inductive score : Type :=
  | NInf
  | Fin (q : Qc)
  | PInf.

#[global] Instance score_eq_dec : EqDecision score.
Proof. solve_decision. Defined.

(** Unary minus of numpy. *)
Definition score_opp (s : score) : score :=
  match s with
  | NInf => PInf
  | Fin q => Fin (- q)%Qc
  | PInf => NInf
  end.

(** [a <= b] and [a < b] on floats without NaN. *)
Definition score_le (a b : score) : Prop :=
  match a, b with
  | NInf, _ => True
  | _, PInf => True
  | Fin x, Fin y => (x ≤ y)%Qc
  | _, _ => False
  end.

Definition score_lt (a b : score) : Prop :=
  match a, b with
  | PInf, _ => False
  | _, NInf => False
  | Fin x, Fin y => (x < y)%Qc
  | _, _ => True
  end.

#[global] Instance score_le_dec : RelDecision score_le.
Proof. intros [|x|] [|y|]; simpl; apply _. Defined.

#[global] Instance score_lt_dec : RelDecision score_lt.
Proof. intros [|x|] [|y|]; simpl; apply _. Defined.

(** [np.sort]: the ascending rearrangement of the row. *)
Definition np_sort (l : list score) : list score := merge_sort score_le l.

Definition score_min (a b : score) : score :=
  if decide (score_le a b) then a else b.

(** [np.min] of a one-dimensional array; the reduction of a zero-size
    array raises [ValueError]. *)
Definition np_min (l : list score) : res score :=
  match l with
  | [] => Err ValueError
  | x :: l' => Ok (foldl score_min x l')
  end.

(** [np.ma.array(data, mask=mask, fill_value=fill).filled()]. *)
Definition ma_filled (data : list score) (mask : list bool) (fill : score)
    : list score :=
  zip_with (fun s (m : bool) => if m then fill else s) data mask.

(** ** Numeric transforms *)

(** [process_logits] writes into the array it is given and returns it.
    The decoding loop calls it with the default [min_length = 0], for
    which nothing is written. *)
Definition process_logits (cur_length : Z) (scores : list score)
    (eos_token_id : Z) (min_length : Z) : res (list score) :=
  if decide (cur_length < min_length) then
    j ← py_index (length scores) eos_token_id;
    Ok (<[j := score_opp PInf]> scores)
  else Ok scores.

Definition get_top_k_logits (scores : list score) (top_k : Z)
    : res (list score) :=
  let filter_value := score_opp PInf in
  let top_k := Z.min (Z.max top_k 1) (Z.of_nat (length scores)) in
  let top_k_scores :=
    score_opp <$> take (Z.to_nat top_k) (np_sort (score_opp <$> scores)) in
  threshold ← np_min top_k_scores;
  let indices_to_remove :=
    (fun s => bool_decide (score_lt s threshold)) <$> scores in
  Ok (ma_filled scores indices_to_remove filter_value).

(** ** softmax

    The maximum of the row is subtracted before the exponential, and the
    exponentials are divided by their sum. *)

(** [np.maximum] on two floats, as numpy's reduction has it
    ([io1 >= in2 || isnan(io1) ? io1 : in2]): a NaN wins. *)
Definition np_maximum (a b : float) : float :=
  if (b <=? a)%float || is_nan a then a else b.

(** [np.max(x, axis=-1, keepdims=True)] on the row; a row of size zero has
    no maximum. *)
Definition np_max (x : list float) : res float :=
  match x with
  | [] => Err ValueError
  | a :: l => Ok (foldl np_maximum a l)
  end.

Section softmax.
(** [np.exp] on one float. *)
Variable np_exp : float → float.
(** [ndarray.sum(axis=-1, keepdims=True)] on the row. *)
Variable np_sum : list float → float.

Definition softmax (x : list float) : res (list float) :=
  m ← np_max x;
  let e_x := (fun v => np_exp (v - m)%float) <$> x in
  let summation := np_sum e_x in
  Ok ((fun e => (e / summation)%float) <$> e_x).
End softmax.

(** ** Effects of the decoding loop

    The loop calls the compiled model, draws from numpy's process-wide
    random source and may run forever.  The world holds the uniform draws
    still to come and the record of the calls made to the model; a
    computation maps a world to an outcome and the world it leaves. *)

Record world (U : Type) : Type := World {
  rng : nat → U;
  port_calls : list (list Z * list Z)
}.
Arguments World {U} rng port_calls.
Arguments rng {U} w n.
Arguments port_calls {U} w.

Inductive outcome (A : Type) : Type :=
  | Ret (a : A)
  | Raise (e : exn)
  | OutOfFuel.
Arguments Ret {A} a.
Arguments Raise {A} e.
Arguments OutOfFuel {A}.

Definition M (U A : Type) : Type := world U → outcome A * world U.

#[global] Instance M_ret {U} : MRet (M U) := fun A a w => (Ret a, w).
#[global] Instance M_bind {U} : MBind (M U) := fun A B f m w =>
  match m w with
  | (Ret a, w') => f a w'
  | (Raise e, w') => (Raise e, w')
  | (OutOfFuel, w') => (OutOfFuel, w')
  end.

Definition lift {U A} (r : res A) : M U A := fun w =>
  match r with
  | Ok a => (Ret a, w)
  | Err e => (Raise e, w)
  end.

Definition out_of_fuel {U A} : M U A := fun w => (OutOfFuel, w).

(** One uniform draw of the random source. *)
Definition draw {U} : M U U := fun w =>
  (Ret (rng w 0%nat), World (fun n => rng w (S n)) (port_calls w)).

Definition tensor : Type := list (list score).

(** ** The decoding loop *)

Section decoding.
Context {prob U : Type}.

(** [compiled_model({"input_ids": _, "attention_mask": _})[output_key]]:
    the logits, one row of vocabulary scores per sequence position. *)
Variable compiled_model : list Z → list Z → res tensor.
(** [softmax] of the notebook on the scores of the loop (it is embedded
    on floats above; see the header). *)
Variable softmax : list score → list prob.
(** [np.random.choice(a, 1, p=p)]: the arguments are validated first,
    then one uniform draw selects the index. *)
Variable random_choice : nat → list prob → res (U → Z).

Definition call_model (input_ids attention_mask : list Z) : M U tensor :=
  fun w =>
    let w' := World (rng w) (port_calls w ++ [(input_ids, attention_mask)]) in
    match compiled_model input_ids attention_mask with
    | Ok t => (Ret t, w')
    | Err e => (Raise e, w')
    end.

(** The body of the [while True] loop up to the sampled token. *)
Definition sample_next (input_ids attention_mask : list Z)
    (max_sequence_length eos_token_id : Z) (dynamic_shapes : bool) : M U Z :=
  let cur_input_len := Z.of_nat (length input_ids) in
  let model_inputs :=
    if negb dynamic_shapes then
      let pad_len := max_sequence_length - cur_input_len in
      (input_ids ++ replicate (Z.to_nat pad_len) eos_token_id,
       attention_mask ++ replicate (Z.to_nat pad_len) 0)
    else (input_ids, attention_mask) in
  outputs ← call_model model_inputs.1 model_inputs.2;
  next_token_logits ← lift (py_getitem outputs (cur_input_len - 1));
  next_token_scores ←
    lift (process_logits cur_input_len next_token_logits eos_token_id 0);
  let top_k := 20 in
  next_token_scores ← lift (get_top_k_logits next_token_scores top_k);
  let probs := softmax next_token_scores in
  pick ← lift (random_choice (length probs) probs);
  u ← draw;
  mret (pick u).

(** [generate_sequence]; [fuel] bounds the number of iterations. *)
Fixpoint generate_sequence (fuel : nat) (input_ids attention_mask : list Z)
    (max_sequence_length eos_token_id : Z) (dynamic_shapes : bool)
    : M U (list Z) :=
  match fuel with
  | O => out_of_fuel
  | S fuel' =>
    let cur_input_len := Z.of_nat (length input_ids) in
    next_token ← sample_next input_ids attention_mask
                   max_sequence_length eos_token_id dynamic_shapes;
    if bool_decide (cur_input_len = max_sequence_length)
       || bool_decide (next_token = eos_token_id)
    then mret input_ids
    else generate_sequence fuel' (input_ids ++ [next_token])
           (attention_mask ++ [1])
           max_sequence_length eos_token_id dynamic_shapes
  end.
End decoding.

(** ** Text *)

Definition text : Type := list ascii.

#[global] Instance ascii_eq_dec : EqDecision ascii := ascii_dec.

(** [s.startswith(sep)]. *)
Fixpoint starts_with (sep s : text) : bool :=
  match sep, s with
  | [], _ => true
  | _ :: _, [] => false
  | a :: sep', c :: s' => bool_decide (a = c) && starts_with sep' s'
  end.

(** The scan of [str.split]: left to right, cutting at every occurrence
    of [sep] that starts outside the previous one; [skip] counts the
    characters of a matched separator still to pass.  The head of the
    result is the segment being read. *)
Fixpoint split_scan (sep s : text) (skip : nat) : list text :=
  match s with
  | [] => [[]]
  | c :: s' =>
    match skip with
    | S k => split_scan sep s' k
    | O =>
      if starts_with sep s then [] :: split_scan sep s' (length sep - 1)
      else
        match split_scan sep s' 0 with
        | seg :: rest => (c :: seg) :: rest
        | [] => [[c]]
        end
    end
  end.

(** [s.split(sep)]; an empty separator raises [ValueError]. *)
Definition py_split (s sep : text) : res (list text) :=
  match sep with
  | [] => Err ValueError
  | _ :: _ => Ok (split_scan sep s 0)
  end.

(** [sep in s]. *)
Fixpoint occurs (sep s : text) : bool :=
  starts_with sep s ||
  match s with
  | [] => false
  | _ :: s' => occurs sep s'
  end.

(** ** Conversation *)

Section conversation.
Context {prob U : Type}.
Variable compiled_model : list Z → list Z → res tensor.
Variable softmax : list score → list prob.
Variable random_choice : nat → list prob → res (U → Z).

(** [tokenizer(text, return_tensors="np")]: the ids and the attention
    mask; [tokenizer.decode] of one id; [tokenizer.eos_token_id]. *)
Variable tokenizer : text → list Z * list Z.
Variable tokenizer_decode : Z → text.
Variable tokenizer_eos_token_id : Z.

Definition tokenize (t : text) : list Z * list Z :=
  let inputs := tokenizer t in
  (inputs.1, inputs.2).

Definition eos_token_id : Z := tokenizer_eos_token_id.
Definition eos_token : text := tokenizer_decode eos_token_id.

(** [''.join(tokenizer.batch_decode(ids))] *)
Definition decode_join (ids : list Z) : text :=
  concat (tokenizer_decode <$> ids).

(** [converse]; the two last arguments are the keyword arguments whose
    defaults are the globals [eos_token] and [eos_token_id].  The call
    of [generate_sequence] leaves its [eos_token_id] to the default. *)
Definition converse (fuel : nat) (input : text) (history : list Z)
    (eos_token' : text) (eos_token_id' : Z) : M U (text * list Z) :=
  let new_user_input_ids := (tokenize (input ++ eos_token')).1 in
  let bot_input_ids :=
    if decide (length history = 0%nat) then new_user_input_ids
    else history ++ new_user_input_ids in
  let bot_attention_mask := (fun _ => 1) <$> bot_input_ids in
  history ← generate_sequence compiled_model softmax random_choice fuel
              bot_input_ids bot_attention_mask 1000 eos_token_id true;
  let history := history ++ [eos_token_id'] in
  segments ← lift (py_split (decode_join history) eos_token');
  response ← lift (py_getitem segments (-2));
  mret (response, history).

(** The [Conversation] class. *)
Record Conversation : Type := {
  history : list Z;
  messages : list text
}.

Definition Conversation_init : Conversation :=
  {| history := []; messages := [] |}.

Definition chat (fuel : nat) (self : Conversation) (input_text : text)
    : M U (text * Conversation) :=
  r ← converse fuel input_text (history self) eos_token eos_token_id;
  mret (r.1,
        {| history := r.2;
           messages := messages self ++
             [list_ascii_of_string "Person: " ++ input_text;
              list_ascii_of_string "PersonaGPT: " ++ r.1] |}).
End conversation.

(** ** Notions the properties are stated with *)

(** Number of entries of the row strictly above [t], and at least [t]. *)
Definition count_above (t : score) (row : list score) : nat :=
  length (filter (score_lt t) row).
Definition count_at_least (t : score) (row : list score) : nat :=
  length (filter (score_le t) row).

(** [t] is the k-th highest score of the row (k counted from 1, with
    multiplicity): fewer than k entries are strictly above it and at
    least k entries are not below it. *)
Definition kth_highest (row : list score) (k : nat) (t : score) : Prop :=
  t ∈ row ∧ (count_above t row < k)%nat ∧ (k ≤ count_at_least t row)%nat.

(** The entry-wise effect of the filter with threshold [t]. *)
Definition below_to_ninf (t s : score) : score :=
  if decide (score_lt s t) then NInf else s.

Definition is_maximum (row : list score) (t : score) : Prop :=
  t ∈ row ∧ Forall (fun s => score_le s t) row.

(** Number of copies of [x] at the end of [l]. *)
Fixpoint leading (x : Z) (l : list Z) : nat :=
  match l with
  | y :: l' => if decide (y = x) then S (leading x l') else O
  | [] => O
  end.
Definition trailing (x : Z) (l : list Z) : nat := leading x (reverse l).

(** A separator has no border when none of its proper non-empty prefixes
    is also a suffix; two occurrences of such a string never overlap. *)
Definition unbordered (sep : text) : bool :=
  forallb (fun k => negb (bool_decide (take k sep = drop (length sep - k) sep)))
          (seq 1 (length sep - 1)).

(** The wording "second-to-last non-empty segment", read literally: the
    empty segments are dropped before the segment is picked. *)
Definition second_to_last_nonempty (segments : list text) : res text :=
  py_getitem (filter (fun s => s ≠ []) segments) (-2).

(** Two worlds with the same sequence of uniform draws to come.  Nothing
    is asked of the records of the calls made so far. *)
Definition same_draws {U} (w1 w2 : world U) : Prop :=
  ∀ n, rng w1 n = rng w2 n.

(** [np.random.seed]: the draws to come are replaced, what happened before
    stays. *)
Definition reseed {U} (seed : nat → U) (w : world U) : world U :=
  World seed (port_calls w).

(** A computation is determined by the draws to come: on worlds with the
    same draws it gives the same outcome and leaves the same draws. *)
Definition respects {U A} (m : M U A) : Prop :=
  ∀ w1 w2, same_draws w1 w2 →
    (m w1).1 = (m w2).1 ∧ same_draws (m w1).2 (m w2).2.

(** The model answers every input with one non-empty row of scores per
    position. *)
Definition model_total (compiled_model : list Z → list Z → res tensor)
    : Prop :=
  ∀ input_ids attention_mask,
    ∃ outputs, compiled_model input_ids attention_mask = Ok outputs ∧
               length outputs = length input_ids ∧
               Forall (fun row => row ≠ []) outputs.

(** The sampler accepts every distribution. *)
Definition sampler_total {prob U}
    (random_choice : nat → list prob → res (U → Z)) : Prop :=
  ∀ a p, ∃ pick, random_choice a p = Ok pick.

(** The sampler accepts every distribution and never yields [tok]. *)
Definition never_yields {prob U}
    (random_choice : nat → list prob → res (U → Z)) (tok : Z) : Prop :=
  ∀ a p, ∃ pick, random_choice a p = Ok pick ∧ ∀ u, pick u ≠ tok.

(** The model input of a turn of [converse]. *)
Definition prompt_of (tokenizer : text → list Z * list Z)
    (input : text) (history : list Z) (eos_token' : text) : list Z :=
  let new_user_input_ids := (tokenize tokenizer (input ++ eos_token')).1 in
  if decide (length history = 0%nat) then new_user_input_ids
  else history ++ new_user_input_ids.

(** ** Stub collaborators for the examples *)

Definition q (n : Z) : score := Fin (Qc_of_Z n).

(** A logits row with all the weight on one token. *)
Definition one_hot (V tok : nat) : list score :=
  <[tok := q 0]> (replicate V NInf).

(** A model that, at every position, puts all the weight on the token the
    script gives for the number of real tokens, and on [fallback] after
    the end of the script. *)
Definition scripted_model (V : nat) (script : list nat) (fallback : nat)
    : list Z → list Z → res tensor :=
  fun input_ids attention_mask =>
    let n := length (filter (fun m => m = 1) attention_mask) in
    Ok (replicate (length input_ids)
          (one_hot V (default fallback (script !! n)))).

Definition constant_model (V tok : nat) : list Z → list Z → res tensor :=
  fun input_ids _ => Ok (replicate (length input_ids) (one_hot V tok)).

(** A model that gives every token of the vocabulary the same score. *)
Definition uniform_model (V : nat) : list Z → list Z → res tensor :=
  fun input_ids _ => Ok (replicate (length input_ids) (replicate V (q 0))).

(** Stub sampler: the probabilities are the filtered scores themselves and
    the draw (a natural number) picks among the entries that survived. *)
Definition stub_softmax (scores : list score) : list score := scores.

Definition support (p : list score) : list Z :=
  (fun ix => Z.of_nat ix.1) <$>
    filter (fun ix => ix.2 ≠ NInf) (imap (fun i x => (i, x)) p).

Definition stub_choice (a : nat) (p : list score) : res (nat → Z) :=
  match support p with
  | [] => Err ValueError
  | i :: l => Ok (fun u => (i :: l) !!! (u mod length (i :: l))%nat)
  end.

(** A sampler that always yields the same token. *)
Definition fixed_choice (tok : Z) (a : nat) (p : list score)
    : res (nat → Z) :=
  Ok (fun _ => tok).

Definition world0 : world nat := World (fun n => n) [].

(** Stub tokenizer: one token per character, the character code, and the
    token 0 for the end-of-sequence string. *)
Definition toy_eos : text := list_ascii_of_string "<|endoftext|>".

Fixpoint toy_encode (s : text) (skip : nat) : list Z :=
  match s with
  | [] => []
  | c :: s' =>
    match skip with
    | S k => toy_encode s' k
    | O =>
      if starts_with toy_eos s then 0 :: toy_encode s' (length toy_eos - 1)
      else Z.of_nat (nat_of_ascii c) :: toy_encode s' 0
    end
  end.

Definition toy_tokenizer (t : text) : list Z * list Z :=
  let ids := toy_encode t 0 in (ids, replicate (length ids) 1).

Definition toy_decode (id : Z) : text :=
  if decide (id = 0) then toy_eos else [ascii_of_nat (Z.to_nat id)].

Definition toy_converse (model : list Z → list Z → res tensor)
    (fuel : nat) (input : text) (history : list Z) : M nat (text * list Z) :=
  converse model stub_softmax stub_choice toy_tokenizer toy_decode 0
    fuel input history
    (eos_token toy_decode 0) (eos_token_id 0).

Definition str : string → text := list_ascii_of_string.

(** A model for the toy tokenizer that answers a prompt of three tokens
    with the two tokens of "ok" and then the eos id. *)
Definition reply_ok : list Z → list Z → res tensor :=
  scripted_model 128 [0; 0; 0; 111; 107]%nat 0.

(** ** The cells that drive the functions *)

Section cells.
Context {prob U : Type}.
Variable compiled_model : list Z → list Z → res tensor.
Variable softmax : list score → list prob.
Variable random_choice : nat → list prob → res (U → Z).
Variable tokenizer : text → list Z * list Z.
Variable tokenizer_decode : Z → text.
Variable tokenizer_eos_token_id : Z.

(** The text generation cell: the text is tokenized, [generate_sequence]
    runs with its default arguments, and the output text, which starts as
    one space, receives the decoding of every id of the result in turn. *)
Definition generate_text (fuel : nat) (t : text) : M U text :=
  let inputs := tokenize tokenizer t in
  output_ids ← generate_sequence compiled_model softmax random_choice fuel
                 inputs.1 inputs.2 128
                 (eos_token_id tokenizer_eos_token_id) true;
  mret (foldl (fun output_text i => output_text ++ tokenizer_decode i)
              (list_ascii_of_string " ") output_ids).

Definition pre_written_prompts : list text :=
  [list_ascii_of_string "Hi,How are you?";
   list_ascii_of_string "What are you doing?";
   list_ascii_of_string "I like to dance,do you?";
   list_ascii_of_string "Can you recommend me some books?"].

(** The body of the [for i in range(n_prompts)] loop of the plain
    conversation cell, over the indices still to come; [printed] collects
    the lines given to [print]. *)
Fixpoint plain_loop (fuel : nat) (conversation : Conversation)
    (printed : list text) (indices : list nat)
    : M U (Conversation * list text) :=
  match indices with
  | [] => mret (conversation, printed)
  | i :: indices' =>
    user_prompt ← lift (py_getitem pre_written_prompts
                          (Z.of_nat i `mod` Z.of_nat (length pre_written_prompts)));
    r ← chat compiled_model softmax random_choice tokenizer
          tokenizer_decode tokenizer_eos_token_id fuel conversation user_prompt;
    line2 ← lift (py_getitem (messages r.2) (-2));
    line1 ← lift (py_getitem (messages r.2) (-1));
    plain_loop fuel r.2 (printed ++ [line2; line1]) indices'
  end.

Definition plain_conversation (fuel n_prompts : nat)
    : M U (Conversation * list text) :=
  plain_loop fuel Conversation_init [] (seq 0 n_prompts).
End cells.

(** ** Further notions *)

(** The arrays the model is called with for a sequence and its mask. *)
Definition model_input (input_ids attention_mask : list Z)
    (max_sequence_length eos_token_id : Z) (dynamic_shapes : bool)
    : list Z * list Z :=
  if negb dynamic_shapes then
    (input_ids ++
       replicate (Z.to_nat (max_sequence_length - Z.of_nat (length input_ids)))
                 eos_token_id,
     attention_mask ++
       replicate (Z.to_nat (max_sequence_length - Z.of_nat (length input_ids)))
                 0)
  else (input_ids, attention_mask).

(** [sep.join(segments)]. *)
Fixpoint join_with (sep : text) (segments : list text) : text :=
  match segments with
  | [] => []
  | [seg] => seg
  | seg :: rest => seg ++ sep ++ join_with sep rest
  end.

(** Number of copies of [x] in [l]. *)
Definition count_of (x : Z) (l : list Z) : nat :=
  length (filter (fun y => y = x) l).

(** The model gives the same logits row for the last real token of a
    non-empty sequence whether its input is padded or not. *)
Definition padding_blind (compiled_model : list Z → list Z → res tensor)
    (max_sequence_length eos_token_id : Z) : Prop :=
  ∀ input_ids attention_mask,
    input_ids ≠ [] →
    (outputs ← compiled_model
                 (model_input input_ids attention_mask
                    max_sequence_length eos_token_id false).1
                 (model_input input_ids attention_mask
                    max_sequence_length eos_token_id false).2;
     py_getitem outputs (Z.of_nat (length input_ids) - 1))
    = (outputs ← compiled_model input_ids attention_mask;
       py_getitem outputs (Z.of_nat (length input_ids) - 1)).

(** ** Floats: values, order and sums *)

(** The value of a finite float; zero for the others. *)
Definition SF2Q (f : spec_float) : Q :=
  match f with
  | S754_finite s m e => (if s then -1 else 1) * inject_Z (Z.pos m) * 2 ^ e
  | _ => 0
  end.

Definition float_val (f : float) : Q := SF2Q (Prim2SF f).

(** The exact sum of the values of a row. *)
Fixpoint sum_val (l : list float) : Q :=
  match l with
  | [] => 0
  | o :: l' => float_val o + sum_val l'
  end.

(** A finite number that is not negative. *)
Definition SF_nonneg (f : spec_float) : Prop :=
  match f with
  | S754_zero _ | S754_finite false _ _ => True
  | _ => False
  end.

(** Zero or a finite number. *)
Definition SF_finite (f : spec_float) : Prop :=
  match f with
  | S754_zero _ | S754_finite _ _ _ => True
  | _ => False
  end.

(** A number that is not positive: zero, a negative number or minus
    infinity. *)
Definition SF_nonpos (f : spec_float) : Prop :=
  match f with
  | S754_zero _ | S754_finite true _ _ | S754_infinity true => True
  | _ => False
  end.

(** The order of the numbers among the floats: minus infinity, the finite
    numbers by their value, plus infinity.  A NaN is not in it. *)
Definition SF_le (a b : spec_float) : Prop :=
  match a, b with
  | S754_nan, _ | _, S754_nan => False
  | S754_infinity true, _ | _, S754_infinity false => True
  | S754_infinity false, _ | _, S754_infinity true => False
  | _, _ => (SF2Q a <= SF2Q b)%Q
  end.

(** A finite number between 0 and 1, and between 0 and 2. *)
Definition unit_float (e : float) : Prop :=
  SF_nonneg (Prim2SF e) ∧ (float_val e <= 1)%Q.
Definition small_float (e : float) : Prop :=
  SF_nonneg (Prim2SF e) ∧ (float_val e <= 2)%Q.

(** [s] is a floating-point sum of the entries of [l]: the entries are
    added two by two in some order and grouping (numpy adds pairwise, on
    several accumulators), possibly starting from zero. *)
Inductive adds_to : list float → float → Prop :=
  | adds_nil : adds_to [] zero
  | adds_one (a : float) : adds_to [a] a
  | adds_app (l1 l2 : list float) (s1 s2 : float) :
      adds_to l1 s1 → adds_to l2 s2 → adds_to (l1 ++ l2) (s1 + s2)%float
  | adds_perm (l1 l2 : list float) (s : float) :
      l1 ≡ₚ l2 → adds_to l1 s → adds_to l2 s.

(** What is used of [np.exp]: it is 0 at minus infinity, a NaN on a NaN,
    1 at zero, and between 0 and 1 on the numbers that are not
    positive. *)
Definition exp_ok (np_exp : float → float) : Prop :=
  np_exp neg_infinity = zero ∧
  np_exp nan = nan ∧
  (∀ v, (v =? zero)%float = true → np_exp v = one) ∧
  (∀ v, (v <=? zero)%float = true →
        (zero <=? np_exp v)%float = true ∧ (np_exp v <=? one)%float = true).

(** What is used of [ndarray.sum]: it adds the entries. *)
Definition sum_ok (np_sum : list float → float) : Prop :=
  ∀ l, adds_to l (np_sum l).

(** A coarse stand-in for [np.exp] in the examples: right at minus
    infinity, at zero and on a NaN, one half on the other negative
    numbers and two on the positive ones. *)
Definition coarse_exp (v : float) : float :=
  if is_nan v then nan
  else if (v =? zero)%float then one
  else if (v <? zero)%float then
    if (v =? neg_infinity)%float then zero else (one / two)%float
  else two.

(** The sum from left to right, starting from zero. *)
Definition left_sum (l : list float) : float := foldl add zero l.

(** * Properties *)

(** ** The order on scores *)

Section score_order.
Implicit Types a b c : score.

#[global] Instance score_le_refl : Reflexive score_le.
Proof. intros [|x|]; simpl; auto. Qed.

#[global] Instance score_le_trans : Transitive score_le.
Proof.
  intros [|x|] [|y|] [|z|]; simpl; auto; try tauto.
  apply Qcle_trans.
Qed.

#[global] Instance score_le_total : Total score_le.
Proof.
  intros [|x|] [|y|]; simpl; auto.
  destruct (Qc_le_total x y); auto.
Qed.

#[global] Instance score_le_antisym : AntiSymm (=) score_le.
Proof.
  intros [|x|] [|y|]; simpl; try tauto.
  intros H1 H2. f_equal. by apply Qcle_antisym.
Qed.

Lemma score_lt_nge a b : score_lt a b ↔ ¬ score_le b a.
Proof.
  destruct a as [|x|], b as [|y|]; simpl; try tauto.
  apply Qclt_nge.
Qed.

Lemma score_le_ngt a b : score_le a b ↔ ¬ score_lt b a.
Proof.
  rewrite score_lt_nge. destruct (decide (score_le a b)); tauto.
Qed.

Lemma score_lt_irrefl a : ¬ score_lt a a.
Proof. rewrite score_lt_nge. intros H. by apply H. Qed.

Lemma score_opp_involutive a : score_opp (score_opp a) = a.
Proof. destruct a; simpl; auto. by rewrite Qcopp_involutive. Qed.

Lemma score_opp_le a b : score_le (score_opp a) (score_opp b) ↔ score_le b a.
Proof.
  destruct a as [|x|], b as [|y|]; simpl; try tauto.
  split; intros H.
  - rewrite <- (Qcopp_involutive x), <- (Qcopp_involutive y).
    by apply Qcopp_le_compat.
  - by apply Qcopp_le_compat.
Qed.

Lemma score_min_spec a b :
  (score_min a b = a ∨ score_min a b = b) ∧
  score_le (score_min a b) a ∧ score_le (score_min a b) b.
Proof.
  unfold score_min. destruct (decide (score_le a b)) as [H|H].
  - split; [by left|]. split; [reflexivity | done].
  - split; [by right|]. split; [|reflexivity].
    destruct (score_le_total a b); tauto.
Qed.
End score_order.

(** ** numpy helpers *)

Lemma foldl_score_min_spec (l : list score) (x : score) :
  foldl score_min x l ∈ x :: l ∧ Forall (score_le (foldl score_min x l)) (x :: l).
Proof.
  revert x. induction l as [|y l IH]; intros x; simpl.
  - split; [left | repeat constructor; reflexivity].
  - destruct (IH (score_min x y)) as [Hin Hall].
    destruct (score_min_spec x y) as (Hor & Hx & Hy).
    apply Forall_cons in Hall as [Hhd Htl].
    split.
    + apply elem_of_cons in Hin as [->|Hin].
      * destruct Hor as [->| ->]; [left | right; left].
      * do 2 right. done.
    + repeat constructor; [by etrans | by etrans | done].
Qed.

Lemma np_min_spec (l : list score) :
  l ≠ [] → ∃ m, np_min l = Ok m ∧ m ∈ l ∧ Forall (score_le m) l.
Proof.
  destruct l as [|x l]; [done|]. intros _.
  exists (foldl score_min x l). split; [done|]. apply foldl_score_min_spec.
Qed.

Lemma ma_filled_fmap (f : score → bool) (row : list score) (fill : score) :
  ma_filled row (f <$> row) fill = (fun s => if f s then fill else s) <$> row.
Proof.
  unfold ma_filled. induction row as [|s row IH]; [done|].
  rewrite !fmap_cons. simpl. by rewrite IH.
Qed.

Lemma filter_none {A} (P : A → Prop) `{∀ x, Decision (P x)} (l : list A) :
  Forall (fun x => ¬ P x) l → filter P l = [].
Proof.
  induction 1 as [|x l Hx _ IH]; [done|].
  by rewrite filter_cons_False.
Qed.

Lemma filter_all {A} (P : A → Prop) `{∀ x, Decision (P x)} (l : list A) :
  Forall P l → filter P l = l.
Proof.
  induction 1 as [|x l Hx _ IH]; [done|].
  rewrite filter_cons_True by done. by rewrite IH.
Qed.

Lemma np_sort_sorted (l : list score) : StronglySorted score_le (np_sort l).
Proof. apply StronglySorted_merge_sort; apply _. Qed.

Lemma np_sort_perm (l : list score) : np_sort l ≡ₚ l.
Proof. apply merge_sort_Permutation. Qed.

(** The threshold [np.min(-np.sort(-scores)[:k])] is the k-th highest
    score of the row. *)
Lemma top_k_threshold (row : list score) (k : nat) :
  (1 ≤ k ≤ length row)%nat →
  ∃ t, np_min (score_opp <$> take k (np_sort (score_opp <$> row))) = Ok t ∧
       kth_highest row k t.
Proof.
  intros Hk.
  set (l := np_sort (score_opp <$> row)).
  assert (Hs : StronglySorted score_le l) by apply np_sort_sorted.
  assert (Hp : l ≡ₚ score_opp <$> row) by apply np_sort_perm.
  assert (Hlen : length l = length row).
  { by rewrite Hp, length_fmap. }
  assert (Hrow : row ≡ₚ score_opp <$> l).
  { rewrite Hp, <- list_fmap_compose.
    rewrite (list_fmap_ext (score_opp ∘ score_opp) id row);
      [by rewrite list_fmap_id|].
    intros _ x _. apply score_opp_involutive. }
  assert (Htk : length (take k l) = k) by (rewrite length_take; lia).
  destruct (np_min_spec (score_opp <$> take k l)) as (t & Hmin & Hin & Hall).
  { intros Hnil. apply (f_equal length) in Hnil.
    rewrite length_fmap, Htk in Hnil. simpl in Hnil. lia. }
  exists t. split; [done|].
  apply list_elem_of_fmap in Hin as (y & -> & Hy).
  rewrite <- (take_drop k l) in Hs, Hrow.
  unfold kth_highest, count_above, count_at_least.
  rewrite !Hrow, !fmap_app, !filter_app, !length_app.
  split; [|split].
  - apply elem_of_app. left.
    apply list_elem_of_fmap. eauto.
  - rewrite (filter_none _ (score_opp <$> drop k l)).
    + assert (length (filter (score_lt (score_opp y))
                        (score_opp <$> take k l)) < length (score_opp <$> take k l))%nat.
      { apply (length_filter_lt _ _ (score_opp y)).
        - apply list_elem_of_fmap. eauto.
        - apply score_lt_irrefl. }
      rewrite length_fmap, Htk in H. simpl. lia.
    + apply Forall_fmap, Forall_forall. intros x Hx. simpl.
      apply score_le_ngt, score_opp_le.
      by apply (StronglySorted_app_1_elem_of _ _ _ _ _ Hs).
  - rewrite (filter_all _ (score_opp <$> take k l)) by done.
    rewrite length_fmap, Htk. lia.
Qed.

Lemma clamp_top_k (top_k : Z) (n : nat) :
  (1 ≤ n)%nat →
  (1 ≤ Z.to_nat (Z.min (Z.max top_k 1) (Z.of_nat n)) ≤ n)%nat.
Proof. lia. Qed.

Lemma get_top_k_logits_threshold (row : list score) (top_k : Z) :
  row ≠ [] →
  ∃ t, kth_highest row (Z.to_nat (Z.min (Z.max top_k 1) (Z.of_nat (length row)))) t ∧
       get_top_k_logits row top_k = Ok (below_to_ninf t <$> row).
Proof.
  intros Hrow.
  assert (1 ≤ length row)%nat by (destruct row; [done | simpl; lia]).
  destruct (top_k_threshold row
              (Z.to_nat (Z.min (Z.max top_k 1) (Z.of_nat (length row)))))
    as (t & Hmin & Hkth); [by apply clamp_top_k|].
  exists t. split; [done|].
  unfold get_top_k_logits. cbv zeta. rewrite Hmin. simpl.
  rewrite ma_filled_fmap. f_equal.
  apply list_fmap_ext. intros _ s _. unfold below_to_ninf.
  destruct (decide (score_lt s t)) as [Hlt|Hlt];
    [by rewrite bool_decide_eq_true_2 | by rewrite bool_decide_eq_false_2].
Qed.

Lemma length_filter_mono {A} (P Q : A → Prop)
    `{∀ x, Decision (P x)} `{∀ x, Decision (Q x)} (l : list A) :
  (∀ x, P x → Q x) → (length (filter P l) ≤ length (filter Q l))%nat.
Proof.
  intros HPQ. induction l as [|x l IH]; [done|].
  rewrite !filter_cons.
  destruct (decide (P x)) as [HP|HP], (decide (Q x)) as [HQ|HQ]; simpl;
    try lia.
  destruct HQ. auto.
Qed.

Lemma filter_full_Forall {A} (P : A → Prop) `{∀ x, Decision (P x)} (l : list A) :
  (length l ≤ length (filter P l))%nat → Forall P l.
Proof.
  intros Hlen. apply Forall_forall. intros x Hx.
  destruct (decide (P x)) as [|HP]; [done|].
  pose proof (length_filter_lt P l x Hx HP). lia.
Qed.

Lemma filter_empty_Forall {A} (P : A → Prop) `{∀ x, Decision (P x)} (l : list A) :
  length (filter P l) = 0%nat → Forall (fun x => ¬ P x) l.
Proof.
  intros Hlen. apply Forall_forall. intros x Hx HP.
  assert (x ∈ filter P l) as Hin by (apply list_elem_of_filter; done).
  destruct (filter P l); [by apply elem_of_nil in Hin | done].
Qed.

(** The k-th highest score of a row is determined by the row and k. *)
Lemma kth_highest_unique (row : list score) (k : nat) (t1 t2 : score) :
  kth_highest row k t1 → kth_highest row k t2 → t1 = t2.
Proof.
  assert (Hstrict : ∀ a b, kth_highest row k a → kth_highest row k b →
                           score_le a b → score_le b a).
  { intros a b (_ & Ha & _) (_ & _ & Hb) Hab.
    destruct (decide (score_le b a)) as [|Hn]; [done|].
    exfalso. unfold count_above, count_at_least in *.
    assert (Himp : ∀ x, score_le b x → score_lt a x).
    { intros x Hbx. apply score_lt_nge. intros Hxa. apply Hn. by etrans. }
    pose proof (length_filter_mono (score_le b) (score_lt a) row Himp).
    lia. }
  intros H1 H2.
  destruct (score_le_total t1 t2) as [H|H];
    apply (anti_symm score_le); auto.
Qed.

Lemma py_index_lt (n : nat) (i : Z) (j : nat) :
  py_index n i = Ok j → (j < n)%nat.
Proof.
  unfold py_index. repeat case_decide; intros; simplify_eq; lia.
Qed.

(** ** Numeric transforms *)

(** C6. [process_logits] (the suppression of the end-of-sequence token):
    when [cur_length < min_length] the score at the eos index becomes
    minus infinity and the score at every other index is unchanged; when
    [cur_length >= min_length] the scores are returned unchanged, whatever
    the eos id.  The eos index is the position that the Python subscript
    [scores[:, eos_token_id]] designates, the id itself when it is not
    negative; an id that designates no position raises [IndexError]. *)
Theorem suppress_end_token_spec (scores : list score)
    (cur_length eos_id min_length : Z) :
  (cur_length < min_length →
   ∀ j, py_index (length scores) eos_id = Ok j →
     (0 ≤ eos_id → j = Z.to_nat eos_id) ∧
     ∃ out, process_logits cur_length scores eos_id min_length = Ok out ∧
            length out = length scores ∧
            out !! j = Some NInf ∧
            ∀ i, i ≠ j → out !! i = scores !! i) ∧
  (cur_length < min_length →
   ∀ e, py_index (length scores) eos_id = Err e →
     process_logits cur_length scores eos_id min_length = Err IndexError) ∧
  (min_length ≤ cur_length →
     process_logits cur_length scores eos_id min_length = Ok scores).
Proof.
  split; [|split].
  - intros Hlt j Hj. split.
    + unfold py_index in Hj. repeat case_decide; intros; simplify_eq; lia.
    + unfold process_logits. rewrite decide_True by done.
      rewrite Hj. simpl. eexists. split; [done|].
      apply py_index_lt in Hj.
      split; [apply length_insert|].
      split; [by apply list_lookup_insert_eq|].
      intros i Hi. by apply list_lookup_insert_ne.
  - intros Hlt e He. unfold process_logits. rewrite decide_True by done.
    rewrite He. simpl. unfold py_index in He.
    repeat case_decide; by simplify_eq.
  - intros Hge. unfold process_logits. by rewrite decide_False by lia.
Qed.

Lemma suppress_end_token_witness :
  3 < 10 ∧
  py_index (length [q 5; q 1; q 4; q 2]) 2 = Ok 2%nat ∧
  process_logits 3 [q 5; q 1; q 4; q 2] 2 10 = Ok [q 5; q 1; NInf; q 2] ∧
  10 ≤ 10 ∧
  process_logits 10 [q 5; q 1; q 4; q 2] 2 10 = Ok [q 5; q 1; q 4; q 2].
Proof.
  assert (Hlt : 3 < 10) by lia.
  assert (Hj : py_index (length [q 5; q 1; q 4; q 2]) 2 = Ok 2%nat)
    by reflexivity.
  assert (Hge : 10 ≤ 10) by lia.
  split; [exact Hlt|]. split; [exact Hj|].
  destruct (suppress_end_token_spec [q 5; q 1; q 4; q 2] 3 2 10)
    as (Hlow & _ & _).
  destruct (suppress_end_token_spec [q 5; q 1; q 4; q 2] 10 2 10)
    as (_ & _ & Hhigh).
  split; [|split; [exact Hge | exact (Hhigh Hge)]].
  destruct (Hlow Hlt 2%nat Hj) as (_ & out & Hout & _). reflexivity.
Defined.

(** C3. For a row of length N >= 1 and any integer k, [get_top_k_logits]
    clamps k to [1, N], and replaces by minus infinity exactly the entries
    strictly below the k-th highest score; every other entry, the ties at
    the threshold included, is unchanged, so at least k entries (possibly
    more) keep their score. *)
Theorem top_k_filter_spec (row : list score) (k : Z) :
  row ≠ [] →
  ∃ (k' : nat) (t : score) (out : list score),
    Z.of_nat k' = Z.min (Z.max k 1) (Z.of_nat (length row)) ∧
    (1 ≤ k' ≤ length row)%nat ∧
    kth_highest row k' t ∧
    get_top_k_logits row k = Ok out ∧
    length out = length row ∧
    (∀ i s, row !! i = Some s →
       out !! i = Some (if decide (score_lt s t) then NInf else s)) ∧
    (k' ≤ length (filter (fun s => ¬ score_lt s t) row))%nat.
Proof.
  intros Hrow.
  destruct (get_top_k_logits_threshold row k Hrow) as (t & Hkth & Hout).
  assert (1 ≤ length row)%nat by (destruct row; [done | simpl; lia]).
  exists (Z.to_nat (Z.min (Z.max k 1) (Z.of_nat (length row)))), t,
    (below_to_ninf t <$> row).
  split; [lia|]. split; [lia|]. split; [done|]. split; [done|].
  split; [by rewrite length_fmap|]. split.
  - intros i s Hi. by rewrite list_lookup_fmap, Hi.
  - destruct Hkth as (_ & _ & Hge). unfold count_at_least in Hge.
    etrans; [exact Hge|]. apply length_filter_mono.
    intros x Hx. by apply score_le_ngt.
Qed.

Lemma top_k_filter_witness :
  [q 3; q 1; q 3; q 2; q 3] ≠ [] ∧
  ∃ (k' : nat) (t : score) (out : list score),
    Z.of_nat k' = Z.min (Z.max 2 1) (Z.of_nat (length [q 3; q 1; q 3; q 2; q 3])) ∧
    (1 ≤ k' ≤ length [q 3; q 1; q 3; q 2; q 3])%nat ∧
    kth_highest [q 3; q 1; q 3; q 2; q 3] k' t ∧
    get_top_k_logits [q 3; q 1; q 3; q 2; q 3] 2 = Ok out ∧
    length out = length [q 3; q 1; q 3; q 2; q 3] ∧
    (∀ i s, [q 3; q 1; q 3; q 2; q 3] !! i = Some s →
       out !! i = Some (if decide (score_lt s t) then NInf else s)) ∧
    (k' ≤ length (filter (fun s => ¬ score_lt s t) [q 3; q 1; q 3; q 2; q 3]))%nat.
Proof.
  assert (H : [q 3; q 1; q 3; q 2; q 3] ≠ []) by discriminate.
  split; [exact H|].
  exact (top_k_filter_spec [q 3; q 1; q 3; q 2; q 3] 2 H).
Defined.

(** C7. For a row of length N >= 1: with k >= N the filter returns the row
    unchanged; with k = 1 the entries equal to the maximum of the row (all
    of them, ties included) keep their score and every other entry becomes
    minus infinity. *)
Theorem top_k_filter_extremes (row : list score) :
  row ≠ [] →
  (∀ k, Z.of_nat (length row) ≤ k → get_top_k_logits row k = Ok row) ∧
  (∃ t, is_maximum row t ∧
        get_top_k_logits row 1 =
          Ok ((fun s => if decide (s = t) then s else NInf) <$> row)).
Proof.
  intros Hrow.
  assert (1 ≤ length row)%nat by (destruct row; [done | simpl; lia]).
  split.
  - intros k Hk.
    destruct (get_top_k_logits_threshold row k Hrow) as (t & Hkth & ->).
    replace (Z.to_nat (Z.min (Z.max k 1) (Z.of_nat (length row))))
      with (length row) in Hkth by lia.
    destruct Hkth as (_ & _ & Hge).
    apply filter_full_Forall in Hge.
    f_equal. rewrite <- (list_fmap_id row) at 2.
    apply list_fmap_ext. intros i s Hs. unfold below_to_ninf.
    rewrite decide_False; [done|].
    apply score_le_ngt. eapply Forall_lookup_1 in Hge; eauto.
  - destruct (get_top_k_logits_threshold row 1 Hrow) as (t & Hkth & ->).
    replace (Z.to_nat (Z.min (Z.max 1 1) (Z.of_nat (length row))))
      with 1%nat in Hkth by lia.
    destruct Hkth as (Hin & Hlt & _). unfold count_above in Hlt.
    assert (Hmax : Forall (fun s => score_le s t) row).
    { eapply Forall_impl;
        [apply (filter_empty_Forall (score_lt t)); lia|].
      intros s Hs. by apply score_le_ngt. }
    exists t. split; [done|]. f_equal.
    apply list_fmap_ext. intros i s Hs. unfold below_to_ninf.
    eapply Forall_lookup_1 in Hmax; eauto. simpl in Hmax.
    destruct (decide (score_lt s t)) as [Hst|Hst], (decide (s = t)) as [->|Hne];
      try done.
    + by apply score_lt_irrefl in Hst.
    + destruct Hne. apply (anti_symm score_le); [done|]. by apply score_le_ngt.
Qed.

Lemma top_k_filter_extremes_witness :
  [q 3; q 1; q 3; q 2] ≠ [] ∧
  get_top_k_logits [q 3; q 1; q 3; q 2] 4 = Ok [q 3; q 1; q 3; q 2] ∧
  ∃ t, is_maximum [q 3; q 1; q 3; q 2] t ∧
       get_top_k_logits [q 3; q 1; q 3; q 2] 1 =
         Ok ((fun s => if decide (s = t) then s else NInf) <$>
               [q 3; q 1; q 3; q 2]).
Proof.
  assert (H : [q 3; q 1; q 3; q 2] ≠ []) by discriminate.
  split; [exact H|].
  destruct (top_k_filter_extremes [q 3; q 1; q 3; q 2] H) as [Hall Hone].
  split; [apply Hall; simpl; lia | exact Hone].
Defined.

Example top_k_ties :
  get_top_k_logits [q 3; q 1; q 3; q 2; q 3] 2
  = Ok [q 3; NInf; q 3; NInf; q 3].
Proof. vm_compute. reflexivity. Qed.

Example top_k_one :
  get_top_k_logits [q 3; q 1; q 3; q 2] 1 = Ok [q 3; NInf; q 3; NInf].
Proof. vm_compute. reflexivity. Qed.

Example top_k_empty_row : get_top_k_logits [] 5 = Err ValueError.
Proof. reflexivity. Qed.

Example suppress_out_of_range :
  process_logits 0 [q 5; q 1] 2 1 = Err IndexError.
Proof. reflexivity. Qed.

(** ** softmax *)

Lemma pow2_pos (e : Z) : (0 < 2 ^ e)%Q.
Proof. by apply Qpower_0_lt. Qed.

Lemma pow2_plus (a b : Z) : (2 ^ (a + b) == 2 ^ a * 2 ^ b)%Q.
Proof. by apply Qpower_plus. Qed.

Lemma pow2_inject (k : Z) : 0 ≤ k → (inject_Z (2 ^ k) == 2 ^ k)%Q.
Proof. intros Hk. by rewrite Zpower_Qpower. Qed.

Lemma pow2_le (a b : Z) : a ≤ b → (2 ^ a <= 2 ^ b)%Q.
Proof. intros Hab. by apply Qpower_le_compat_l. Qed.

Lemma pow2_split (a b : Z) : (2 ^ a == 2 ^ (a - b) * 2 ^ b)%Q.
Proof. rewrite <- pow2_plus. by replace (a - b + b) with a by lia. Qed.

(** *** Rounding

    The operations of the floats are specified by [SpecFloat]'s functions
    on a sign, a mantissa and an exponent; the facts below are about
    these, for any precision above one bit. *)

Section rounding_facts.
Variables prec emax : Z.
Hypothesis prec_gt_1 : 1 < prec.

Lemma digits2_pos_bounds (p : positive) :
  2 ^ (Z.pos (digits2_pos p) - 1) ≤ Z.pos p < 2 ^ Z.pos (digits2_pos p).
Proof.
  induction p as [p IH|p IH|]; simpl digits2_pos.
  - rewrite Pos2Z.inj_succ.
    replace (Z.succ (Z.pos (digits2_pos p)) - 1) with (Z.succ (Z.pos (digits2_pos p) - 1)) by lia.
    rewrite !Z.pow_succ_r by lia. lia.
  - rewrite Pos2Z.inj_succ.
    replace (Z.succ (Z.pos (digits2_pos p)) - 1) with (Z.succ (Z.pos (digits2_pos p) - 1)) by lia.
    rewrite !Z.pow_succ_r by lia. lia.
  - simpl. lia.
Qed.

Lemma shr_1_m (mrs : shr_record) :
  0 ≤ shr_m mrs → shr_m (shr_1 mrs) = shr_m mrs / 2.
Proof.
  destruct mrs as [m r s]. simpl. intros Hm.
  destruct m as [|[p|p|]|p]; cbn [shr_m]; try lia; try done.
  - apply Z.div_unique with 1; lia.
  - apply Z.div_unique with 0; lia.
Qed.

Lemma iter_shr_1_m (k : positive) (mrs : shr_record) :
  0 ≤ shr_m mrs →
  shr_m (SpecFloat.iter_pos shr_1 k mrs) = shr_m mrs / 2 ^ Z.pos k.
Proof.
  revert mrs. induction k as [k IH|k IH|]; intros mrs Hm;
    simpl SpecFloat.iter_pos.
  - assert (H1 : 0 ≤ shr_m (shr_1 mrs)).
    { rewrite shr_1_m by done. apply Z.div_pos; lia. }
    assert (H2 : 0 ≤ shr_m (SpecFloat.iter_pos shr_1 k (shr_1 mrs))).
    { rewrite IH by done. apply Z.div_pos; [done|]. apply Z.pow_pos_nonneg; lia. }
    rewrite IH, IH, shr_1_m by done.
    assert (0 < 2 ^ Z.pos k) by (apply Z.pow_pos_nonneg; lia).
    rewrite !Z.div_div by lia.
    replace (Z.pos k~1) with (1 + Z.pos k + Z.pos k) by lia.
    rewrite !Z.pow_add_r by lia. f_equal. change (2 ^ 1) with 2. lia.
  - assert (H2 : 0 ≤ shr_m (SpecFloat.iter_pos shr_1 k mrs)).
    { rewrite IH by done. apply Z.div_pos; [done|]. apply Z.pow_pos_nonneg; lia. }
    rewrite IH, IH by done.
    assert (0 < 2 ^ Z.pos k) by (apply Z.pow_pos_nonneg; lia).
    rewrite !Z.div_div by lia.
    replace (Z.pos k~0) with (Z.pos k + Z.pos k) by lia.
    rewrite !Z.pow_add_r by lia. done.
  - rewrite shr_1_m by done. done.
Qed.

Lemma Zdigits2_bound (m : Z) (k : Z) :
  0 ≤ m → 0 ≤ k → m < 2 ^ k → Zdigits2 m ≤ k.
Proof.
  intros Hm Hk Hlt. destruct m as [|p|p]; [done| |lia].
  simpl. pose proof (digits2_pos_bounds p) as [Hlo _].
  destruct (decide (Z.pos (digits2_pos p) ≤ k)) as [|Hgt]; [done|].
  assert (2 ^ k ≤ 2 ^ (Z.pos (digits2_pos p) - 1)) by (apply Z.pow_le_mono_r; lia).
  lia.
Qed.

Lemma Zdigits2_lt (m : Z) : 0 ≤ m → m < 2 ^ Zdigits2 m.
Proof.
  intros Hm. destruct m as [|p|p]; [done| |lia].
  apply digits2_pos_bounds.
Qed.

Lemma Zdigits2_le (m : Z) : 0 < m → 2 ^ (Zdigits2 m - 1) ≤ m.
Proof.
  intros Hm. destruct m as [|p|p]; [lia| |lia].
  apply digits2_pos_bounds.
Qed.

Lemma Zdigits2_pow (k : Z) : 0 ≤ k → Zdigits2 (2 ^ k) = k + 1.
Proof.
  intros Hk. assert (Hp : 0 < 2 ^ k) by (apply Z.pow_pos_nonneg; lia).
  pose proof (Zdigits2_lt (2 ^ k) ltac:(lia)) as H1.
  pose proof (Zdigits2_le (2 ^ k) Hp) as H2.
  assert (0 ≤ Zdigits2 (2 ^ k)) by (destruct (2 ^ k); simpl; lia).
  apply Z.pow_lt_mono_r_iff in H1; [|lia|lia].
  destruct (decide (Zdigits2 (2 ^ k) - 1 ≤ k)) as [|Hgt]; [lia|].
  assert (2 ^ (k + 1) ≤ 2 ^ (Zdigits2 (2 ^ k) - 1)) by (apply Z.pow_le_mono_r; lia).
  rewrite Z.pow_add_r in * by lia. lia.
Qed.

Lemma loc_of_shr_record_of_loc (m : Z) (l : location) :
  loc_of_shr_record (shr_record_of_loc m l) = l.
Proof. by destruct l as [|[]]. Qed.

Lemma shr_m_of_loc (m : Z) (l : location) :
  shr_m (shr_record_of_loc m l) = m.
Proof. by destruct l as [|[]]. Qed.

Lemma round_nearest_even_range (m : Z) (l : location) :
  m ≤ round_nearest_even m l ≤ m + 1.
Proof. destruct l as [|[]]; simpl; try lia. destruct (Z.even m); lia. Qed.

(** The first step of the rounding: the mantissa is shifted right until
    its exponent is the one the format gives to its magnitude. *)
Lemma shr_fexp_spec (m e : Z) (l : location) :
  0 ≤ m →
  let e1 := Z.max e (fexp prec emax (Zdigits2 m + e)) in
  (shr_fexp prec emax m e l).2 = e1 ∧
  shr_m (shr_fexp prec emax m e l).1 = m / 2 ^ (e1 - e) ∧
  (fexp prec emax (Zdigits2 m + e) ≤ e →
   shr_fexp prec emax m e l = (shr_record_of_loc m l, e)).
Proof.
  intros Hm e1. unfold shr_fexp, shr. subst e1.
  destruct (fexp prec emax (Zdigits2 m + e) - e) as [|p|p] eqn:Hn.
  - simpl. rewrite shr_m_of_loc.
    replace (Z.max e (fexp prec emax (Zdigits2 m + e))) with e by lia.
    rewrite Z.sub_diag, Z.div_1_r. done.
  - simpl fst. simpl snd. rewrite iter_shr_1_m by (rewrite shr_m_of_loc; done).
    rewrite shr_m_of_loc.
    replace (Z.max e (fexp prec emax (Zdigits2 m + e))) with (e + Z.pos p) by lia.
    replace (e + Z.pos p - e) with (Z.pos p) by lia.
    split; [done|]. split; [done|]. lia.
  - simpl. rewrite shr_m_of_loc.
    replace (Z.max e (fexp prec emax (Zdigits2 m + e))) with e by lia.
    rewrite Z.sub_diag, Z.div_1_r. done.
Qed.

(** [binary_round_aux] on a non-negative mantissa: the mantissa is
    truncated to the exponent of the format and moved up by at most one
    unit; the result is that number, unless it overflows. *)
Lemma binary_round_aux_Z (s : bool) (m e : Z) (l : location) :
  0 ≤ m →
  let e1 := Z.max e (fexp prec emax (Zdigits2 m + e)) in
  let m1 := m / 2 ^ (e1 - e) in
  ∃ m2,
    m1 ≤ m2 ≤ m1 + 1 ∧
    (l = loc_Exact → fexp prec emax (Zdigits2 m + e) ≤ e → m2 = m) ∧
    ((m2 = 0 ∧ binary_round_aux prec emax s m e l = S754_zero s) ∨
     (0 < m2 ∧ ∃ mr er,
        Z.pos mr * 2 ^ (er - e1) = m2 ∧ e1 ≤ er ∧
        (binary_round_aux prec emax s m e l = S754_finite s mr er ∨
         (binary_round_aux prec emax s m e l = S754_infinity s ∧
          emax - prec < er)))).
Proof.
  intros Hm e1 m1.
  destruct (shr_fexp_spec m e l Hm) as (He1 & Hm1 & Hex).
  fold e1 in He1, Hm1. fold m1 in Hm1.
  unfold binary_round_aux.
  destruct (shr_fexp prec emax m e l) as [mrs' e'] eqn:Hs.
  simpl in He1, Hm1. subst e'.
  set (m2 := round_nearest_even (shr_m mrs') (loc_of_shr_record mrs')).
  assert (Hd : 0 ≤ Zdigits2 m) by (destruct m; simpl; lia).
  assert (Hfexp : ∀ D, fexp prec emax D = Z.max (D - prec) (SpecFloat.emin prec emax))
    by done.
  assert (He1def : e1 = Z.max e (Z.max (Zdigits2 m + e - prec)
                                   (SpecFloat.emin prec emax))) by done.
  assert (Hm1def : m1 = m / 2 ^ (e1 - e)) by done.
  assert (Hex' : fexp prec emax (Zdigits2 m + e) ≤ e → e1 = e) by lia.
  clearbody m1. clearbody e1.
  assert (He1e : 0 ≤ e1 - e) by lia.
  assert (Hp : 0 < 2 ^ (e1 - e)) by (apply Z.pow_pos_nonneg; lia).
  assert (Hm1nn : 0 ≤ m1) by (rewrite Hm1def; apply Z.div_pos; lia).
  assert (Hm1lt : m1 < 2 ^ prec).
  { rewrite Hm1def. apply Z.div_lt_upper_bound; [done|].
    rewrite <- Z.pow_add_r by lia.
    pose proof (Zdigits2_lt m Hm).
    assert (2 ^ Zdigits2 m ≤ 2 ^ (e1 - e + prec)).
    { apply Z.pow_le_mono_r; [lia|]. lia. }
    lia. }
  assert (Hmin : SpecFloat.emin prec emax ≤ e1) by lia.
  pose proof (round_nearest_even_range (shr_m mrs') (loc_of_shr_record mrs'))
    as Hr. fold m2 in Hr. rewrite Hm1 in Hr.
  assert (Hm2 : 0 ≤ m2) by lia.
  exists m2. split; [done|]. split.
  { intros -> Hle. injection (Hex Hle) as Hmrs _.
    subst m2. rewrite Hmrs. done. }
  destruct (shr_fexp_spec m2 e1 loc_Exact Hm2) as (He3 & Hm3 & _).
  destruct (shr_fexp prec emax m2 e1 loc_Exact) as [mrs'' e''].
  simpl in He3, Hm3. subst e''.
  destruct (decide (m2 < 2 ^ prec)) as [Hlt|Hge].
  - pose proof (Zdigits2_bound m2 prec Hm2 ltac:(lia) Hlt) as Hd2.
    replace (Z.max e1 (fexp prec emax (Zdigits2 m2 + e1))) with e1 in *
      by (rewrite Hfexp; lia).
    rewrite Z.sub_diag, Z.div_1_r in Hm3. rewrite Hm3.
    destruct m2 as [|p|p]; [by left| |lia]. right. split; [lia|].
    exists p, e1. rewrite Z.sub_diag, Z.mul_1_r. split; [done|]. split; [done|].
    destruct (e1 <=? emax - prec) eqn:Hle; [by left|right].
    split; [done|]. apply Z.leb_gt in Hle. done.
  - assert (Heq : m2 = 2 ^ prec) by lia.
    assert (Hd2 : Zdigits2 m2 = prec + 1) by (rewrite Heq; apply Zdigits2_pow; lia).
    replace (Z.max e1 (fexp prec emax (Zdigits2 m2 + e1))) with (e1 + 1) in *
      by (rewrite Hfexp; lia).
    replace (e1 + 1 - e1) with 1 in * by lia.
    assert (Hm3' : shr_m mrs'' = 2 ^ (prec - 1)).
    { rewrite Hm3, Heq. replace prec with (1 + (prec - 1)) at 1 by lia.
      rewrite Z.pow_add_r by lia. change (2 ^ 1) with 2.
      rewrite Z.mul_comm, Z.div_mul; lia. }
    assert (0 < 2 ^ (prec - 1)) by (apply Z.pow_pos_nonneg; lia).
    rewrite Hm3'. destruct (2 ^ (prec - 1)) as [|p|p] eqn:Hpp; [lia| |lia].
    right. split; [lia|]. exists p, (e1 + 1).
    split.
    { rewrite Heq. replace (e1 + 1 - e1) with 1 by lia.
      replace (2 ^ prec) with (2 ^ 1 * 2 ^ (prec - 1)).
      - rewrite Hpp. change (2 ^ 1) with 2. lia.
      - rewrite <- Z.pow_add_r by lia. f_equal. lia. }
    split; [lia|].
    destruct (e1 + 1 <=? emax - prec) eqn:Hle; [by left|right].
    split; [done|]. apply Z.leb_gt in Hle. done.
Qed.

(** The same with the value that was to be rounded: a number [x] between
    the mantissa and its successor, at the exponent [e]. *)
Lemma binary_round_aux_Q (s : bool) (m e : Z) (l : location) (x : Q) :
  0 ≤ m →
  (inject_Z m * 2 ^ e <= x)%Q →
  (x <= inject_Z (m + 1) * 2 ^ e)%Q →
  (l = loc_Exact → (x == inject_Z m * 2 ^ e)%Q) →
  let e1 := Z.max e (fexp prec emax (Zdigits2 m + e)) in
  ∃ v : Q,
    (x - 2 ^ e1 <= v)%Q ∧ (v <= x + 2 ^ e1)%Q ∧
    (l = loc_Exact → fexp prec emax (Zdigits2 m + e) ≤ e → (v == x)%Q) ∧
    (((v == 0)%Q ∧ binary_round_aux prec emax s m e l = S754_zero s) ∨
     ((0 < v)%Q ∧
      ((∃ mr er,
          binary_round_aux prec emax s m e l = S754_finite s mr er ∧
          (inject_Z (Z.pos mr) * 2 ^ er == v)%Q) ∨
       (binary_round_aux prec emax s m e l = S754_infinity s ∧
        (2 ^ (emax - prec + 1) <= v)%Q)))).
Proof.
  intros Hm Hlo Hhi Hexact e1.
  destruct (binary_round_aux_Z s m e l Hm) as (m2 & Hm2 & Hex & Hres).
  fold e1 in Hm2, Hres.
  assert (He1 : e ≤ e1) by lia.
  assert (Hee : fexp prec emax (Zdigits2 m + e) ≤ e → e1 = e) by lia.
  clearbody e1.
  set (k := e1 - e) in *.
  assert (Hk : 0 ≤ k) by lia.
  assert (Hp : 0 < 2 ^ k) by (apply Z.pow_pos_nonneg; lia).
  set (m1 := m / 2 ^ k) in *.
  assert (H1 : m1 * 2 ^ k ≤ m).
  { rewrite Z.mul_comm. apply Z.mul_div_le. done. }
  assert (H2 : m + 1 ≤ (m1 + 1) * 2 ^ k).
  { pose proof (Z.mul_succ_div_gt m (2 ^ k) Hp). fold m1 in H. lia. }
  assert (Hsplit : (2 ^ e1 == inject_Z (2 ^ k) * 2 ^ e)%Q).
  { rewrite pow2_inject by done. apply pow2_split. }
  pose proof (pow2_pos e) as Hpe. pose proof (pow2_pos e1) as Hpe1.
  assert (Hlo1 : (inject_Z m1 * 2 ^ e1 <= x)%Q).
  { rewrite Hsplit, Qmult_assoc, <- inject_Z_mult.
    eapply Qle_trans; [|exact Hlo].
    apply Qmult_le_compat_r; [|lra]. by rewrite <- Zle_Qle. }
  assert (Hhi1 : (x <= inject_Z (m1 + 1) * 2 ^ e1)%Q).
  { rewrite Hsplit, Qmult_assoc, <- inject_Z_mult.
    eapply Qle_trans; [exact Hhi|].
    apply Qmult_le_compat_r; [|lra]. by rewrite <- Zle_Qle. }
  rewrite inject_Z_plus in Hhi1.
  assert (Hv1 : (inject_Z m1 * 2 ^ e1 <= inject_Z m2 * 2 ^ e1)%Q).
  { apply Qmult_le_compat_r; [|lra]. rewrite <- Zle_Qle. lia. }
  assert (Hv2 : (inject_Z m2 * 2 ^ e1 <= inject_Z (m1 + 1) * 2 ^ e1)%Q).
  { apply Qmult_le_compat_r; [|lra]. rewrite <- Zle_Qle. lia. }
  rewrite inject_Z_plus in Hv2.
  exists (inject_Z m2 * 2 ^ e1)%Q.
  change (inject_Z 1) with 1%Q in Hhi1, Hv2.
  split; [nra|]. split; [nra|]. split.
  { intros Hl Hle. rewrite (Hex Hl Hle), (Hexact Hl).
    rewrite (Hee Hle). reflexivity. }
  destruct Hres as [[-> Hr]|(Hpos & mr & er & Hmr & Her & Hr)].
  - left. split; [|done]. apply Qmult_0_l.
  - right. split.
    { apply Qmult_lt_0_compat; [|done]. replace 0%Q with (inject_Z 0) by done.
      by rewrite <- Zlt_Qlt. }
    assert (Hval : (inject_Z (Z.pos mr) * 2 ^ er == inject_Z m2 * 2 ^ e1)%Q).
    { rewrite <- Hmr, inject_Z_mult, pow2_inject by lia.
      rewrite <- Qmult_assoc, <- pow2_split. reflexivity. }
    destruct Hr as [Hr|[Hr Hover]].
    + left. by exists mr, er.
    + right. split; [done|]. rewrite <- Hval.
      assert ((2 ^ (emax - prec + 1) <= 2 ^ er)%Q) by (apply pow2_le; lia).
      assert ((1 <= inject_Z (Z.pos mr))%Q).
      { replace 1%Q with (inject_Z 1) by done. rewrite <- Zle_Qle. lia. }
      pose proof (pow2_pos er). nra.
Qed.

Lemma bounded_spec (m : positive) (e : Z) :
  bounded prec emax m e = true →
  SpecFloat.emin prec emax ≤ e ∧ e ≤ emax - prec ∧
  Z.pos (digits2_pos m) ≤ prec ∧
  (e = SpecFloat.emin prec emax ∨ Z.pos (digits2_pos m) = prec).
Proof.
  unfold bounded, canonical_mantissa, fexp. intros [H1 H2]%andb_prop.
  apply Z.eqb_eq in H1. apply Z.leb_le in H2. lia.
Qed.

Lemma iter_xO (m d : positive) :
  Z.pos (Pos.iter xO m d) = Z.pos m * 2 ^ Z.pos d.
Proof.
  induction d as [|d IH] using Pos.peano_ind.
  - simpl. lia.
  - rewrite Pos.iter_succ, Pos2Z.inj_xO, IH, Pos2Z.inj_succ,
      Z.pow_succ_r by lia. lia.
Qed.

Lemma shl_align_spec (mx : positive) (ex ex' : Z) :
  (shl_align mx ex ex').2 = Z.min ex ex' ∧
  Z.pos (shl_align mx ex ex').1 = Z.pos mx * 2 ^ (ex - Z.min ex ex').
Proof.
  unfold shl_align. destruct (ex' - ex) as [|d|d] eqn:Hd; simpl.
  - replace (Z.min ex ex') with ex by lia. rewrite Z.sub_diag. lia.
  - replace (Z.min ex ex') with ex by lia. rewrite Z.sub_diag. lia.
  - replace (Z.min ex ex') with ex' by lia. rewrite iter_xO.
    replace (ex - ex') with (Z.pos d) by lia. done.
Qed.

(** The value of an aligned mantissa. *)
Lemma shl_align_Q (mx : positive) (ex ex' : Z) :
  (inject_Z (Z.pos (shl_align mx ex ex').1) * 2 ^ (shl_align mx ex ex').2
   == inject_Z (Z.pos mx) * 2 ^ ex)%Q.
Proof.
  destruct (shl_align_spec mx ex ex') as [-> ->].
  rewrite inject_Z_mult, pow2_inject by lia.
  rewrite <- Qmult_assoc, <- pow2_split. reflexivity.
Qed.

Lemma eps_half : (0 < 2 ^ (1 - prec) ∧ 2 ^ (1 - prec) <= 1 # 2)%Q.
Proof.
  split; [apply pow2_pos|].
  change (1 # 2)%Q with (2 ^ (-1))%Q. apply pow2_le. lia.
Qed.

(** Rounding a positive number that is a multiple of the smallest
    positive number of the format: the relative error is at most
    [2 ^ (1 - prec)], and the result is not zero. *)
Lemma binary_round_Q (s : bool) (m : positive) (e : Z) :
  SpecFloat.emin prec emax ≤ e →
  ∃ v : Q,
    (inject_Z (Z.pos m) * 2 ^ e * (1 - 2 ^ (1 - prec)) <= v)%Q ∧
    (v <= inject_Z (Z.pos m) * 2 ^ e * (1 + 2 ^ (1 - prec)))%Q ∧
    ((∃ mr er,
        binary_round prec emax s m e = S754_finite s mr er ∧
        (inject_Z (Z.pos mr) * 2 ^ er == v)%Q) ∨
     (binary_round prec emax s m e = S754_infinity s ∧
      (2 ^ (emax - prec + 1) <= v)%Q)).
Proof.
  intros He. unfold binary_round.
  pose proof (shl_align_Q m e (fexp prec emax (Z.pos (digits2_pos m) + e)))
    as Hval.
  destruct (shl_align_spec m e (fexp prec emax (Z.pos (digits2_pos m) + e)))
    as [Hez _].
  destruct (shl_align m e (fexp prec emax (Z.pos (digits2_pos m) + e)))
    as [mz ez]. simpl in Hval, Hez.
  assert (Hmin : SpecFloat.emin prec emax ≤ ez) by (unfold fexp in Hez; lia).
  set (x := (inject_Z (Z.pos m) * 2 ^ e)%Q) in *.
  assert (Hx : (0 < x)%Q).
  { rewrite <- Hval. apply Qmult_lt_0_compat; [done|apply pow2_pos]. }
  destruct eps_half as [Heps0 Heps].
  destruct (binary_round_aux_Q s (Z.pos mz) ez loc_Exact x) as
    (v & Hlo & Hhi & Hex & Hres).
  { lia. }
  { rewrite Hval. apply Qle_refl. }
  { rewrite <- Hval, inject_Z_plus. change (inject_Z 1) with 1%Q.
    pose proof (pow2_pos ez). nra. }
  { intros _. by rewrite Hval. }
  simpl Zdigits2 in *.
  assert (Hbound : (x * (1 - 2 ^ (1 - prec)) <= v ∧
                    v <= x * (1 + 2 ^ (1 - prec)))%Q).
  { destruct (decide (fexp prec emax (Z.pos (digits2_pos mz) + ez) ≤ ez))
      as [Hle|Hgt].
    - rewrite (Hex eq_refl Hle). nra.
    - assert (He1 : Z.max ez (fexp prec emax (Z.pos (digits2_pos mz) + ez))
                    = (1 - prec) + (Z.pos (digits2_pos mz) - 1) + ez)
        by (unfold fexp in *; lia).
      rewrite He1 in Hlo, Hhi. rewrite !pow2_plus in Hlo, Hhi.
      assert (Hd : (2 ^ (Z.pos (digits2_pos mz) - 1) <= inject_Z (Z.pos mz))%Q).
      { rewrite <- pow2_inject by lia. rewrite <- Zle_Qle.
        apply digits2_pos_bounds. }
      pose proof (pow2_pos ez).
      pose proof (pow2_pos (Z.pos (digits2_pos mz) - 1)).
      assert (Hu : (2 ^ (1 - prec) * 2 ^ (Z.pos (digits2_pos mz) - 1) * 2 ^ ez
                    <= 2 ^ (1 - prec) * x)%Q).
      { rewrite <- Hval. rewrite <- !Qmult_assoc.
        apply Qmult_le_l; [done|]. apply Qmult_le_compat_r; [done|lra]. }
      split; lra. }
  exists v. split; [apply Hbound|]. split; [apply Hbound|].
  destruct Hres as [[Hv0 _]|[_ Hres]]; [|done].
  exfalso. destruct Hbound as [Hb _]. rewrite Hv0 in Hb. nra.
Qed.

Lemma SF2Q_nonneg (f : spec_float) : SF_nonneg f → (0 <= SF2Q f)%Q.
Proof.
  destruct f as [| | |[] m e]; simpl; try done; try lra.
  intros _. pose proof (pow2_pos e).
  assert ((0 < inject_Z (Z.pos m))%Q) by done. nra.
Qed.

(** The sum of two finite numbers that are not negative. *)
Lemma SFadd_nonneg (a b : spec_float) :
  SF_nonneg a → SF_nonneg b →
  SpecFloat.valid_binary prec emax a = true → SpecFloat.valid_binary prec emax b = true →
  (SF_nonneg (SFadd prec emax a b) ∧
   ((SF2Q a + SF2Q b) * (1 - 2 ^ (1 - prec)) <= SF2Q (SFadd prec emax a b))%Q ∧
   (SF2Q (SFadd prec emax a b) <= (SF2Q a + SF2Q b) * (1 + 2 ^ (1 - prec)))%Q) ∨
  (SFadd prec emax a b = S754_infinity false ∧
   (2 ^ (emax - prec + 1) <= (SF2Q a + SF2Q b) * (1 + 2 ^ (1 - prec)))%Q).
Proof.
  intros Ha Hb Hva Hvb. destruct eps_half as [Heps0 Heps].
  pose proof (SF2Q_nonneg a Ha) as Hqa. pose proof (SF2Q_nonneg b Hb) as Hqb.
  destruct a as [sa| | |[] ma ea]; try done;
    destruct b as [sb| | |[] mb eb]; try done.
  - left. split; [by destruct sa, sb|].
    replace (SF2Q (SFadd prec emax (S754_zero sa) (S754_zero sb))) with 0%Q
      by (by destruct sa, sb).
    simpl. lra.
  - left. split; [done|]. simpl SFadd. simpl (SF2Q (S754_zero _)).
    simpl (SF2Q (S754_zero _)) in *. nra.
  - left. split; [done|]. simpl SFadd. simpl (SF2Q (S754_zero _)).
    simpl (SF2Q (S754_zero _)) in *. nra.
  - simpl in Hva, Hvb.
    apply bounded_spec in Hva as (Hea & _), Hvb as (Heb & _).
    unfold SFadd.
    pose proof (shl_align_Q ma ea (Z.min ea eb)) as Hqa'.
    pose proof (shl_align_Q mb eb (Z.min ea eb)) as Hqb'.
    destruct (shl_align_spec ma ea (Z.min ea eb)) as [Hza _].
    destruct (shl_align_spec mb eb (Z.min ea eb)) as [Hzb _].
    rewrite Hza in Hqa'. rewrite Hzb in Hqb'.
    replace (Z.min ea (Z.min ea eb)) with (Z.min ea eb) in Hqa' by lia.
    replace (Z.min eb (Z.min ea eb)) with (Z.min ea eb) in Hqb' by lia.
    set (Ma := (shl_align ma ea (Z.min ea eb)).1) in *.
    set (Mb := (shl_align mb eb (Z.min ea eb)).1) in *.
    cbn [cond_Zopp].
    change (Z.pos Ma + Z.pos Mb) with (Z.pos (Ma + Mb)). cbn [binary_normalize].
    destruct (binary_round_Q false (Ma + Mb) (Z.min ea eb)) as
      (v & Hlo & Hhi & Hres); [lia|].
    assert (Hx : (inject_Z (Z.pos (Ma + Mb)) * 2 ^ Z.min ea eb
                  == SF2Q (S754_finite false ma ea)
                     + SF2Q (S754_finite false mb eb))%Q).
    { rewrite Pos2Z.inj_add, inject_Z_plus, Qmult_plus_distr_l, Hqa', Hqb'.
      simpl. ring. }
    rewrite Hx in Hlo, Hhi.
    destruct Hres as [(mr & er & -> & Hv)|[-> Hover]].
    + left. split; [done|].
      replace (SF2Q (S754_finite false mr er))
        with (1 * inject_Z (Z.pos mr) * 2 ^ er)%Q by done.
      rewrite Qmult_1_l, Hv. done.
    + right. split; [done|]. lra.
Qed.

Lemma new_location_exact (nb_steps k : Z) :
  new_location nb_steps k = loc_Exact → k = 0.
Proof.
  unfold new_location, new_location_even, new_location_odd.
  destruct (Z.even nb_steps), (k =? 0) eqn:Hk; try done;
    intros _; by apply Z.eqb_eq.
Qed.

(** The quotient of two mantissas, as [SFdiv] prepares it for the
    rounding. *)
Lemma SFdiv_core_binary_spec (m1 m2 : positive) (e1 e2 : Z) :
  let x := ((inject_Z (Z.pos m1) * 2 ^ e1) / (inject_Z (Z.pos m2) * 2 ^ e2))%Q in
  let r := SFdiv_core_binary prec emax (Z.pos m1) e1 (Z.pos m2) e2 in
  0 ≤ r.1.1 ∧
  (inject_Z r.1.1 * 2 ^ r.1.2 <= x)%Q ∧
  (x <= inject_Z (r.1.1 + 1) * 2 ^ r.1.2)%Q ∧
  (r.2 = loc_Exact → (x == inject_Z r.1.1 * 2 ^ r.1.2)%Q) ∧
  r.1.2 ≤ fexp prec emax (Zdigits2 r.1.1 + r.1.2).
Proof.
  intros x r. subst r. unfold SFdiv_core_binary.
  set (d1 := Zdigits2 (Z.pos m1)). set (d2 := Zdigits2 (Z.pos m2)).
  set (e' := Z.min (fexp prec emax (d1 + e1 - (d2 + e2))) (e1 - e2)).
  set (s := e1 - e2 - e').
  assert (Hs : 0 ≤ s) by lia.
  set (m' := match s with Z.pos _ => Z.shiftl (Z.pos m1) s | 0 => Z.pos m1
             | Z.neg _ => 0 end).
  assert (Hm' : m' = Z.pos m1 * 2 ^ s).
  { subst m'. destruct s as [|p|p] eqn:Heq; [simpl; lia| |lia].
    by rewrite Z.shiftl_mul_pow2. }
  clearbody m'.
  pose proof (Z_div_mod m' (Z.pos m2) ltac:(lia)) as Hdiv.
  destruct (Z.div_eucl m' (Z.pos m2)) as [q r]. destruct Hdiv as [Hqr Hr].
  simpl fst. simpl snd.
  assert (Hps : 0 < 2 ^ s) by (apply Z.pow_pos_nonneg; lia).
  assert (Hq : 0 ≤ q) by nia.
  pose proof (pow2_pos e') as Hpe'. pose proof (pow2_pos e2) as Hpe2.
  assert (HB : (0 < inject_Z (Z.pos m2) * 2 ^ e2)%Q).
  { apply Qmult_lt_0_compat; done. }
  assert (HA : (inject_Z (Z.pos m1) * 2 ^ e1
                == inject_Z (Z.pos m2 * q + r) * 2 ^ e' * 2 ^ e2)%Q).
  { rewrite <- Hqr, Hm', inject_Z_mult, pow2_inject by done.
    rewrite <- !Qmult_assoc, <- !pow2_plus.
    by replace (s + (e' + e2)) with e1 by lia. }
  assert (Hm2 : (0 < inject_Z (Z.pos m2))%Q) by done.
  assert (Hr1 : (0 <= inject_Z r)%Q) by (replace 0%Q with (inject_Z 0) by done;
                                         rewrite <- Zle_Qle; lia).
  assert (Hr2 : (inject_Z r <= inject_Z (Z.pos m2))%Q) by (rewrite <- Zle_Qle; lia).
  assert (HPE : (0 < 2 ^ e' * 2 ^ e2)%Q) by (by apply Qmult_lt_0_compat).
  assert (Hr1' : (0 <= inject_Z r * (2 ^ e' * 2 ^ e2))%Q)
    by (apply Qmult_le_0_compat; lra).
  assert (Hr2' : (inject_Z r * (2 ^ e' * 2 ^ e2)
                  <= inject_Z (Z.pos m2) * (2 ^ e' * 2 ^ e2))%Q)
    by (apply Qmult_le_compat_r; lra).
  split; [done|]. split; [|split; [|split]].
  - subst x. apply Qle_shift_div_l; [done|]. rewrite HA.
    rewrite inject_Z_plus, inject_Z_mult. lra.
  - subst x. apply Qle_shift_div_r; [done|]. rewrite HA.
    rewrite !inject_Z_plus, inject_Z_mult. change (inject_Z 1) with 1%Q. lra.
  - intros Hl. apply new_location_exact in Hl. subst r x.
    rewrite HA, Z.add_0_r, inject_Z_mult. field.
    split; [lra|]. lra.
  - assert (Hdq : 0 ≤ Zdigits2 q) by (destruct q; simpl; lia).
    assert (Hd1 : 0 < d1) by (subst d1; simpl; lia).
    assert (Hd2 : 0 < d2) by (subst d2; simpl; lia).
    assert (Hlt : 2 ^ (d1 - 1 + s) < 2 ^ (d2 + Zdigits2 q)).
    { pose proof (Zdigits2_lt q Hq) as H1.
      pose proof (Zdigits2_lt (Z.pos m2) ltac:(lia)) as H2. fold d2 in H2.
      pose proof (Zdigits2_le (Z.pos m1) ltac:(lia)) as H3. fold d1 in H3.
      rewrite !Z.pow_add_r by lia.
      assert (0 < 2 ^ (d1 - 1)) by (apply Z.pow_pos_nonneg; lia).
      nia. }
    apply Z.pow_lt_mono_r_iff in Hlt; [|lia|lia].
    unfold fexp in *. lia.
Qed.

(** The quotient of a finite number that is not negative by a positive
    one: the error is at most [2 ^ (1 - prec)] of the quotient, plus the
    smallest positive number of the format. *)
Lemma SFdiv_nonneg (a : spec_float) (mb : positive) (eb : Z) :
  SF_nonneg a →
  let b := S754_finite false mb eb in
  let x := (SF2Q a / SF2Q b)%Q in
  let err := (2 ^ (1 - prec) * x + 2 ^ SpecFloat.emin prec emax)%Q in
  (SF_nonneg (SFdiv prec emax a b) ∧
   (x - err <= SF2Q (SFdiv prec emax a b))%Q ∧
   (SF2Q (SFdiv prec emax a b) <= x + err)%Q) ∨
  (SFdiv prec emax a b = S754_infinity false ∧
   (2 ^ (emax - prec + 1) <= x + err)%Q).
Proof.
  intros Ha b x err. destruct eps_half as [Heps0 Heps].
  pose proof (pow2_pos (SpecFloat.emin prec emax)) as Heta.
  destruct a as [sa| | |[] ma ea]; try done.
  - left. subst x err b. simpl SFdiv. split; [by destruct sa|].
    replace (SF2Q (S754_zero (xorb sa false))) with 0%Q by (by destruct sa).
    simpl (SF2Q (S754_zero sa)). unfold Qdiv. rewrite !Qmult_0_l.
    split; lra.
  - subst b. unfold SFdiv.
    destruct (SFdiv_core_binary_spec ma mb ea eb) as (Hq & Hlo & Hhi & Hex & Hn).
    destruct (SFdiv_core_binary prec emax (Z.pos ma) ea (Z.pos mb) eb)
      as [[q e'] l]. simpl in Hq, Hlo, Hhi, Hex, Hn.
    assert (Hx : (x == (inject_Z (Z.pos ma) * 2 ^ ea)
                       / (inject_Z (Z.pos mb) * 2 ^ eb))%Q).
    { subst x. simpl. by rewrite !Qmult_1_l. }
    rewrite <- Hx in Hlo, Hhi, Hex.
    assert (Hx0 : (0 <= x)%Q).
    { eapply Qle_trans; [|exact Hlo]. pose proof (pow2_pos e').
      assert ((0 <= inject_Z q)%Q)
        by (replace 0%Q with (inject_Z 0) by done; by rewrite <- Zle_Qle).
      nra. }
    destruct (binary_round_aux_Q false q e' l x Hq Hlo Hhi Hex)
      as (v & Hvlo & Hvhi & _ & Hres).
    replace (Z.max e' (fexp prec emax (Zdigits2 q + e')))
      with (fexp prec emax (Zdigits2 q + e')) in Hvlo, Hvhi by lia.
    assert (Herr : (2 ^ fexp prec emax (Zdigits2 q + e') <= err)%Q).
    { subst err. unfold fexp in *.
      destruct (decide (Zdigits2 q + e' - prec ≤ SpecFloat.emin prec emax))
        as [Hsub|Hnorm].
      - replace (Z.max (Zdigits2 q + e' - prec) (SpecFloat.emin prec emax))
          with (SpecFloat.emin prec emax) by lia. nra.
      - replace (Z.max (Zdigits2 q + e' - prec) (SpecFloat.emin prec emax))
          with ((1 - prec) + (Zdigits2 q - 1) + e') by lia.
        assert (Hq0 : 0 < q).
        { destruct q as [|p|p]; [|lia|lia]. simpl in *. lia. }
        rewrite !pow2_plus.
        assert (Hd : (2 ^ (Zdigits2 q - 1) <= inject_Z q)%Q).
        { assert (0 < Zdigits2 q) by (destruct q; simpl; lia).
          rewrite <- pow2_inject by lia. rewrite <- Zle_Qle.
          by apply Zdigits2_le. }
        pose proof (pow2_pos e'). pose proof (pow2_pos (Zdigits2 q - 1)).
        assert ((2 ^ (1 - prec) * 2 ^ (Zdigits2 q - 1) * 2 ^ e'
                 <= 2 ^ (1 - prec) * x)%Q).
        { rewrite <- !Qmult_assoc. apply Qmult_le_l; [done|].
          eapply Qle_trans; [|exact Hlo].
          apply Qmult_le_compat_r; [done|lra]. }
        lra. }
    change (xorb false false) with false.
    destruct Hres as [[Hv0 ->]|[Hvpos [(mr & er & -> & Hv)|[-> Hover]]]].
    + left. split; [done|]. simpl SF2Q. rewrite Hv0 in Hvlo, Hvhi. split; lra.
    + left. split; [done|].
      replace (SF2Q (S754_finite false mr er))
        with (1 * inject_Z (Z.pos mr) * 2 ^ er)%Q by done.
      rewrite Qmult_1_l, Hv. split; lra.
    + right. split; [done|]. lra.
Qed.

(** Of two positive numbers in canonical form, the one with the smaller
    exponent is the smaller one. *)
Lemma canonical_lt (ma mb : positive) (ea eb : Z) :
  bounded prec emax ma ea = true → bounded prec emax mb eb = true →
  ea < eb →
  (inject_Z (Z.pos ma) * 2 ^ ea < inject_Z (Z.pos mb) * 2 ^ eb)%Q.
Proof.
  intros (Hea & _ & Hda & _)%bounded_spec (Heb & _ & _ & Hdb)%bounded_spec Hlt.
  destruct Hdb as [->|Hdb]; [lia|].
  pose proof (digits2_pos_bounds ma) as [_ Ha].
  pose proof (digits2_pos_bounds mb) as [Hb _]. rewrite Hdb in Hb.
  assert (Ha' : Z.pos ma < 2 ^ prec).
  { eapply Z.lt_le_trans; [exact Ha|]. apply Z.pow_le_mono_r; lia. }
  rewrite (pow2_split eb ea), Qmult_assoc.
  apply Qmult_lt_compat_r; [apply pow2_pos|].
  rewrite <- pow2_inject, <- inject_Z_mult by lia. rewrite <- Zlt_Qlt.
  assert (2 ^ 1 ≤ 2 ^ (eb - ea)) by (apply Z.pow_le_mono_r; lia).
  assert (2 ^ prec = 2 ^ (prec - 1) * 2 ^ 1).
  { rewrite <- Z.pow_add_r by lia. f_equal. lia. }
  nia.
Qed.

(** [SFcompare] compares the values of finite numbers. *)
Lemma SFcompare_Q (a b : spec_float) :
  SpecFloat.valid_binary prec emax a = true →
  SpecFloat.valid_binary prec emax b = true →
  SF_finite a → SF_finite b →
  match SFcompare a b with
  | Some Lt => (SF2Q a < SF2Q b)%Q
  | Some Eq => (SF2Q a == SF2Q b)%Q
  | Some Gt => (SF2Q b < SF2Q a)%Q
  | None => False
  end.
Proof.
  intros Hva Hvb Ha Hb.
  destruct a as [sa| | |sa ma ea]; try done;
    destruct b as [sb| | |sb mb eb]; try done; simpl SFcompare.
  - pose proof (pow2_pos eb). assert ((0 < inject_Z (Z.pos mb))%Q) by done.
    destruct sb; simpl; nra.
  - pose proof (pow2_pos ea). assert ((0 < inject_Z (Z.pos ma))%Q) by done.
    destruct sa; simpl; nra.
  - simpl in Hva, Hvb.
    pose proof (pow2_pos ea). assert ((0 < inject_Z (Z.pos ma))%Q) by done.
    pose proof (pow2_pos eb). assert ((0 < inject_Z (Z.pos mb))%Q) by done.
    assert (Hcmp : ∀ c, (ea ?= eb) = Eq → Pos.compare_cont Eq ma mb = c →
              match c with
              | Lt => (inject_Z (Z.pos ma) * 2 ^ ea < inject_Z (Z.pos mb) * 2 ^ eb)%Q
              | Eq => (inject_Z (Z.pos ma) * 2 ^ ea == inject_Z (Z.pos mb) * 2 ^ eb)%Q
              | Gt => (inject_Z (Z.pos mb) * 2 ^ eb < inject_Z (Z.pos ma) * 2 ^ ea)%Q
              end).
    { intros c ->%Z.compare_eq Hc. change (Pos.compare_cont Eq ma mb)
        with (Pos.compare ma mb) in Hc.
      destruct c.
      - apply Pos.compare_eq in Hc as ->. apply Qeq_refl.
      - apply Qmult_lt_compat_r; [done|]. rewrite <- Zlt_Qlt. exact Hc.
      - apply Pos.compare_gt_iff in Hc.
        apply Qmult_lt_compat_r; [done|]. rewrite <- Zlt_Qlt. exact Hc. }
    assert (Hlt : (ea ?= eb) = Lt →
              (inject_Z (Z.pos ma) * 2 ^ ea < inject_Z (Z.pos mb) * 2 ^ eb)%Q).
    { intros Hc. apply canonical_lt; [done|done|]. by apply Z.compare_lt_iff. }
    assert (Hgt : (ea ?= eb) = Gt →
              (inject_Z (Z.pos mb) * 2 ^ eb < inject_Z (Z.pos ma) * 2 ^ ea)%Q).
    { intros Hc. apply canonical_lt; [done|done|].
      apply Z.compare_gt_iff in Hc. lia. }
    destruct sa, sb; simpl SF2Q; try nra.
    + destruct (ea ?= eb) eqn:He.
      * specialize (Hcmp _ eq_refl eq_refl).
        destruct (Pos.compare_cont Eq ma mb); simpl; lra.
      * specialize (Hlt eq_refl). lra.
      * specialize (Hgt eq_refl). lra.
    + destruct (ea ?= eb) eqn:He.
      * specialize (Hcmp _ eq_refl eq_refl).
        destruct (Pos.compare_cont Eq ma mb); simpl; lra.
      * specialize (Hlt eq_refl). lra.
      * specialize (Hgt eq_refl). lra.
Qed.

Lemma SFleb_SF_le (a b : spec_float) :
  SpecFloat.valid_binary prec emax a = true →
  SpecFloat.valid_binary prec emax b = true →
  SFleb a b = true ↔ SF_le a b.
Proof.
  intros Hva Hvb. unfold SFleb.
  assert (Hfin : SF_finite a → SF_finite b →
            match SFcompare a b with Some (Lt | Eq) => true | _ => false end
            = true ↔ (SF2Q a <= SF2Q b)%Q).
  { intros Ha Hb. pose proof (SFcompare_Q a b Hva Hvb Ha Hb) as Hc.
    destruct (SFcompare a b) as [[]|]; try done; split; try done; lra. }
  destruct a as [sa|[]| |sa ma ea]; destruct b as [sb|[]| |sb mb eb];
    try (by apply Hfin); try (by simpl; split);
    try (by destruct sa; simpl; split); try (by destruct sb; simpl; split).
Qed.

Lemma SF_le_trans (a b c : spec_float) : SF_le a b → SF_le b c → SF_le a c.
Proof.
  destruct a as [sa|[]| |sa ma ea]; destruct b as [sb|[]| |sb mb eb];
    destruct c as [sc|[]| |sc mc ec]; unfold SF_le; try done;
    apply Qle_trans.
Qed.

Lemma SF_le_total (a b : spec_float) :
  a ≠ S754_nan → b ≠ S754_nan → SF_le a b ∨ SF_le b a.
Proof.
  intros Ha Hb.
  destruct a as [sa|[]| |sa ma ea]; destruct b as [sb|[]| |sb mb eb];
    unfold SF_le; try done; try (by left); try (by right);
    match goal with
    | |- (?x <= ?y)%Q ∨ _ => destruct (Qlt_le_dec y x); [right; lra|by left]
    end.
Qed.

Lemma SF_le_refl (a : spec_float) : a ≠ S754_nan → SF_le a a.
Proof. intros Ha. by destruct (SF_le_total a a Ha Ha). Qed.

(** Subtracting a finite number from one that is not above it gives a
    number that is not positive. *)
Lemma SFsub_nonpos (a b : spec_float) :
  SpecFloat.valid_binary prec emax a = true →
  SpecFloat.valid_binary prec emax b = true →
  SF_finite b → SF_le a b →
  SF_nonpos (SFsub prec emax a b).
Proof.
  intros Hva Hvb Hb Hle.
  destruct b as [sb| | |sb mb eb]; try done;
    destruct a as [sa|[]| |sa ma ea]; try done.
  - by destruct sa, sb.
  - simpl in *. pose proof (pow2_pos ea).
    assert ((0 < inject_Z (Z.pos ma))%Q) by done.
    destruct sa; [done|]. exfalso. nra.
  - simpl in *. pose proof (pow2_pos eb).
    assert ((0 < inject_Z (Z.pos mb))%Q) by done.
    destruct sb; [|done]. exfalso. nra.
  - simpl in Hva, Hvb, Hle.
    pose proof Hva as (Hea & _)%bounded_spec.
    pose proof Hvb as (Heb & _)%bounded_spec.
    unfold SFsub.
    pose proof (shl_align_Q ma ea (Z.min ea eb)) as Hqa'.
    pose proof (shl_align_Q mb eb (Z.min ea eb)) as Hqb'.
    destruct (shl_align_spec ma ea (Z.min ea eb)) as [Hza _].
    destruct (shl_align_spec mb eb (Z.min ea eb)) as [Hzb _].
    rewrite Hza in Hqa'. rewrite Hzb in Hqb'.
    replace (Z.min ea (Z.min ea eb)) with (Z.min ea eb) in Hqa' by lia.
    replace (Z.min eb (Z.min ea eb)) with (Z.min ea eb) in Hqb' by lia.
    set (Ma := (shl_align ma ea (Z.min ea eb)).1) in *.
    set (Mb := (shl_align mb eb (Z.min ea eb)).1) in *.
    set (D := cond_Zopp sa (Z.pos Ma) - cond_Zopp sb (Z.pos Mb)).
    assert (HD : D ≤ 0).
    { rewrite <- !Qmult_assoc, <- Hqa', <- Hqb' in Hle.
      pose proof (pow2_pos (Z.min ea eb)) as HP.
      assert (HA : (0 < inject_Z (Z.pos Ma))%Q) by done.
      assert (HB : (0 < inject_Z (Z.pos Mb))%Q) by done.
      assert (Hinj : ∀ x y : Z, x + 1 ≤ y → (inject_Z x + 1 <= inject_Z y)%Q).
      { intros x y Hxy. change 1%Q with (inject_Z 1).
        rewrite <- inject_Z_plus, <- Zle_Qle. done. }
      apply Z.le_ngt. intros Hpos. subst D.
      destruct sa, sb; simpl in Hpos, Hle.
      - pose proof (Hinj (Z.pos Ma) (Z.pos Mb) ltac:(lia)). nra.
      - lia.
      - nra.
      - pose proof (Hinj (Z.pos Mb) (Z.pos Ma) ltac:(lia)). nra. }
    destruct D as [|p|p]; [done|lia|]. simpl binary_normalize.
    destruct (binary_round_Q true p (Z.min ea eb)) as (v & _ & _ & Hres);
      [lia|].
    by destruct Hres as [(mr & er & -> & _)|[-> _]].
Qed.

Lemma SFsub_diag (a : spec_float) :
  SF_finite a → ∃ s, SFsub prec emax a a = S754_zero s.
Proof.
  destruct a as [sa| | |sa ma ea]; try done; intros _.
  - exists (if sa then false else false). by destruct sa.
  - exists false. unfold SFsub. by rewrite Z.sub_diag.
Qed.

Lemma SFsub_ninf (b : spec_float) :
  SF_finite b → SFsub prec emax (S754_infinity true) b = S754_infinity true.
Proof. by destruct b. Qed.

End rounding_facts.

(** *** Doubles *)

Lemma prec64_gt_1 : 1 < FloatOps.prec.
Proof. done. Qed.

Lemma SFcompare_refl (f : spec_float) :
  f ≠ S754_nan → SFcompare f f = Some Eq.
Proof.
  destruct f as [s|[]| |[] m e]; try done; intros _; simpl;
    pose proof (Z.compare_refl e) as He;
    pose proof (Pos.compare_cont_refl m Eq) as Hm;
    by rewrite He, Hm.
Qed.

Lemma is_nan_spec (v : float) :
  is_nan v = true ↔ Prim2SF v = S754_nan.
Proof.
  unfold is_nan. rewrite FloatAxioms.eqb_spec. unfold SFeqb.
  destruct (Prim2SF v) as [s|s| |s m e] eqn:Hv; [| |done|];
    by rewrite SFcompare_refl.
Qed.

Lemma is_nan_false (v : float) :
  is_nan v = false ↔ Prim2SF v ≠ S754_nan.
Proof.
  rewrite <- is_nan_spec. by destruct (is_nan v).
Qed.

Lemma leb_SF_le (a b : float) :
  (a <=? b)%float = true ↔ SF_le (Prim2SF a) (Prim2SF b).
Proof.
  rewrite leb_spec.
  apply SFleb_SF_le with (prec := FloatOps.prec) (emax := FloatOps.emax);
    auto using prec64_gt_1, Prim2SF_valid.
Qed.

Lemma eqb_zero_spec (v : float) :
  (v =? zero)%float = true ↔ ∃ s, Prim2SF v = S754_zero s.
Proof.
  rewrite FloatAxioms.eqb_spec. change (Prim2SF zero) with (S754_zero false).
  unfold SFeqb. destruct (Prim2SF v) as [s|[]| |[] m e]; simpl;
    split; try done; try (by intros [? ?]). by exists s.
Qed.

Lemma ltb_infinity_spec (v : float) :
  (v <? infinity)%float = true ↔
  Prim2SF v = S754_infinity true ∨ SF_finite (Prim2SF v).
Proof.
  rewrite ltb_spec. change (Prim2SF infinity) with (S754_infinity false).
  unfold SFltb. destruct (Prim2SF v) as [s|[]| |s m e]; simpl;
    split; try done; try (by intros [?|?]); try (by right); try (by left).
Qed.

Lemma is_finite_spec (v : float) :
  is_finite v = true ↔ SF_finite (Prim2SF v).
Proof.
  unfold is_finite, is_infinity. rewrite FloatAxioms.eqb_spec, abs_spec.
  change (Prim2SF infinity) with (S754_infinity false).
  destruct (is_nan v) eqn:Hn.
  - apply is_nan_spec in Hn. rewrite Hn. done.
  - apply is_nan_false in Hn. simpl.
    destruct (Prim2SF v) as [s|[]| |s m e]; done.
Qed.

(** *** The maximum of the row *)

Lemma np_maximum_spec (a b : float) :
  is_nan a = false → is_nan b = false →
  (np_maximum a b = a ∨ np_maximum a b = b) ∧
  SF_le (Prim2SF a) (Prim2SF (np_maximum a b)) ∧
  SF_le (Prim2SF b) (Prim2SF (np_maximum a b)).
Proof.
  intros Ha Hb. unfold np_maximum. rewrite Ha, orb_false_r.
  apply is_nan_false in Ha, Hb.
  destruct (b <=? a)%float eqn:Hle.
  - apply leb_SF_le in Hle. split; [by left|].
    split; [by apply SF_le_refl|done].
  - split; [by right|]. split; [|by apply SF_le_refl].
    destruct (SF_le_total (Prim2SF a) (Prim2SF b) Ha Hb) as [|Hba]; [done|].
    apply leb_SF_le in Hba. congruence.
Qed.

(** [np.max] of a row without NaN is an entry of the row, and no entry
    is above it. *)
Lemma foldl_np_maximum (l : list float) (a : float) :
  Forall (fun v => is_nan v = false) (a :: l) →
  foldl np_maximum a l ∈ a :: l ∧
  Forall (fun v => SF_le (Prim2SF v) (Prim2SF (foldl np_maximum a l)))
         (a :: l).
Proof.
  revert a. induction l as [|b l IH]; intros a Hall.
  - simpl. split; [apply elem_of_cons; by left|].
    constructor; [|done]. apply SF_le_refl, is_nan_false.
    by inversion Hall.
  - simpl. inversion Hall as [|? ? Ha Hl]; subst.
    inversion Hl as [|? ? Hb Hl']; subst.
    destruct (np_maximum_spec a b Ha Hb) as (Hm & Hla & Hlb).
    assert (Hnm : is_nan (np_maximum a b) = false)
      by (by destruct Hm as [-> | ->]).
    destruct (IH (np_maximum a b)) as [Hin Hle]; [by constructor|].
    split.
    + rewrite !elem_of_cons. apply elem_of_cons in Hin as [Heq|Hin].
      * rewrite Heq. destruct Hm as [-> | ->]; auto.
      * auto.
    + inversion Hle as [|? ? Hm' Hl'']; subst.
      constructor; [by eapply SF_le_trans|].
      constructor; [by eapply SF_le_trans|done].
Qed.

(** *** The sum of the row *)

Lemma sum_val_app (l1 l2 : list float) :
  (sum_val (l1 ++ l2) == sum_val l1 + sum_val l2)%Q.
Proof.
  induction l1 as [|a l1 IH]; simpl; [ring|]. rewrite IH. ring.
Qed.

Lemma sum_val_perm (l1 l2 : list float) :
  l1 ≡ₚ l2 → (sum_val l1 == sum_val l2)%Q.
Proof.
  induction 1 as [|a l1 l2 _ IH|a b l|l1 l2 l3 _ IH1 _ IH2]; simpl.
  - apply Qeq_refl.
  - rewrite IH. apply Qeq_refl.
  - ring.
  - by rewrite IH1.
Qed.

Lemma unit_small (e : float) : unit_float e → small_float e.
Proof. intros [Hnn Hle]. split; [done|]. lra. Qed.

Lemma sum_val_bounds (l : list float) :
  Forall small_float l →
  (0 <= sum_val l)%Q ∧ (sum_val l <= 2 * inject_Z (Z.of_nat (length l)))%Q.
Proof.
  induction 1 as [|a l [Hnn Hle] _ [IH1 IH2]]; simpl length; simpl sum_val.
  - split; [apply Qle_refl|]. done.
  - pose proof (SF2Q_nonneg _ Hnn) as H0. fold (float_val a) in H0.
    rewrite Nat2Z.inj_succ, <- Z.add_1_r, inject_Z_plus.
    change (inject_Z 1) with 1%Q. split; lra.
Qed.

Lemma tree_step (E1 E2 v1 v2 v k1 k2 k eps : Q) :
  (0 <= E1 → 0 <= E2 → 0 < eps → 0 <= k1 → 0 <= k2 →
   k1 + 1 <= k → k2 + 1 <= k → 2 * k * eps <= 1 →
   E1 * (1 - k1 * eps) <= v1 → v1 <= E1 * (1 + 2 * k1 * eps) →
   E2 * (1 - k2 * eps) <= v2 → v2 <= E2 * (1 + 2 * k2 * eps) →
   (v1 + v2) * (1 - eps) <= v → v <= (v1 + v2) * (1 + eps) →
   (E1 + E2) * (1 - k * eps) <= v ∧ v <= (E1 + E2) * (1 + 2 * k * eps))%Q.
Proof.
  intros HE1 HE2 He Hk1 Hk2 Hk1k Hk2k Hke L1 U1 L2 U2 L U.
  assert (A1 : ((1 + 2 * k1 * eps) * (1 + eps) <= 1 + 2 * k * eps)%Q) by nra.
  assert (A2 : ((1 + 2 * k2 * eps) * (1 + eps) <= 1 + 2 * k * eps)%Q) by nra.
  assert (B1 : (1 - k * eps <= (1 - k1 * eps) * (1 - eps))%Q) by nra.
  assert (B2 : (1 - k * eps <= (1 - k2 * eps) * (1 - eps))%Q) by nra.
  assert (He1 : (eps <= 1)%Q) by nra.
  assert (C1 : (E1 * ((1 + 2 * k1 * eps) * (1 + eps))
                <= E1 * (1 + 2 * k * eps))%Q) by nra.
  assert (C2 : (E2 * ((1 + 2 * k2 * eps) * (1 + eps))
                <= E2 * (1 + 2 * k * eps))%Q) by nra.
  assert (D1 : (E1 * (1 - k * eps)
                <= E1 * ((1 - k1 * eps) * (1 - eps)))%Q) by nra.
  assert (D2 : (E2 * (1 - k * eps)
                <= E2 * ((1 - k2 * eps) * (1 - eps)))%Q) by nra.
  assert (F1 : (v1 * (1 + eps)
                <= E1 * (1 + 2 * k1 * eps) * (1 + eps))%Q) by nra.
  assert (F2 : (v2 * (1 + eps)
                <= E2 * (1 + 2 * k2 * eps) * (1 + eps))%Q) by nra.
  assert (G1 : (E1 * (1 - k1 * eps) * (1 - eps) <= v1 * (1 - eps))%Q) by nra.
  assert (G2 : (E2 * (1 - k2 * eps) * (1 - eps) <= v2 * (1 - eps))%Q) by nra.
  split; lra.
Qed.

Lemma final_bound (t P eps eta n k : Q) :
  (0 < eps → eps <= 1 # 4503599627370496 → 0 <= k → k <= n →
   n * eps <= 1 # 4194304 → 0 <= n * eta → n * eta <= 1 # 1000000000 →
   0 <= t →
   t * (1 - k * eps) <= 1 → 1 <= t * (1 + 2 * k * eps) →
   t * (1 - eps) - n * eta <= P → P <= t * (1 + eps) + n * eta →
   - (1 # 2000000) <= P - 1 ∧ P - 1 <= 1 # 2000000)%Q.
Proof.
  intros.
  assert ((k * eps <= 1 # 4194304)%Q) by nra.
  assert ((t <= 1 + (1 # 2097152))%Q) by nra.
  assert ((1 - (1 # 2097152) <= t)%Q) by nra.
  split; nra.
Qed.

Lemma final_bound_sum (P v eps n k : Q) :
  (0 <= k → k <= n → n * eps <= 1 # 4194304 → 0 < eps →
   - (1 # 2000000) <= P - 1 → P - 1 <= 1 # 2000000 →
   P * (1 - k * eps) <= v → v <= P * (1 + 2 * k * eps) →
   - (1 # 1000000) <= v - 1 ∧ v - 1 <= 1 # 1000000)%Q.
Proof.
  intros.
  assert ((k * eps <= 1 # 4194304)%Q) by nra.
  assert ((0 <= k * eps)%Q) by nra.
  split; nra.
Qed.

Lemma eps64 : (2 ^ (1 - FloatOps.prec) == 1 # 4503599627370496)%Q.
Proof. reflexivity. Qed.

Lemma eta64 :
  (0 < 2 ^ SpecFloat.emin FloatOps.prec FloatOps.emax ∧
   2 ^ SpecFloat.emin FloatOps.prec FloatOps.emax
   <= 1 # 18446744073709551616)%Q.
Proof.
  split; [apply pow2_pos|].
  change (1 # 18446744073709551616)%Q with (2 ^ (-64))%Q.
  apply pow2_le. done.
Qed.

Lemma big64 : (17179869184 <= 2 ^ (FloatOps.emax - FloatOps.prec + 1))%Q.
Proof.
  change 17179869184%Q with (2 ^ 34)%Q. apply pow2_le. done.
Qed.

Lemma length_Q (A : Type) (l : list A) :
  Z.of_nat (length l) ≤ 2 ^ 30 →
  (0 <= inject_Z (Z.of_nat (length l)))%Q ∧
  (inject_Z (Z.of_nat (length l)) <= 1073741824)%Q.
Proof.
  intros Hn. split.
  - change 0%Q with (inject_Z 0). rewrite <- Zle_Qle. lia.
  - change 1073741824%Q with (inject_Z (2 ^ 30)). by rewrite <- Zle_Qle.
Qed.

Lemma add_zero_l (s : float) :
  SF_nonneg (Prim2SF s) →
  SF_nonneg (Prim2SF (zero + s)) ∧ (float_val (zero + s) == float_val s)%Q.
Proof.
  unfold float_val. rewrite add_spec. change (Prim2SF zero) with (S754_zero false).
  destruct (Prim2SF s) as [[]| | |[] m e]; done.
Qed.

Lemma add_zero_r (s : float) :
  SF_nonneg (Prim2SF s) →
  SF_nonneg (Prim2SF (s + zero)) ∧ (float_val (s + zero) == float_val s)%Q.
Proof.
  unfold float_val. rewrite add_spec. change (Prim2SF zero) with (S754_zero false).
  destruct (Prim2SF s) as [[]| | |[] m e]; done.
Qed.

Lemma adds_to_nil (l : list float) (s : float) :
  adds_to l s → l = [] → s = zero.
Proof.
  induction 1 as [|a|l1 l2 s1 s2 _ IH1 _ IH2|l1 l2 s Hp _ IH]; intros Hl.
  - done.
  - done.
  - apply app_eq_nil in Hl as [-> ->]. by rewrite IH1, IH2.
  - subst l2. apply Permutation_nil_r in Hp. auto.
Qed.

(** A floating-point sum of at most 2^30 numbers between 0 and 2, in any
    order: it is a finite number, and its relative error is at most the
    number of additions times 2^-52 below and twice that above. *)
Lemma adds_to_bounds (l : list float) (s : float) :
  adds_to l s → Forall small_float l → Z.of_nat (length l) ≤ 2 ^ 30 →
  SF_nonneg (Prim2SF s) ∧
  (sum_val l * (1 - inject_Z (Z.of_nat (length l) - 1) * (1 # 4503599627370496))
   <= float_val s)%Q ∧
  (float_val s
   <= sum_val l * (1 + 2 * inject_Z (Z.of_nat (length l) - 1)
                        * (1 # 4503599627370496)))%Q.
Proof.
  induction 1 as [|a|l1 l2 s1 s2 H1 IH1 H2 IH2|l1 l2 s Hp _ IH];
    intros Hall Hlen.
  - split; [done|]. cbn [sum_val]. change (float_val zero) with 0%Q.
    split; rewrite Qmult_0_l; apply Qle_refl.
  - apply Forall_inv in Hall as [Hnn Hle]. split; [done|].
    cbn [sum_val length]. change (inject_Z (Z.of_nat 1 - 1)) with 0%Q.
    split; lra.
  - apply Forall_app in Hall as [Hall1 Hall2].
    rewrite length_app, Nat2Z.inj_add in Hlen.
    destruct IH1 as (Hnn1 & Hlo1 & Hhi1); [done|lia|].
    destruct IH2 as (Hnn2 & Hlo2 & Hhi2); [done|lia|].
    rewrite length_app, Nat2Z.inj_add, sum_val_app.
    destruct (decide (l1 = [])) as [->|Hne1].
    { rewrite (adds_to_nil [] s1 H1 eq_refl).
      destruct (add_zero_l s2 Hnn2) as [Hnn ->]. split; [done|].
      simpl. rewrite Qplus_0_l. done. }
    destruct (decide (l2 = [])) as [->|Hne2].
    { rewrite (adds_to_nil [] s2 H2 eq_refl).
      destruct (add_zero_r s1 Hnn1) as [Hnn ->]. split; [done|].
      simpl. rewrite Qplus_0_r, Z.add_0_r. done. }
    assert (Hn1 : 1 ≤ Z.of_nat (length l1)) by (destruct l1; simpl; [done|lia]).
    assert (Hn2 : 1 ≤ Z.of_nat (length l2)) by (destruct l2; simpl; [done|lia]).
    destruct (sum_val_bounds l1 Hall1) as [HE1 HE1'].
    destruct (sum_val_bounds l2 Hall2) as [HE2 HE2'].
    destruct (length_Q _ l1 ltac:(lia)) as [_ HN1].
    destruct (length_Q _ l2 ltac:(lia)) as [_ HN2].
    assert (Hk : ∀ n : Z, (inject_Z (n - 1) == inject_Z n - 1)%Q).
    { intros n. unfold Z.sub. rewrite inject_Z_plus. done. }
    assert (HN : (inject_Z (Z.of_nat (length l1) + Z.of_nat (length l2))
                  <= 1073741824)%Q).
    { change 1073741824%Q with (inject_Z (2 ^ 30)). by rewrite <- Zle_Qle. }
    assert (HN1' : (1 <= inject_Z (Z.of_nat (length l1)))%Q).
    { change 1%Q with (inject_Z 1). by rewrite <- Zle_Qle. }
    assert (HN2' : (1 <= inject_Z (Z.of_nat (length l2)))%Q).
    { change 1%Q with (inject_Z 1). by rewrite <- Zle_Qle. }
    rewrite !Hk in *. rewrite inject_Z_plus in *.
    set (n1 := inject_Z (Z.of_nat (length l1))) in *.
    set (n2 := inject_Z (Z.of_nat (length l2))) in *.
    set (E1 := sum_val l1) in *. set (E2 := sum_val l2) in *.
    pose proof (SFadd_nonneg FloatOps.prec FloatOps.emax prec64_gt_1
                  (Prim2SF s1) (Prim2SF s2) Hnn1 Hnn2
                  (Prim2SF_valid s1) (Prim2SF_valid s2)) as Hadd.
    rewrite eps64 in Hadd. unfold float_val in *. rewrite add_spec.
    unfold SF64add.
    set (v1 := SF2Q (Prim2SF s1)) in *. set (v2 := SF2Q (Prim2SF s2)) in *.
    destruct Hadd as [(Hnn & Hlo & Hhi)|[_ Hover]].
    + split; [done|].
      apply (tree_step E1 E2 v1 v2 _ (n1 - 1) (n2 - 1) (n1 + n2 - 1)
               (1 # 4503599627370496)); try done; try lra.
    + exfalso. pose proof big64 as Hbig.
      assert (Hc1 : (0 <= 1 + 2 * (n1 - 1) * (1 # 4503599627370496)
                     ∧ 1 + 2 * (n1 - 1) * (1 # 4503599627370496) <= 2)%Q)
        by (split; lra).
      assert (Hc2 : (0 <= 1 + 2 * (n2 - 1) * (1 # 4503599627370496)
                     ∧ 1 + 2 * (n2 - 1) * (1 # 4503599627370496) <= 2)%Q)
        by (split; lra).
      pose proof (Qmult_le_compat_nonneg _ _ _ _
                    (conj HE1 HE1') (conj (proj1 Hc1) (proj2 Hc1))) as Hp1.
      pose proof (Qmult_le_compat_nonneg _ _ _ _
                    (conj HE2 HE2') (conj (proj1 Hc2) (proj2 Hc2))) as Hp2.
      assert (Hs : (v1 + v2 <= 4294967296)%Q) by lra.
      assert (Hv0 : (0 <= v1 + v2)%Q).
      { pose proof (SF2Q_nonneg _ Hnn1). pose proof (SF2Q_nonneg _ Hnn2).
        unfold v1, v2. lra. }
      nra.
  - assert (Hall' : Forall small_float l1) by (by rewrite Hp).
    assert (Hlen' : Z.of_nat (length l1) ≤ 2 ^ 30)
      by (by rewrite (Permutation_length Hp)).
    destruct (IH Hall' Hlen') as (Hnn & Hlo & Hhi).
    rewrite <- (Permutation_length Hp), <- (sum_val_perm _ _ Hp). done.
Qed.

Lemma val_one : (float_val one == 1)%Q.
Proof. reflexivity. Qed.

(** *** The exponentials and the quotients *)

Lemma unit_float_spec (e : float) :
  (zero <=? e)%float = true → (e <=? one)%float = true → unit_float e.
Proof.
  intros H0 H1. apply leb_SF_le in H0, H1.
  pose proof val_one as Hone. unfold unit_float, float_val in *.
  change (Prim2SF zero) with (S754_zero false) in H0.
  destruct (Prim2SF e) as [s|[]| |[] m ex].
  - split; [done|]. simpl. lra.
  - done.
  - done.
  - done.
  - exfalso. unfold SF_le in H0. simpl SF2Q in H0. pose proof (pow2_pos ex).
    assert ((0 < inject_Z (Z.pos m))%Q) by done. nra.
  - split; [done|]. rewrite <- Hone.
    by destruct (Prim2SF one) as [s|[]| |[] m1 e1].
Qed.

Lemma nonneg_leb (o : float) :
  SF_nonneg (Prim2SF o) → (zero <=? o)%float = true.
Proof.
  intros Hnn. apply leb_SF_le. change (Prim2SF zero) with (S754_zero false).
  pose proof (SF2Q_nonneg _ Hnn). by destruct (Prim2SF o) as [s| | |[] m e].
Qed.

Lemma nonpos_leb (v : float) :
  SF_nonpos (Prim2SF v) → (v <=? zero)%float = true.
Proof.
  intros Hnp. apply leb_SF_le. change (Prim2SF zero) with (S754_zero false).
  destruct (Prim2SF v) as [s|[]| |[] m e]; simpl; try done.
  pose proof (pow2_pos e). assert ((0 < inject_Z (Z.pos m))%Q) by done. nra.
Qed.

Lemma sub_nonpos (v m : float) :
  SF_finite (Prim2SF m) → SF_le (Prim2SF v) (Prim2SF m) →
  SF_nonpos (Prim2SF (v - m)).
Proof.
  intros Hm Hle. rewrite sub_spec.
  apply (SFsub_nonpos FloatOps.prec FloatOps.emax prec64_gt_1);
    auto using Prim2SF_valid.
Qed.

Lemma sub_diag_zero (m : float) :
  SF_finite (Prim2SF m) → ((m - m) =? zero)%float = true.
Proof.
  intros Hm. apply eqb_zero_spec. rewrite sub_spec.
  by apply SFsub_diag.
Qed.

Lemma sub_ninf (m : float) :
  SF_finite (Prim2SF m) → (neg_infinity - m)%float = neg_infinity.
Proof.
  intros Hm. apply Prim2SF_inj. rewrite sub_spec.
  change (Prim2SF neg_infinity) with (S754_infinity true).
  by apply SFsub_ninf.
Qed.

Lemma zero_div (S : float) (mS : positive) (eS : Z) :
  Prim2SF S = S754_finite false mS eS → (zero / S)%float = zero.
Proof.
  intros HS. apply Prim2SF_inj. rewrite div_spec, HS. done.
Qed.

Lemma sum_val_elem (l : list float) (e : float) :
  Forall unit_float l → e ∈ l → (float_val e <= sum_val l)%Q.
Proof.
  induction 1 as [|a l [Hnn _] Hall IH]; intros Hin.
  - by apply elem_of_nil in Hin.
  - pose proof (SF2Q_nonneg _ Hnn) as Ha. fold (float_val a) in Ha.
    destruct (sum_val_bounds l (Forall_impl _ _ _ Hall unit_small)) as [Hl _].
    simpl.
    apply elem_of_cons in Hin as [->|Hin]; [lra|]. specialize (IH Hin). lra.
Qed.

(** Dividing numbers between 0 and 1 by a number that is at least 3/4:
    the quotients are finite numbers between 0 and 2, and their values
    add up to the exact quotient of the sum, up to 2^-52 of it and the
    smallest positive float for every term. *)
Lemma div_sum_bounds (d : float) (mS : positive) (eS : Z) (l : list float) :
  Prim2SF d = S754_finite false mS eS →
  (3 # 4 <= float_val d)%Q →
  Forall unit_float l →
  Forall small_float ((fun e => (e / d)%float) <$> l) ∧
  (sum_val l / float_val d * (1 - (1 # 4503599627370496))
   - inject_Z (Z.of_nat (length l))
     * 2 ^ SpecFloat.emin FloatOps.prec FloatOps.emax
   <= sum_val ((fun e => (e / d)%float) <$> l))%Q ∧
  (sum_val ((fun e => (e / d)%float) <$> l)
   <= sum_val l / float_val d * (1 + (1 # 4503599627370496))
      + inject_Z (Z.of_nat (length l))
        * 2 ^ SpecFloat.emin FloatOps.prec FloatOps.emax)%Q.
Proof.
  intros HS HvS. destruct eta64 as [Heta0 Heta].
  set (eta := (2 ^ SpecFloat.emin FloatOps.prec FloatOps.emax)%Q) in *.
  induction 1 as [|e l [Hnn Hle] Hall (IHnn & IHlo & IHhi)].
  - split; [done|]. simpl. unfold Qdiv. rewrite !Qmult_0_l. split; lra.
  - cbn [fmap list_fmap sum_val length].
    pose proof (SFdiv_nonneg FloatOps.prec FloatOps.emax prec64_gt_1
                  (Prim2SF e) mS eS Hnn) as Hdiv.
    cbv zeta in Hdiv. rewrite eps64 in Hdiv. fold eta in Hdiv.
    rewrite <- HS in Hdiv.
    change (SFdiv FloatOps.prec FloatOps.emax (Prim2SF e) (Prim2SF d))
      with (SF64div (Prim2SF e) (Prim2SF d)) in Hdiv.
    rewrite <- div_spec in Hdiv.
    fold (float_val e) (float_val d) (float_val (e / d)) in Hdiv.
    pose proof (SF2Q_nonneg _ Hnn) as He0. fold (float_val e) in He0.
    assert (HvS0 : (0 < float_val d)%Q) by lra.
    assert (Hx0 : (0 <= float_val e / float_val d)%Q).
    { apply Qle_shift_div_l; [done|]. lra. }
    assert (Hx2 : (float_val e / float_val d <= 4 # 3)%Q).
    { apply Qle_shift_div_r; [done|]. lra. }
    assert (Hsplit : ((float_val e + sum_val l) / float_val d
                      == float_val e / float_val d
                         + sum_val l / float_val d)%Q).
    { unfold Qdiv. ring. }
    rewrite Hsplit, Nat2Z.inj_succ, <- Z.add_1_r, inject_Z_plus.
    change (inject_Z 1) with 1%Q.
    set (x := (float_val e / float_val d)%Q) in *.
    set (T := (sum_val l / float_val d)%Q) in *.
    destruct Hdiv as [(Hnn' & Hlo & Hhi)|[_ Hover]].
    + split; [|split; lra]. constructor; [|done]. split; [done|]. lra.
    + exfalso. pose proof big64. lra.
Qed.

(** *** The rows *)

Lemma add_nan_l (s : float) : (nan + s)%float = nan.
Proof. apply Prim2SF_inj. rewrite add_spec. done. Qed.

Lemma add_nan_r (s : float) : (s + nan)%float = nan.
Proof.
  apply Prim2SF_inj. rewrite add_spec. change (Prim2SF nan) with S754_nan.
  by destruct (Prim2SF s) as [|[]| |].
Qed.

Lemma adds_to_nan (l : list float) (s : float) :
  adds_to l s → Forall (fun v => v = nan) l → l ≠ [] → s = nan.
Proof.
  induction 1 as [|a|l1 l2 s1 s2 _ IH1 _ IH2|l1 l2 s Hp _ IH];
    intros Hall Hne.
  - done.
  - by apply Forall_inv in Hall.
  - apply Forall_app in Hall as [Hall1 Hall2].
    destruct (decide (l1 = [])) as [->|Hne1].
    + rewrite (IH2 Hall2) by done. apply add_nan_r.
    + rewrite (IH1 Hall1) by done. apply add_nan_l.
  - apply IH; [by rewrite Hp|]. intros ->.
    by apply Permutation_nil_l in Hp.
Qed.

Lemma foldl_np_maximum_ninf (n : nat) :
  foldl np_maximum neg_infinity (replicate n neg_infinity) = neg_infinity.
Proof. induction n as [|n IH]; [done|]. simpl. exact IH. Qed.

Lemma Forall_eq_replicate {A} (x : A) (l : list A) :
  Forall (fun v => v = x) l → l = replicate (length l) x.
Proof. induction 1 as [|a l -> _ IH]; [done|]. simpl. by rewrite <- IH. Qed.

(** A row of minus infinities only: the maximum is minus infinity, every
    difference is a NaN, and so is every output. *)
Lemma softmax_all_ninf (np_exp : float → float) (np_sum : list float → float)
    (x : list float) :
  exp_ok np_exp → sum_ok np_sum →
  x ≠ [] → Forall (fun v => v = neg_infinity) x →
  softmax np_exp np_sum x = Ok (replicate (length x) nan).
Proof.
  intros (_ & Hnan & _) Hsum Hne Hall.
  rewrite (Forall_eq_replicate _ _ Hall). rewrite length_replicate.
  destruct (length x) as [|n] eqn:Hlen; [by destruct x|].
  unfold softmax. cbn [replicate np_max mbind res_bind].
  rewrite foldl_np_maximum_ninf.
  change (neg_infinity :: replicate n neg_infinity)
    with (replicate (S n) neg_infinity).
  rewrite fmap_replicate.
  change (neg_infinity - neg_infinity)%float with nan. rewrite Hnan.
  rewrite (adds_to_nan _ _ (Hsum (replicate (S n) nan))).
  - by rewrite fmap_replicate.
  - by apply Forall_replicate.
  - done.
Qed.

(** A row without NaN and plus infinity that has a finite entry, of at
    most 2^30 entries. *)
Lemma softmax_finite_max (np_exp : float → float)
    (np_sum : list float → float) (x : list float) :
  exp_ok np_exp → sum_ok np_sum →
  Forall (fun v => (v <? infinity)%float = true) x →
  Exists (fun v => is_finite v = true) x →
  Z.of_nat (length x) ≤ 2 ^ 30 →
  ∃ out,
    softmax np_exp np_sum x = Ok out ∧
    length out = length x ∧
    Forall (fun o => (zero <=? o)%float = true) out ∧
    (Qabs (sum_val out - 1) <= 1 # 1000000)%Q ∧
    (Qabs (float_val (np_sum out) - 1) <= 1 # 1000000)%Q ∧
    ∀ i, x !! i = Some neg_infinity → out !! i = Some zero.
Proof.
  intros (Hninf & _ & Hzero & Hnonpos) Hsum Hall Hex Hlen.
  destruct x as [|a l]; [by apply Exists_nil in Hex|].
  assert (Hnn : Forall (fun v => is_nan v = false) (a :: l)).
  { eapply Forall_impl; [exact Hall|]. intros v Hv. apply is_nan_false.
    apply ltb_infinity_spec in Hv as [->|Hf]; [done|].
    by destruct (Prim2SF v). }
  destruct (foldl_np_maximum l a Hnn) as [Hin Hmax].
  unfold softmax. cbn [np_max mbind res_bind].
  set (m := foldl np_maximum a l) in *.
  assert (Hm : SF_finite (Prim2SF m)).
  { apply Exists_exists in Hex as (f & Hf & Hfin).
    apply is_finite_spec in Hfin.
    rewrite Forall_forall in Hmax, Hall.
    specialize (Hmax f Hf). specialize (Hall m Hin).
    apply ltb_infinity_spec in Hall as [Hm|Hm]; [|done].
    rewrite Hm in Hmax. by destruct (Prim2SF f) as [|[]| |]. }
  set (e_x := (fun v => np_exp (v - m)%float) <$> (a :: l)).
  assert (Hunit : Forall unit_float e_x).
  { apply Forall_fmap. eapply Forall_impl; [exact Hmax|]. intros v Hv. simpl.
    destruct (Hnonpos (v - m)%float) as [H0 H1].
    - by apply nonpos_leb, sub_nonpos.
    - by apply unit_float_spec. }
  assert (Hone : one ∈ e_x).
  { apply list_elem_of_fmap. exists m. split; [|done].
    symmetry. apply Hzero. by apply sub_diag_zero. }
  assert (HE : (1 <= sum_val e_x)%Q).
  { rewrite <- val_one. by apply sum_val_elem. }
  assert (Hlen_e : length e_x = length (a :: l)) by apply length_fmap.
  destruct (adds_to_bounds e_x (np_sum e_x) (Hsum e_x)
              (Forall_impl _ _ _ Hunit unit_small))
    as (HnnS & HloS & HhiS); [by rewrite Hlen_e|].
  destruct (length_Q _ e_x ltac:(by rewrite Hlen_e)) as [Hn0 HnN].
  set (d := np_sum e_x) in *.
  assert (Hk : (inject_Z (Z.of_nat (length e_x) - 1)
                == inject_Z (Z.of_nat (length e_x)) - 1)%Q).
  { unfold Z.sub. rewrite inject_Z_plus. done. }
  rewrite Hk in HloS, HhiS.
  assert (Hn1 : (1 <= inject_Z (Z.of_nat (length e_x)))%Q).
  { change 1%Q with (inject_Z 1). rewrite <- Zle_Qle, Hlen_e. simpl. lia. }
  set (n := inject_Z (Z.of_nat (length e_x))) in *.
  set (E := sum_val e_x) in *.
  assert (Hvd : (3 # 4 <= float_val d)%Q) by nra.
  assert (Hd : ∃ mS eS, Prim2SF d = S754_finite false mS eS).
  { revert HnnS Hvd. unfold float_val.
    destruct (Prim2SF d) as [s|s| |[] mS eS]; intros HnnS Hvd; try done.
    eauto. }
  destruct Hd as (mS & eS & Hd).
  destruct (div_sum_bounds d mS eS e_x Hd Hvd Hunit) as (Hsmall & Hlo & Hhi).
  fold n E in Hlo, Hhi.
  set (out := (fun e => (e / d)%float) <$> e_x) in *.
  assert (Hlen_o : length out = length e_x) by apply length_fmap.
  assert (HP : (- (1 # 2000000) <= sum_val out - 1 ∧
                sum_val out - 1 <= 1 # 2000000)%Q).
  { destruct eta64 as [Heta0 Heta].
    set (eta := (2 ^ SpecFloat.emin FloatOps.prec FloatOps.emax)%Q) in *.
    assert (Hvd0 : (0 < float_val d)%Q) by lra.
    assert (Ht0 : (0 <= E / float_val d)%Q).
    { apply Qle_shift_div_l; [done|]. lra. }
    assert (Ht1 : (E / float_val d * (1 - (n - 1) * (1 # 4503599627370496))
                   <= 1)%Q).
    { assert (Hr : (E / float_val d * (1 - (n - 1) * (1 # 4503599627370496))
                    == (E * (1 - (n - 1) * (1 # 4503599627370496)))
                       / float_val d)%Q) by (unfold Qdiv; ring).
      rewrite Hr. apply Qle_shift_div_r; [done|]. lra. }
    assert (Ht2 : (1 <= E / float_val d
                        * (1 + 2 * (n - 1) * (1 # 4503599627370496)))%Q).
    { assert (Hr : (E / float_val d
                    * (1 + 2 * (n - 1) * (1 # 4503599627370496))
                    == (E * (1 + 2 * (n - 1) * (1 # 4503599627370496)))
                       / float_val d)%Q) by (unfold Qdiv; ring).
      rewrite Hr. apply Qle_shift_div_l; [done|]. lra. }
    apply (final_bound (E / float_val d) _ (1 # 4503599627370496) eta n (n - 1));
      try done; try lra; try nra. }
  exists out.
  split; [done|]. split; [by rewrite Hlen_o|].
  split; [|split; [|split]].
  - eapply Forall_impl; [exact Hsmall|]. intros o [Ho _]. by apply nonneg_leb.
  - apply Qabs_Qle_condition. split; lra.
  - apply Qabs_Qle_condition.
    destruct (adds_to_bounds out (np_sum out) (Hsum out) Hsmall)
      as (_ & Hlo' & Hhi'); [by rewrite Hlen_o, Hlen_e|].
    rewrite Hlen_o, Hk in Hlo', Hhi'. fold n in Hlo', Hhi'.
    apply (final_bound_sum (sum_val out) _ (1 # 4503599627370496) n (n - 1));
      try done; try lra.
  - intros i Hi.
    unfold out, e_x at 1. rewrite !list_lookup_fmap, Hi. simpl.
    rewrite (sub_ninf m Hm), Hninf, (zero_div d mS eS Hd). done.
Qed.

(** A non-empty row of finite numbers is such a row. *)
Lemma finite_row (x : list float) :
  x ≠ [] → Forall (fun v => is_finite v = true) x →
  Forall (fun v => (v <? infinity)%float = true) x ∧
  Exists (fun v => is_finite v = true) x.
Proof.
  intros Hne Hall. split.
  - eapply Forall_impl; [exact Hall|]. intros v Hv.
    apply ltb_infinity_spec. right. by apply is_finite_spec.
  - destruct Hall as [|a l Ha _]; [done|]. by apply Exists_cons_hd.
Qed.


(** *** Runs with the stand-ins *)

Lemma coarse_exp_ok : exp_ok coarse_exp.
Proof.
  split; [done|]. split; [done|]. split.
  - intros v Hv. unfold coarse_exp. rewrite Hv.
    apply eqb_zero_spec in Hv as [s Hv].
    assert (Hn : is_nan v = false) by (apply is_nan_false; by rewrite Hv).
    by rewrite Hn.
  - intros v Hv. unfold coarse_exp.
    destruct (is_nan v) eqn:Hn.
    { apply is_nan_spec in Hn. apply leb_SF_le in Hv. by rewrite Hn in Hv. }
    destruct (v =? zero)%float eqn:Hz; [done|].
    destruct (v <? zero)%float eqn:Hl.
    { by destruct (v =? neg_infinity)%float. }
    exfalso. rewrite leb_spec in Hv. rewrite FloatAxioms.eqb_spec in Hz.
    rewrite ltb_spec in Hl. unfold SFleb, SFeqb, SFltb in *.
    by destruct (SFcompare (Prim2SF v) (Prim2SF zero)) as [[]|].
Qed.

Lemma adds_to_foldl (l0 l : list float) (s : float) :
  adds_to l0 s → adds_to (l0 ++ l) (foldl add s l).
Proof.
  revert l0 s. induction l as [|a l IH]; intros l0 s Hs.
  - by rewrite app_nil_r.
  - simpl. rewrite (cons_middle a l0 l), app_assoc. apply IH.
    apply adds_app; [done|apply adds_one].
Qed.

Lemma left_sum_ok : sum_ok left_sum.
Proof. intros l. apply (adds_to_foldl [] l zero adds_nil). Qed.


Example softmax_empty_row :
  softmax coarse_exp left_sum [] = Err ValueError.
Proof. reflexivity. Qed.

Example softmax_mixed_row :
  softmax coarse_exp left_sum [zero; neg_infinity; (- one)%float]
  = Ok [(one / (one + one / two))%float; zero;
        (one / two / (one + one / two))%float].
Proof. reflexivity. Qed.


(** ** The decoding loop *)

Section decoding_facts.
Context {prob U : Type}.
Context (compiled_model : list Z → list Z → res tensor).
Context (softmax : list score → list prob).
Context (random_choice : nat → list prob → res (U → Z)).

Abbreviation step := (sample_next compiled_model softmax random_choice).
Abbreviation gen := (generate_sequence compiled_model softmax random_choice).

Implicit Types (ids mask : list Z) (w : world U).

Lemma bind_unfold {A B} (m : M U A) (f : A → M U B) w :
  (m ≫= f) w =
  match m w with
  | (Ret a, w') => f a w'
  | (Raise e, w') => (Raise e, w')
  | (OutOfFuel, w') => (OutOfFuel, w')
  end.
Proof. reflexivity. Qed.

Lemma generate_sequence_unfold fuel ids mask max eos dyn w :
  gen (S fuel) ids mask max eos dyn w =
  match step ids mask max eos dyn w with
  | (Ret t, w') =>
    if bool_decide (Z.of_nat (length ids) = max) || bool_decide (t = eos)
    then (Ret ids, w')
    else gen fuel (ids ++ [t]) (mask ++ [1]) max eos dyn w'
  | (Raise e, w') => (Raise e, w')
  | (OutOfFuel, w') => (OutOfFuel, w')
  end.
Proof.
  simpl. rewrite bind_unfold.
  destruct (step ids mask max eos dyn w) as [[t|e|] w']; try done.
  by destruct (bool_decide (Z.of_nat (length ids) = max) || bool_decide (t = eos)).
Qed.

Lemma stop_condition ids (max t eos : Z) :
  bool_decide (Z.of_nat (length ids) = max) || bool_decide (t = eos) = true
  ↔ Z.of_nat (length ids) = max ∨ t = eos.
Proof.
  rewrite orb_true_iff, !bool_decide_eq_true. done.
Qed.

(** What a returning run looks like: the result extends the input by the
    sampled tokens, none of which is the eos id; the run ended in a step
    whose length test or eos test held; a run that starts within the
    cap stays within it. *)
Lemma generate_sequence_returns fuel ids mask max eos dyn w out w' :
  gen fuel ids mask max eos dyn w = (Ret out, w') →
  ∃ toks w0 t,
    out = ids ++ toks ∧
    Forall (fun x => x ≠ eos) toks ∧
    step out (mask ++ replicate (length toks) 1) max eos dyn w0 = (Ret t, w') ∧
    (Z.of_nat (length out) = max ∨ t = eos) ∧
    (Z.of_nat (length ids) ≤ max → Z.of_nat (length out) ≤ max).
Proof.
  revert ids mask w. induction fuel as [|fuel IH]; intros ids mask w Hrun.
  - discriminate.
  - rewrite generate_sequence_unfold in Hrun.
    destruct (step ids mask max eos dyn w) as [[t|e|] w1] eqn:Hstep;
      try discriminate.
    destruct (bool_decide (Z.of_nat (length ids) = max) || bool_decide (t = eos))
      eqn:Hstop.
    + injection Hrun as <- <-. apply stop_condition in Hstop.
      exists [], w, t. simpl. rewrite !app_nil_r. auto.
    + apply IH in Hrun as (toks & w0 & t' & -> & Hall & Hlast & Hwhy & Hcap).
      assert (Hno : ¬ (Z.of_nat (length ids) = max ∨ t = eos)).
      { intros Hc. apply stop_condition in Hc. congruence. }
      exists (t :: toks), w0, t'.
      rewrite <- !app_assoc in *. simpl in *.
      split; [done|]. split; [constructor; tauto|].
      split; [done|]. split; [done|].
      intros Hle. apply Hcap. rewrite length_app. simpl. lia.
Qed.

Lemma py_getitem_row (outputs : tensor) (n : nat) :
  (0 < n ≤ length outputs)%nat → Forall (fun row => row ≠ []) outputs →
  ∃ row, py_getitem outputs (Z.of_nat n - 1) = Ok row ∧ row ≠ [].
Proof.
  intros Hn Hrows. unfold py_getitem, py_index.
  rewrite decide_True by lia. simpl.
  destruct (lookup_lt_is_Some_2 outputs (Z.to_nat (Z.of_nat n - 1)))
    as [row Hrow]; [lia|].
  exists row. rewrite Hrow. split; [done|].
  by eapply Forall_lookup_1 in Hrows.
Qed.

(** With a model that always answers and a sampler that accepts every
    distribution, the sampling step of a non-empty sequence yields a
    token. *)
Lemma step_succeeds ids mask max eos dyn w :
  ids ≠ [] → model_total compiled_model → sampler_total random_choice →
  ∃ t w', step ids mask max eos dyn w = (Ret t, w').
Proof.
  intros Hne Hmodel Hchoice.
  unfold sample_next. cbv zeta.
  set (inputs := if negb dyn then _ else _).
  assert (Hlen : (length ids ≤ length inputs.1)%nat).
  { unfold inputs. destruct dyn; simpl; [lia|]. rewrite length_app. lia. }
  destruct (Hmodel inputs.1 inputs.2) as (outputs & Hout & Hrows_len & Hrows).
  rewrite bind_unfold. unfold call_model. rewrite Hout.
  assert (0 < length ids)%nat by (destruct ids; [done | simpl; lia]).
  destruct (py_getitem_row outputs (length ids)) as (row & Hrow & Hrne);
    [lia | done |].
  rewrite bind_unfold, Hrow. simpl.
  rewrite bind_unfold. unfold process_logits.
  rewrite decide_False by lia. simpl.
  destruct (get_top_k_logits_threshold row 20 Hrne) as (thr & _ & Htop).
  rewrite bind_unfold, Htop. simpl.
  destruct (Hchoice (length (softmax (below_to_ninf thr <$> row)))
              (softmax (below_to_ninf thr <$> row))) as (pick & Hpick).
  rewrite bind_unfold, Hpick. simpl. eauto.
Qed.

(** C1. The termination check comes before the append.  Whenever the
    sampling step of an iteration yields a token: if the current length
    equals [max_sequence_length] or the token is the eos id, the loop
    stops and returns the sequence without the token; otherwise the token
    is appended and the loop goes on.  In particular a call whose
    [max_sequence_length] is the prompt length returns the prompt
    unchanged, and it does return when the prompt is not empty, the model
    always answers and the sampler accepts every distribution.  Over a
    whole run: the result is the prompt followed by
    sampled tokens, none of them the eos id, and a prompt within the cap
    is never extended past it. *)
Theorem termination_check_before_append fuel ids mask max eos dyn w t w' :
  sample_next compiled_model softmax random_choice ids mask max eos dyn w
  = (Ret t, w') →
  (Z.of_nat (length ids) = max ∨ t = eos →
     generate_sequence compiled_model softmax random_choice
       (S fuel) ids mask max eos dyn w
     = (Ret ids, w')) ∧
  (Z.of_nat (length ids) ≠ max → t ≠ eos →
     generate_sequence compiled_model softmax random_choice
       (S fuel) ids mask max eos dyn w
     = generate_sequence compiled_model softmax random_choice
         fuel (ids ++ [t]) (mask ++ [1]) max eos dyn w') ∧
  (Z.of_nat (length ids) = max →
     generate_sequence compiled_model softmax random_choice
       (S fuel) ids mask max eos dyn w
     = (Ret ids, w')) ∧
  (ids ≠ [] → model_total compiled_model → sampler_total random_choice →
   ∃ w'',
     generate_sequence compiled_model softmax random_choice
       (S fuel) ids mask (Z.of_nat (length ids)) eos dyn w
     = (Ret ids, w'')) ∧
  (∀ n out w2,
     generate_sequence compiled_model softmax random_choice
       n ids mask max eos dyn w
     = (Ret out, w2) →
     ∃ toks, out = ids ++ toks ∧ Forall (fun x => x ≠ eos) toks ∧
             (Z.of_nat (length ids) ≤ max → Z.of_nat (length out) ≤ max)).
Proof.
  intros Hstep.
  assert (Hstop : Z.of_nat (length ids) = max ∨ t = eos →
                  gen (S fuel) ids mask max eos dyn w = (Ret ids, w')).
  { intros Hc. rewrite generate_sequence_unfold, Hstep.
    apply stop_condition in Hc. by rewrite Hc. }
  split; [done|]. split; [|split; [|split]].
  - intros Hlen Htok. rewrite generate_sequence_unfold, Hstep.
    destruct (bool_decide (Z.of_nat (length ids) = max) || bool_decide (t = eos))
      eqn:Hc; [|done].
    apply stop_condition in Hc. tauto.
  - auto.
  - intros Hne Hmodel Hchoice.
    destruct (step_succeeds ids mask (Z.of_nat (length ids)) eos dyn w)
      as (t0 & w0 & Hstep0); [done..|].
    exists w0. rewrite generate_sequence_unfold, Hstep0.
    by rewrite bool_decide_eq_true_2 by done.
  - intros n out w2 Hrun.
    apply generate_sequence_returns in Hrun
      as (toks & _ & _ & -> & Hall & _ & _ & Hcap).
    eauto.
Qed.

(** *** Calls to the model *)

Lemma step_first_call ids mask max eos dyn w :
  let inputs :=
    if negb dyn then
      (ids ++ replicate (Z.to_nat (max - Z.of_nat (length ids))) eos,
       mask ++ replicate (Z.to_nat (max - Z.of_nat (length ids))) 0)
    else (ids, mask) in
  port_calls (step ids mask max eos dyn w).2 = port_calls w ++ [inputs].
Proof.
  intros inputs. unfold sample_next. cbv zeta. fold inputs.
  rewrite bind_unfold. unfold call_model.
  destruct (compiled_model inputs.1 inputs.2) as [outputs|e];
    [|by destruct inputs].
  rewrite bind_unfold.
  destruct (py_getitem outputs _) as [logits|e]; simpl; [|by destruct inputs].
  rewrite bind_unfold.
  destruct (process_logits _ logits eos 0) as [sc|e]; simpl;
    [|by destruct inputs].
  rewrite bind_unfold.
  destruct (get_top_k_logits sc 20) as [sc'|e]; simpl; [|by destruct inputs].
  rewrite bind_unfold.
  destruct (random_choice _ _) as [pick|e]; simpl; by destruct inputs.
Qed.

Lemma generate_sequence_calls fuel ids mask max eos dyn w :
  ∃ rest, port_calls (gen fuel ids mask max eos dyn w).2 = port_calls w ++ rest.
Proof.
  revert ids mask w. induction fuel as [|fuel IH]; intros ids mask w.
  - exists []. simpl. by rewrite app_nil_r.
  - rewrite generate_sequence_unfold.
    pose proof (step_first_call ids mask max eos dyn w) as Hcall.
    cbv zeta in Hcall.
    destruct (step ids mask max eos dyn w) as [[t|e|] w1]; simpl in Hcall;
      try (eexists; exact Hcall).
    destruct (bool_decide _ || bool_decide _); [eexists; exact Hcall|].
    destruct (IH (ids ++ [t]) (mask ++ [1]) w1) as [rest Hrest].
    rewrite Hrest, Hcall, <- app_assoc. eauto.
Qed.

(** C5 (as the code behaves). [generate_sequence] has no emptiness check:
    called with a zero-length token sequence it enters the first
    iteration and calls the model, on the empty sequence or, without
    dynamic shapes, on [max_sequence_length] paddings; an error of the
    model is propagated as it is, and otherwise the logits row is read
    at the Python index -1, the last position the model returned. *)
Theorem empty_input_reaches_model fuel mask (max eos : Z) (dyn : bool) w :
  let inputs :=
    if dyn then (@nil Z, mask)
    else (replicate (Z.to_nat max) eos, mask ++ replicate (Z.to_nat max) 0) in
  let w1 := World (rng w) (port_calls w ++ [inputs]) in
  (∃ rest, port_calls (generate_sequence compiled_model softmax random_choice
                         (S fuel) [] mask max eos dyn w).2
           = port_calls w ++ inputs :: rest) ∧
  match compiled_model inputs.1 inputs.2 with
  | Err e =>
    generate_sequence compiled_model softmax random_choice
      (S fuel) [] mask max eos dyn w
    = (Raise e, w1)
  | Ok outputs =>
    sample_next compiled_model softmax random_choice [] mask max eos dyn w =
    (next_token_logits ← lift (py_getitem outputs (-1));
     next_token_scores ← lift (process_logits 0 next_token_logits eos 0);
     next_token_scores ← lift (get_top_k_logits next_token_scores 20);
     pick ← lift (random_choice (length (softmax next_token_scores))
                    (softmax next_token_scores));
     u ← draw;
     mret (pick u)) w1
  end.
Proof.
  intros inputs w1.
  assert (Hin : (if negb dyn then
                   ([] ++ replicate (Z.to_nat (max - Z.of_nat (length (@nil Z)))) eos,
                    mask ++ replicate (Z.to_nat (max - Z.of_nat (length (@nil Z)))) 0)
                 else ([], mask)) = inputs).
  { unfold inputs. destruct dyn; simpl; [done|]. by rewrite Z.sub_0_r. }
  assert (Hstep : step [] mask max eos dyn w =
    match compiled_model inputs.1 inputs.2 with
    | Err e => (Raise e, w1)
    | Ok outputs =>
      (next_token_logits ← lift (py_getitem outputs (-1));
       next_token_scores ← lift (process_logits 0 next_token_logits eos 0);
       next_token_scores ← lift (get_top_k_logits next_token_scores 20);
       pick ← lift (random_choice (length (softmax next_token_scores))
                      (softmax next_token_scores));
       u ← draw;
       mret (pick u)) w1
    end).
  { unfold sample_next. cbv zeta. rewrite Hin.
    rewrite bind_unfold. unfold call_model. subst w1. clearbody inputs.
    destruct inputs as [i1 i2]. simpl.
    by destruct (compiled_model i1 i2). }
  split.
  - pose proof (step_first_call [] mask max eos dyn w) as Hcall.
    cbv zeta in Hcall. rewrite Hin in Hcall.
    rewrite generate_sequence_unfold.
    destruct (step [] mask max eos dyn w) as [[t|e|] w2]; simpl in Hcall;
      try (exists []; exact Hcall).
    destruct (bool_decide _ || bool_decide _); [exists []; exact Hcall|].
    destruct (generate_sequence_calls fuel ([] ++ [t]) (mask ++ [1])
                max eos dyn w2) as [rest Hrest].
    exists rest. rewrite Hrest, Hcall, <- app_assoc. done.
  - destruct (compiled_model inputs.1 inputs.2) as [outputs|e] eqn:Hm;
      [done|].
    by rewrite generate_sequence_unfold, Hstep.
Qed.

(** *** The random source *)

Lemma respects_ret {A} (a : A) : respects (mret a : M U A).
Proof. intros w1 w2 Hw. done. Qed.

Lemma respects_lift {A} (r : res A) : respects (lift r : M U A).
Proof. intros w1 w2 Hw. by destruct r. Qed.

Lemma respects_out_of_fuel {A} : respects (@out_of_fuel U A).
Proof. intros w1 w2 Hw. done. Qed.

Lemma respects_draw : respects (draw : M U U).
Proof.
  intros w1 w2 Hr. unfold draw. simpl. split; [by rewrite Hr|].
  intros n. apply Hr.
Qed.

(** The answer of the model does not depend on the calls made before. *)
Lemma respects_call_model ids mask :
  respects (call_model compiled_model ids mask : M U tensor).
Proof.
  intros w1 w2 Hr. unfold call_model.
  destruct (compiled_model ids mask); simpl; (split; [done|]);
    intros n; apply Hr.
Qed.

Lemma respects_bind {A B} (m : M U A) (f : A → M U B) :
  respects m → (∀ a, respects (f a)) → respects (m ≫= f).
Proof.
  intros Hm Hf w1 w2 Hw. rewrite !bind_unfold.
  destruct (Hm w1 w2 Hw) as [Hout Hw'].
  destruct (m w1) as [o1 w1'], (m w2) as [o2 w2']. simpl in *. subst o2.
  destruct o1 as [a|e|]; [by apply Hf | done | done].
Qed.

Lemma respects_step ids mask max eos dyn :
  respects (step ids mask max eos dyn).
Proof.
  unfold sample_next. cbv zeta.
  repeat (apply respects_bind; [|intros ?]);
    auto using respects_call_model, respects_lift, respects_draw, respects_ret.
Qed.

Lemma respects_generate fuel ids mask max eos dyn :
  respects (gen fuel ids mask max eos dyn).
Proof.
  revert ids mask. induction fuel as [|fuel IH]; intros ids mask.
  - apply respects_out_of_fuel.
  - simpl. apply respects_bind; [apply respects_step|]. intros t.
    destruct (bool_decide _ || bool_decide _);
      [apply respects_ret | apply IH].
Qed.

(** C9. With the same model and the same sequence of uniform draws, two
    calls of [generate_sequence] on the same ids, mask and configuration
    have the same outcome: the same token sequence when they return, the
    same exception when they raise, and neither returns within the bound
    when one does not.  The two calls may start after different histories
    of model calls; only the draws to come are the same.  The draws they
    leave are the same again. *)
Theorem generate_deterministic fuel ids mask max eos dyn w1 w2 :
  same_draws w1 w2 →
  (generate_sequence compiled_model softmax random_choice
     fuel ids mask max eos dyn w1).1
  = (generate_sequence compiled_model softmax random_choice
       fuel ids mask max eos dyn w2).1 ∧
  same_draws
    (generate_sequence compiled_model softmax random_choice
       fuel ids mask max eos dyn w1).2
    (generate_sequence compiled_model softmax random_choice
       fuel ids mask max eos dyn w2).2.
Proof. apply respects_generate. Qed.

(** *** Prompts longer than the cap *)

(** The length test is an equality: a prompt already longer than
    [max_sequence_length] never meets it, and a returning run ended by
    sampling the eos id. *)
Lemma over_cap_returns_on_eos fuel ids mask max eos dyn w out w' :
  max < Z.of_nat (length ids) →
  gen fuel ids mask max eos dyn w = (Ret out, w') →
  ∃ toks w0,
    out = ids ++ toks ∧
    Z.of_nat (length out) ≠ max ∧
    step out (mask ++ replicate (length toks) 1) max eos dyn w0 = (Ret eos, w').
Proof.
  intros Hlong Hrun.
  apply generate_sequence_returns in Hrun
    as (toks & w0 & t & -> & _ & Hlast & Hwhy & _).
  assert (Z.of_nat (length (ids ++ toks)) ≠ max)
    by (rewrite length_app; lia).
  exists toks, w0. destruct Hwhy as [?| ->]; done.
Qed.

Lemma step_samples ids mask max eos dyn w t w' :
  step ids mask max eos dyn w = (Ret t, w') →
  ∃ a p pick u, random_choice a p = Ok pick ∧ t = pick u.
Proof.
  unfold sample_next. cbv zeta. rewrite bind_unfold.
  destruct (call_model _ _ _ w) as [[outputs|e|] w1]; try done.
  rewrite bind_unfold.
  destruct (lift (py_getitem outputs _) w1) as [[logits|e|] w2]; try done.
  rewrite bind_unfold.
  destruct (lift (process_logits _ logits eos 0) w2) as [[sc|e|] w3]; try done.
  rewrite bind_unfold.
  destruct (lift (get_top_k_logits sc 20) w3) as [[sc'|e|] w4]; try done.
  rewrite bind_unfold.
  destruct (random_choice _ _) as [pick|e] eqn:Hpick; simpl; [|done].
  intros [= <- <-]. eexists _, _, pick, (rng w4 0%nat). split; [exact Hpick|done].
Qed.

Lemma over_cap_never_returns fuel ids mask max eos dyn w :
  max < Z.of_nat (length ids) →
  (∀ a p pick u, random_choice a p = Ok pick → pick u ≠ eos) →
  ∀ out w', gen fuel ids mask max eos dyn w ≠ (Ret out, w').
Proof.
  intros Hlong Hnever out w' Hrun.
  apply over_cap_returns_on_eos in Hrun as (toks & w0 & _ & _ & Hlast);
    [|done].
  apply step_samples in Hlast as (a & p & pick & u & Hpick & Heos).
  by apply (Hnever a p pick u).
Qed.

Lemma never_yields_total eos :
  never_yields random_choice eos → sampler_total random_choice.
Proof. intros H a p. destruct (H a p) as (pick & Hpick & _). eauto. Qed.

(** Past the cap, with a model that always answers and a sampler that
    never yields the eos id, every iteration appends a token. *)
Lemma over_cap_step ids mask max eos dyn w :
  ids ≠ [] →
  model_total compiled_model → never_yields random_choice eos →
  ∃ t w', step ids mask max eos dyn w = (Ret t, w') ∧ t ≠ eos.
Proof.
  intros Hne Hmodel Hchoice.
  destruct (step_succeeds ids mask max eos dyn w) as (t & w' & Hstep);
    [done | done | by eapply never_yields_total |].
  exists t, w'. split; [done|].
  apply step_samples in Hstep as (a & p & pick & u & Hpick & ->).
  destruct (Hchoice a p) as (pick' & Hpick' & Hno).
  rewrite Hpick in Hpick'. injection Hpick' as <-. apply Hno.
Qed.

(** A prompt within the cap is answered after at most
    [max_sequence_length - len + 1] iterations. *)
Lemma within_cap_returns (gap : nat) ids mask max eos dyn w :
  ids ≠ [] → model_total compiled_model → sampler_total random_choice →
  Z.of_nat (length ids) + Z.of_nat gap = max →
  ∃ out w', gen (S gap) ids mask max eos dyn w = (Ret out, w').
Proof.
  intros Hne Hmodel Hchoice.
  revert ids mask w Hne. induction gap as [|gap IH]; intros ids mask w Hne Hgap.
  - destruct (step_succeeds ids mask max eos dyn w) as (t & w' & Hstep);
      [done..|].
    exists ids, w'. rewrite generate_sequence_unfold, Hstep.
    by rewrite bool_decide_eq_true_2 by lia.
  - destruct (step_succeeds ids mask max eos dyn w) as (t & w' & Hstep);
      [done..|].
    rewrite generate_sequence_unfold, Hstep.
    destruct (bool_decide _ || bool_decide _); [by eauto|].
    apply IH; [by destruct ids|].
    rewrite length_app. simpl. lia.
Qed.

(** More fuel does not change the outcome of a run that ended. *)
Lemma generate_sequence_more_fuel (n m : nat) ids mask max eos dyn w r w' :
  gen n ids mask max eos dyn w = (r, w') → r ≠ OutOfFuel → (n ≤ m)%nat →
  gen m ids mask max eos dyn w = (r, w').
Proof.
  revert m ids mask w. induction n as [|n IH]; intros m ids mask w Hrun Hr Hnm.
  - simpl in Hrun. injection Hrun as <- _. done.
  - destruct m as [|m]; [lia|].
    rewrite generate_sequence_unfold in Hrun |- *.
    destruct (step ids mask max eos dyn w) as [[t|e|] w1]; try done.
    destruct (bool_decide _ || bool_decide _); [done|].
    apply IH; [done | done | lia].
Qed.

Lemma over_cap_diverges fuel ids mask max eos dyn w :
  max < Z.of_nat (length ids) → ids ≠ [] →
  model_total compiled_model → never_yields random_choice eos →
  (gen fuel ids mask max eos dyn w).1 = OutOfFuel.
Proof.
  intros Hlong Hne Hmodel Hchoice.
  revert ids mask w Hlong Hne. induction fuel as [|fuel IH];
    intros ids mask w Hlong Hne; [done|].
  rewrite generate_sequence_unfold.
  destruct (over_cap_step ids mask max eos dyn w) as (t & w' & -> & Ht);
    [done..|].
  rewrite bool_decide_eq_false_2 by lia.
  rewrite bool_decide_eq_false_2 by done. simpl.
  apply IH.
  - rewrite length_app. simpl. lia.
  - by destruct ids.
Qed.
End decoding_facts.

(** ** Splitting a text on a separator *)

Section split_facts.
Implicit Types sep s G T X : text.

Lemma starts_with_app sep T : starts_with sep (sep ++ T) = true.
Proof.
  induction sep as [|a sep IH]; simpl; [done|].
  by rewrite bool_decide_eq_true_2.
Qed.

Lemma starts_with_inv sep s :
  starts_with sep s = true → ∃ r, s = sep ++ r.
Proof.
  revert s. induction sep as [|a sep IH]; intros s; simpl.
  - eauto.
  - destruct s as [|c s]; [done|].
    intros [Hac Hrest]%andb_prop.
    apply bool_decide_eq_true in Hac as ->.
    destruct (IH s Hrest) as [r ->]. eauto.
Qed.

Lemma occurs_prefix sep T : occurs sep (sep ++ T) = true.
Proof.
  destruct (sep ++ T) eqn:E; simpl; rewrite <- E, starts_with_app; done.
Qed.

Lemma occurs_app_r sep s T : occurs sep s = true → occurs sep (s ++ T) = true.
Proof.
  induction s as [|c s IH]; simpl.
  - rewrite orb_false_r. intros [r Hr]%starts_with_inv.
    symmetry in Hr. apply app_eq_nil in Hr as [-> _].
    by destruct T.
  - intros [Hs|Hs]%orb_prop.
    + apply starts_with_inv in Hs as [r Hr].
      change (c :: s ++ T) with ((c :: s) ++ T).
      rewrite Hr, <- app_assoc, starts_with_app. done.
    + rewrite (IH Hs). apply orb_true_r.
Qed.

Lemma unbordered_spec sep (k : nat) :
  unbordered sep = true → (0 < k < length sep)%nat →
  take k sep ≠ drop (length sep - k) sep.
Proof.
  unfold unbordered. rewrite forallb_forall. intros Hall Hk Heq.
  specialize (Hall k). rewrite in_seq in Hall.
  rewrite bool_decide_eq_true_2 in Hall by done.
  discriminate Hall. lia.
Qed.

(** Two occurrences of a separator without border do not overlap. *)
Lemma no_overlap sep G T r :
  unbordered sep = true →
  G ≠ [] → (length G < length sep)%nat →
  G ++ sep ++ T = sep ++ r → False.
Proof.
  intros Hub HG Hlen Heq.
  assert (0 < length G)%nat by (destruct G; [done | simpl; lia]).
  apply (unbordered_spec sep (length sep - length G) Hub); [lia|].
  replace (length sep - (length sep - length G))%nat with (length G) by lia.
  apply (f_equal (drop (length G))) in Heq.
  rewrite drop_app_length, drop_app_le in Heq by lia.
  apply (f_equal (take (length sep - length G))) in Heq.
  rewrite take_app_le in Heq by lia.
  rewrite take_app_length' in Heq by (rewrite length_drop; lia).
  done.
Qed.

Lemma split_scan_skip sep (p T : text) :
  split_scan sep (p ++ T) (length p) = split_scan sep T 0.
Proof.
  induction p as [|c p IH]; simpl; [|done].
  by destruct T.
Qed.

Lemma split_scan_skip_all sep (p : text) :
  split_scan sep p (length p) = [[]].
Proof. induction p as [|c p IH]; simpl; done. Qed.

(** After the last separator only the generated text and the closing
    separator remain: they give the two last segments. *)
Lemma split_scan_tail sep G :
  sep ≠ [] → unbordered sep = true → occurs sep G = false →
  split_scan sep (G ++ sep) 0 = [G; []].
Proof.
  intros Hne Hub. induction G as [|g G IH]; intros Hocc.
  - destruct sep as [|c sep']; [done|].
    rewrite app_nil_l.
    change (split_scan (c :: sep') (c :: sep') 0) with
      (if starts_with (c :: sep') (c :: sep')
       then [] :: split_scan (c :: sep') sep' (length (c :: sep') - 1)
       else match split_scan (c :: sep') sep' 0 with
            | seg :: rest => (c :: seg) :: rest
            | [] => [[c]]
            end).
    rewrite <- (app_nil_r (c :: sep')) at 2.
    rewrite starts_with_app. simpl. rewrite Nat.sub_0_r.
    by rewrite split_scan_skip_all.
  - simpl in Hocc. apply orb_false_elim in Hocc as [Hhere Hlater].
    change ((g :: G) ++ sep) with (g :: (G ++ sep)).
    cbn [split_scan].
    destruct (starts_with sep (g :: G ++ sep)) eqn:Hstart.
    + exfalso. apply starts_with_inv in Hstart as [r Hr].
      destruct (decide (length sep ≤ length (g :: G))%nat) as [Hle|Hgt].
      * assert (starts_with sep (g :: G) = true) as Hc; [|congruence].
        apply (f_equal (take (length sep))) in Hr.
        rewrite take_app_length in Hr.
        change (g :: G ++ sep) with ((g :: G) ++ sep) in Hr.
        rewrite take_app_le in Hr by done.
        rewrite <- (take_drop (length sep) (g :: G)), Hr.
        apply starts_with_app.
      * apply (no_overlap sep (g :: G) [] r Hub); [done | lia |].
        by rewrite app_nil_r.
    + by rewrite (IH Hlater).
Qed.

(** Reading a text that ends with separator, generated text, separator:
    whatever comes before, the two last segments are the generated text
    and the empty text. *)
Lemma split_scan_last_two sep G X (skip : nat) :
  sep ≠ [] → unbordered sep = true → occurs sep G = false →
  (skip ≤ length X)%nat →
  ∃ h pre, split_scan sep (X ++ sep ++ G ++ sep) skip = h :: pre ++ [G; []].
Proof.
  intros Hne Hub Hocc. revert skip.
  induction X as [|x X IH]; intros skip Hskip.
  - assert (skip = 0%nat) as -> by (simpl in Hskip; lia).
    rewrite app_nil_l. destruct sep as [|c sep'] eqn:Hsep; [done|].
    rewrite <- Hsep in *.
    assert (Hs : sep ++ G ++ sep = c :: (sep' ++ G ++ sep)) by by rewrite Hsep.
    rewrite Hs. cbn [split_scan]. rewrite <- Hs, starts_with_app.
    replace (length sep - 1)%nat with (length sep')
      by (rewrite Hsep; simpl; lia).
    rewrite split_scan_skip, split_scan_tail by done.
    by exists [], [].
  - change ((x :: X) ++ sep ++ G ++ sep) with (x :: (X ++ sep ++ G ++ sep)).
    cbn [split_scan]. destruct skip as [|k].
    + destruct (starts_with sep (x :: X ++ sep ++ G ++ sep)) eqn:Hstart.
      * apply starts_with_inv in Hstart as [r Hr].
        destruct (IH (length sep - 1)%nat) as (h & pre & ->).
        { destruct (decide (length sep ≤ length (x :: X))%nat) as [Hle|Hgt];
            [simpl in Hle; lia|].
          exfalso.
          apply (no_overlap sep (x :: X) (G ++ sep) r Hub); [done | lia | done]. }
        by exists [], (h :: pre).
      * destruct (IH 0%nat) as (h & pre & ->); [lia|].
        by exists (x :: h), pre.
    + destruct (IH k) as (h & pre & ->); [simpl in Hskip; lia|].
      by exists h, pre.
Qed.

Lemma py_getitem_second_to_last {A} (l : list A) (x y : A) :
  py_getitem (l ++ [x; y]) (-2) = Ok x.
Proof.
  unfold py_getitem, py_index. rewrite length_app. simpl length.
  rewrite decide_False by lia. rewrite decide_True by lia.
  replace (Z.to_nat (Z.of_nat (length l + 2) + -2)) with (length l) by lia.
  simpl. by rewrite list_lookup_middle.
Qed.

(** [text.split(sep)[-2]] of a text that ends with separator, generated
    text, separator. *)
Lemma split_second_to_last sep G X :
  sep ≠ [] → unbordered sep = true → occurs sep G = false →
  ∃ segments, py_split (X ++ sep ++ G ++ sep) sep = Ok segments ∧
              py_getitem segments (-2) = Ok G.
Proof.
  intros Hne Hub Hocc.
  destruct (split_scan_last_two sep G X 0 Hne Hub Hocc) as (h & pre & Hsplit);
    [lia|].
  exists (h :: pre ++ [G; []]). split.
  - unfold py_split. destruct sep; [done|]. by rewrite Hsplit.
  - change (h :: pre ++ [G; []]) with ((h :: pre) ++ [G; []]).
    apply py_getitem_second_to_last.
Qed.
End split_facts.

(** ** Conversation *)

Lemma leading_trailing_snoc (x : Z) (l : list Z) :
  trailing x (l ++ [x]) = S (trailing x l).
Proof.
  unfold trailing. rewrite reverse_snoc. simpl. by rewrite decide_True.
Qed.

Lemma trailing_snoc_ne (x y : Z) (l : list Z) :
  y ≠ x → trailing x (l ++ [y]) = 0%nat.
Proof.
  intros Hne. unfold trailing. rewrite reverse_snoc. simpl.
  by rewrite decide_False.
Qed.

Section conversation_facts.
Context {prob U : Type}.
Context (compiled_model : list Z → list Z → res tensor).
Context (softmax : list score → list prob).
Context (random_choice : nat → list prob → res (U → Z)).
Context (tokenizer : text → list Z * list Z).
Context (tokenizer_decode : Z → text).
Context (tokenizer_eos_token_id : Z).

Abbreviation step := (sample_next compiled_model softmax random_choice).
Abbreviation gen := (generate_sequence compiled_model softmax random_choice).
Abbreviation turn :=
  (converse compiled_model softmax random_choice tokenizer tokenizer_decode
     tokenizer_eos_token_id).
Abbreviation eos_id := (eos_token_id tokenizer_eos_token_id).
Abbreviation eos_text := (eos_token tokenizer_decode tokenizer_eos_token_id).
Abbreviation decode := (decode_join tokenizer_decode).

Abbreviation prompt := (prompt_of tokenizer).

Implicit Types (ids mask history : list Z) (w : world U) (input : text).

Lemma converse_returns fuel input history eos_token' (eos_id' : Z) w
    response history' w' :
  converse compiled_model softmax random_choice tokenizer tokenizer_decode
    tokenizer_eos_token_id fuel input history eos_token' eos_id' w
  = (Ret (response, history'), w') →
  ∃ out segments,
    gen fuel (prompt input history eos_token')
      ((fun _ => 1) <$> prompt input history eos_token') 1000 eos_id true w
    = (Ret out, w') ∧
    history' = out ++ [eos_id'] ∧
    py_split (decode history') eos_token' = Ok segments ∧
    py_getitem segments (-2) = Ok response.
Proof.
  unfold converse. cbv zeta. fold (prompt input history eos_token').
  rewrite bind_unfold.
  destruct (gen fuel _ _ 1000 _ true w) as [[out|e|] w1]; try done.
  rewrite bind_unfold.
  destruct (py_split _ eos_token') as [segments|e] eqn:Hsplit; simpl;
    [|done].
  rewrite bind_unfold.
  destruct (py_getitem segments (-2)) as [r|e] eqn:Hget; simpl; [|done].
  intros [= <- <- <-]. by exists out, segments.
Qed.

Lemma converse_more_fuel (n m : nat) input history eos_token' (eos_id' : Z)
    w r w' :
  converse compiled_model softmax random_choice tokenizer tokenizer_decode
    tokenizer_eos_token_id n input history eos_token' eos_id' w = (r, w') →
  r ≠ OutOfFuel → (n ≤ m)%nat →
  converse compiled_model softmax random_choice tokenizer tokenizer_decode
    tokenizer_eos_token_id m input history eos_token' eos_id' w = (r, w').
Proof.
  unfold converse. cbv zeta. rewrite !bind_unfold. intros Hrun Hr Hnm.
  destruct (gen n _ _ 1000 _ true w) as [o w1] eqn:Hgen.
  assert (o ≠ OutOfFuel) by (intros ->; by injection Hrun as <- _).
  by rewrite (generate_sequence_more_fuel _ _ _ n m _ _ _ _ _ _ _ _ Hgen).
Qed.

Lemma length_prompt input history eos_token' :
  (length history ≤ length (prompt input history eos_token'))%nat.
Proof.
  unfold prompt_of. cbv zeta. case_decide; [lia|].
  rewrite length_app. lia.
Qed.

(** The shape of the history a turn returns. *)
Lemma converse_history_shape fuel input history w response history' w' :
  turn fuel input history eos_text eos_id w = (Ret (response, history'), w') →
  ∃ toks,
    gen fuel (prompt input history eos_text)
      ((fun _ => 1) <$> prompt input history eos_text) 1000 eos_id true w
    = (Ret (prompt input history eos_text ++ toks), w') ∧
    history' = (prompt input history eos_text ++ toks) ++ [eos_id] ∧
    Forall (fun x => x ≠ eos_id) toks ∧
    last history' = Some eos_id ∧
    (length history < length history')%nat ∧
    (toks ≠ [] → trailing eos_id history' = 1%nat) ∧
    (toks = [] → last (prompt input history eos_text) = Some eos_id →
       (2 ≤ trailing eos_id history')%nat).
Proof.
  intros Hturn.
  apply converse_returns in Hturn as (out & segments & Hgen & -> & _ & _).
  pose proof Hgen as Hshape.
  apply generate_sequence_returns in Hshape
    as (toks & _ & _ & -> & Hall & _ & _ & _).
  exists toks. split; [done|]. split; [done|]. split; [done|].
  split; [apply last_snoc|]. split; [|split].
  - pose proof (length_prompt input history eos_text).
    rewrite !length_app. simpl. lia.
  - intros Hne. rewrite leading_trailing_snoc. f_equal.
    destruct toks as [|y toks _] using rev_ind; [done|].
    assert (Hy : y ≠ eos_id).
    { apply (proj1 (Forall_forall _ _) Hall).
      apply elem_of_app. right. constructor. }
    rewrite app_assoc. by apply trailing_snoc_ne.
  - intros -> Hlast. rewrite app_nil_r.
    apply last_Some in Hlast as [l' ->].
    rewrite !leading_trailing_snoc. lia.
Qed.

(** C2 (as the code behaves). A completed turn returns the output of the
    decoding loop followed by the eos id, appended unconditionally: the
    new history ends with the eos id and is strictly longer than the
    old one.  The loop output is the prompt followed by the sampled
    tokens, none of them the eos id; when at least one token was
    sampled the history ends with exactly one eos id, and when none was
    and the prompt ends with the eos id it ends with two or more. *)
Theorem turn_appends_eos fuel input history w response history' w' :
  converse compiled_model softmax random_choice tokenizer tokenizer_decode
    tokenizer_eos_token_id fuel input history eos_text eos_id w
  = (Ret (response, history'), w') →
  ∃ toks,
    generate_sequence compiled_model softmax random_choice
      fuel (prompt input history eos_text)
      ((fun _ => 1) <$> prompt input history eos_text) 1000 eos_id true w
    = (Ret (prompt input history eos_text ++ toks), w') ∧
    history' = (prompt input history eos_text ++ toks) ++ [eos_id] ∧
    Forall (fun x => x ≠ eos_id) toks ∧
    last history' = Some eos_id ∧
    (length history < length history')%nat ∧
    (toks ≠ [] → trailing eos_id history' = 1%nat) ∧
    (toks = [] → last (prompt input history eos_text) = Some eos_id →
       (2 ≤ trailing eos_id history')%nat).
Proof. apply converse_history_shape. Qed.

(** C4 (as the code behaves). The response of a completed turn is the
    second-to-last segment (Python index -2, empty segments counted) of
    the decoded history split on the eos string.  When the eos string
    has no border, the decoded user input ends with it and the decoded
    generated tokens do not contain it, the response is exactly the
    decoded generated tokens. *)
Theorem response_is_generated_text fuel input history w response history' w' :
  converse compiled_model softmax random_choice tokenizer tokenizer_decode
    tokenizer_eos_token_id fuel input history eos_text eos_id w
  = (Ret (response, history'), w') →
  ∃ toks segments,
    history' = (prompt input history eos_text ++ toks) ++ [eos_id] ∧
    py_split (decode history') eos_text = Ok segments ∧
    py_getitem segments (-2) = Ok response ∧
    (unbordered eos_text = true →
     (∃ u, decode (tokenize tokenizer (input ++ eos_text)).1 = u ++ eos_text) →
     occurs eos_text (decode toks) = false →
     response = decode toks).
Proof.
  intros Hturn.
  apply converse_returns in Hturn
    as (out & segments & Hgen & -> & Hsplit & Hget).
  apply generate_sequence_returns in Hgen
    as (toks & _ & _ & -> & _ & _ & _ & _).
  exists toks, segments. split; [done|]. split; [done|]. split; [done|].
  intros Hub [u Hu] Hocc.
  assert (Hne : eos_text ≠ []).
  { intros Hnil. unfold py_split in Hsplit. by rewrite Hnil in Hsplit. }
  assert (Htext : ∃ X, decode ((prompt input history eos_text ++ toks) ++ [eos_id])
                       = X ++ eos_text ++ decode toks ++ eos_text).
  { unfold decode_join in *. rewrite !fmap_app, !concat_app. simpl.
    rewrite app_nil_r. fold eos_text.
    unfold prompt_of. cbv zeta. case_decide.
    - exists u. rewrite Hu, <- !app_assoc. done.
    - exists (concat (tokenizer_decode <$> history) ++ u).
      rewrite fmap_app, concat_app, Hu, <- !app_assoc. done. }
  destruct Htext as [X HX]. rewrite HX in Hsplit.
  destruct (split_second_to_last eos_text (decode toks) X Hne Hub Hocc)
    as (segments' & Hsplit' & Hget').
  congruence.
Qed.

(** C10. The length stop is an equality test.  For a call whose prompt is
    already longer than [max_sequence_length]: the test never holds, a
    run that returns has ended by sampling the eos id, with a sampler
    that never yields the eos id no bound on the number of iterations
    lets the call return, and if moreover the model always answers the
    loop runs on for ever.  [converse] calls the loop with
    [max_sequence_length = 1000]: once history and user input exceed
    1000 tokens the turn has no length bound either. *)
Theorem length_cap_is_equality fuel ids mask (max eos : Z) dyn w :
  max < Z.of_nat (length ids) →
  (∀ out w',
     generate_sequence compiled_model softmax random_choice
       fuel ids mask max eos dyn w
     = (Ret out, w') →
     ∃ toks w0,
       out = ids ++ toks ∧
       Z.of_nat (length out) ≠ max ∧
       sample_next compiled_model softmax random_choice
         out (mask ++ replicate (length toks) 1) max eos dyn w0
       = (Ret eos, w')) ∧
  ((∀ a p pick u, random_choice a p = Ok pick → pick u ≠ eos) →
   ∀ out w',
     generate_sequence compiled_model softmax random_choice
       fuel ids mask max eos dyn w
     ≠ (Ret out, w')) ∧
  (ids ≠ [] → model_total compiled_model → never_yields random_choice eos →
   (generate_sequence compiled_model softmax random_choice
      fuel ids mask max eos dyn w).1 = OutOfFuel) ∧
  (∀ input history eos_token' eos_id',
     (1000 < length history)%nat →
     (∀ a p pick u, random_choice a p = Ok pick → pick u ≠ eos_id) →
     ∀ r w', converse compiled_model softmax random_choice tokenizer
               tokenizer_decode tokenizer_eos_token_id
               fuel input history eos_token' eos_id' w ≠ (Ret r, w')).
Proof.
  intros Hlong. split; [|split; [|split]].
  - intros out w' Hrun.
    by apply (over_cap_returns_on_eos compiled_model softmax random_choice
                fuel ids mask max eos dyn w).
  - by apply over_cap_never_returns.
  - intros Hne Hmodel Hchoice. by apply over_cap_diverges.
  - intros input history eos_token' eos_id' Hhist Hnever [response history'] w' Hturn.
    apply converse_returns in Hturn as (out & segments & Hgen & _).
    revert Hgen. apply over_cap_never_returns; [|done].
    pose proof (length_prompt input history eos_token'). lia.
Qed.

Lemma chat_history_grows fuel (self : Conversation) input w r self' w' :
  chat compiled_model softmax random_choice tokenizer tokenizer_decode
    tokenizer_eos_token_id fuel self input w = (Ret (r, self'), w') →
  (length (history self) < length (history self'))%nat ∧
  last (history self') = Some eos_id.
Proof.
  unfold chat. rewrite bind_unfold.
  destruct (converse _ _ _ _ _ _ fuel input (history self) _ _ w)
    as [[[response h]|e|] w1] eqn:Hturn; try done.
  simpl. intros [= <- <- <-]. simpl.
  apply converse_history_shape in Hturn
    as (toks & _ & -> & _ & Hlast & Hlen & _).
  done.
Qed.
End conversation_facts.

(** ** Runs with the stub collaborators *)

(** The two end-to-end scenarios: a model that always favours the eos id
    stops at once, and a model that always favours token 7 extends the
    prompt up to the cap and no further. *)
Example generate_stops_on_eos :
  (generate_sequence (constant_model 50 42) stub_softmax stub_choice
     10 [1] [1] 5 42 true world0).1 = Ret [1].
Proof. vm_compute. reflexivity. Qed.

Example generate_stops_at_cap :
  (generate_sequence (constant_model 50 7) stub_softmax stub_choice
     10 [1] [1] 4 42 true world0).1 = Ret [1; 7; 7; 7].
Proof. vm_compute. reflexivity. Qed.

Lemma constant_model_total (V tok : nat) :
  (0 < V)%nat → model_total (constant_model V tok).
Proof.
  intros HV ids mask. eexists. split; [reflexivity|].
  split; [apply length_replicate|].
  apply Forall_replicate. unfold one_hot. intros Hnil.
  apply (f_equal length) in Hnil.
  rewrite length_insert, length_replicate in Hnil. simpl in Hnil. lia.
Qed.

Lemma termination_check_witness :
  sample_next (constant_model 50 7) stub_softmax (fixed_choice 7)
    [1; 2] [1; 1] 2 42 true world0
  = (Ret 7, World (fun n => S n) [([1; 2], [1; 1])]) ∧
  generate_sequence (constant_model 50 7) stub_softmax (fixed_choice 7)
    1 [1; 2] [1; 1] 2 42 true world0
  = (Ret [1; 2], World (fun n => S n) [([1; 2], [1; 1])]) ∧
  ∃ w'',
    generate_sequence (constant_model 50 7) stub_softmax (fixed_choice 7)
      1 [1; 2] [1; 1] (Z.of_nat (length [1; 2])) 42 true world0
    = (Ret [1; 2], w'').
Proof.
  assert (H : sample_next (constant_model 50 7) stub_softmax (fixed_choice 7)
                [1; 2] [1; 1] 2 42 true world0
              = (Ret 7, World (fun n => S n) [([1; 2], [1; 1])]))
    by (vm_compute; reflexivity).
  split; [exact H|].
  destruct (termination_check_before_append (constant_model 50 7)
              stub_softmax (fixed_choice 7) 0 [1; 2] [1; 1] 2 42 true
              world0 7 _ H)
    as (_ & _ & Hsame & Htotal & _).
  split; [apply Hsame; reflexivity|].
  apply Htotal.
  - discriminate.
  - apply constant_model_total. lia.
  - intros a p. eexists. reflexivity.
Defined.

(** C5, counterexample. A call with a zero-length sequence is not
    rejected: without dynamic shapes the model is called on the padding,
    the row at index -1 is sampled, and the call returns four tokens. *)
Lemma empty_input_accepted :
  (generate_sequence (constant_model 50 7) stub_softmax stub_choice
     10 [] [] 4 42 false world0).1 = Ret [7; 7; 7; 7] ∧
  port_calls (generate_sequence (constant_model 50 7) stub_softmax stub_choice
     10 [] [] 4 42 false world0).2
  = [([42; 42; 42; 42], [0; 0; 0; 0]); ([7; 42; 42; 42], [1; 0; 0; 0]);
     ([7; 7; 42; 42], [1; 1; 0; 0]); ([7; 7; 7; 42], [1; 1; 1; 0]);
     ([7; 7; 7; 7], [1; 1; 1; 1])].
Proof. split; vm_compute; reflexivity. Qed.

Example empty_input_dynamic :
  (generate_sequence (constant_model 50 7) stub_softmax stub_choice
     10 [] [] 4 42 true world0)
  = (Raise IndexError, World (fun n => n) [([], [])]).
Proof. vm_compute. reflexivity. Qed.

(** With five tokens of equal score the sampled token is the draw modulo
    five: the run follows the draws, and other draws give another run. *)
Example generate_follows_draws :
  (generate_sequence (uniform_model 5) stub_softmax stub_choice
     10 [9] [1] 10 4 true world0).1 = Ret [9; 0; 1; 2; 3] ∧
  (generate_sequence (uniform_model 5) stub_softmax stub_choice
     10 [9] [1] 10 4 true (World (fun n => S (S n)) [])).1 = Ret [9; 2; 3].
Proof. split; vm_compute; reflexivity. Qed.

(** A second call made after a first one, the random source seeded again
    with the same draws: the record of calls is no longer empty, and the
    call returns the same sequence. *)
Lemma generate_deterministic_witness :
  same_draws world0
    (reseed (fun n => n)
       (generate_sequence (uniform_model 5) stub_softmax stub_choice
          10 [9] [1] 10 4 true world0).2) ∧
  length (port_calls
    (reseed (fun n => n)
       (generate_sequence (uniform_model 5) stub_softmax stub_choice
          10 [9] [1] 10 4 true world0).2)) = 5%nat ∧
  (generate_sequence (uniform_model 5) stub_softmax stub_choice
     10 [9] [1] 10 4 true world0).1 = Ret [9; 0; 1; 2; 3] ∧
  (generate_sequence (uniform_model 5) stub_softmax stub_choice
     10 [9] [1] 10 4 true
     (reseed (fun n => n)
        (generate_sequence (uniform_model 5) stub_softmax stub_choice
           10 [9] [1] 10 4 true world0).2)).1 = Ret [9; 0; 1; 2; 3].
Proof.
  assert (H : same_draws world0
    (reseed (fun n => n)
       (generate_sequence (uniform_model 5) stub_softmax stub_choice
          10 [9] [1] 10 4 true world0).2)).
  { intros n. reflexivity. }
  assert (H1 : (generate_sequence (uniform_model 5) stub_softmax stub_choice
                  10 [9] [1] 10 4 true world0).1 = Ret [9; 0; 1; 2; 3])
    by (vm_compute; reflexivity).
  split; [exact H|].
  split; [vm_compute; reflexivity|].
  split; [exact H1|].
  rewrite <- (proj1 (generate_deterministic (uniform_model 5) stub_softmax
                       stub_choice 10 [9] [1] 10 4 true _ _ H)).
  exact H1.
Defined.

Example toy_turn :
  (toy_converse reply_ok 10 (str "hi") [] world0).1
  = Ret (str "ok", [104; 105; 0; 111; 107; 0]).
Proof. vm_compute. reflexivity. Qed.

Lemma turn_appends_eos_witness :
  toy_converse reply_ok 10 (str "hi") [] world0
  = (Ret (str "ok", [104; 105; 0; 111; 107; 0]),
     (toy_converse reply_ok 10 (str "hi") [] world0).2) ∧
  last [104; 105; 0; 111; 107; 0] = Some 0 ∧
  (length (@nil Z) < length [104; 105; 0; 111; 107; 0])%nat.
Proof.
  assert (H : toy_converse reply_ok 10 (str "hi") [] world0
              = (Ret (str "ok", [104; 105; 0; 111; 107; 0]),
                 (toy_converse reply_ok 10 (str "hi") [] world0).2))
    by (vm_compute; reflexivity).
  split; [exact H|].
  destruct (turn_appends_eos reply_ok stub_softmax stub_choice toy_tokenizer
              toy_decode 0 10 (str "hi") [] world0 _ _ _ H)
    as (toks & _ & _ & _ & Hlast & Hlen & _).
  split; [exact Hlast | exact Hlen].
Defined.

(** C2, counterexample. When the model answers with the eos id at once,
    nothing is appended to the prompt, which already ends with the eos id
    of the user input: the returned history ends with two eos ids. *)
Lemma empty_reply_doubles_eos :
  (toy_converse (constant_model 128 0) 10 (str "hi") [] world0).1
  = Ret ([], [104; 105; 0; 0]) ∧
  trailing 0 [104; 105; 0; 0] = 2%nat.
Proof. split; vm_compute; reflexivity. Qed.

Lemma response_is_generated_text_witness :
  toy_converse reply_ok 10 (str "hi") [] world0
  = (Ret (str "ok", [104; 105; 0; 111; 107; 0]),
     (toy_converse reply_ok 10 (str "hi") [] world0).2) ∧
  unbordered toy_eos = true ∧
  str "ok" = decode_join toy_decode [111; 107].
Proof.
  assert (H : toy_converse reply_ok 10 (str "hi") [] world0
              = (Ret (str "ok", [104; 105; 0; 111; 107; 0]),
                 (toy_converse reply_ok 10 (str "hi") [] world0).2))
    by (vm_compute; reflexivity).
  split; [exact H|].
  assert (Hub : unbordered (eos_token toy_decode 0) = true)
    by (vm_compute; reflexivity).
  split; [exact Hub|].
  destruct (response_is_generated_text reply_ok stub_softmax stub_choice
              toy_tokenizer toy_decode 0 10 (str "hi") [] world0 _ _ _ H)
    as (toks & segments & Hhist & _ & _ & Hresp).
  assert (Htoks : toks = [111; 107]).
  { vm_compute in Hhist. injection Hhist as Hh.
    change [111; 107; 0] with ([111; 107] ++ [0]) in Hh.
    by apply app_inj_tail in Hh as [<- _]. }
  rewrite Htoks in Hresp. apply Hresp.
  - exact Hub.
  - exists (str "hi"). vm_compute; reflexivity.
  - vm_compute; reflexivity.
Defined.

(** C4, counterexample. After two earlier turns the model answers with the
    eos id at once: the response is the empty second-to-last segment,
    while the second-to-last of the non-empty segments is an older
    text. *)
Lemma empty_reply_segment :
  (toy_converse (constant_model 128 0) 10 (str "hi") [97; 0; 98; 0] world0).1
  = Ret ([], [97; 0; 98; 0; 104; 105; 0; 0]) ∧
  py_split (decode_join toy_decode [97; 0; 98; 0; 104; 105; 0; 0]) toy_eos
  = Ok [str "a"; str "b"; str "hi"; []; []] ∧
  py_getitem [str "a"; str "b"; str "hi"; []; []] (-2) = Ok [] ∧
  second_to_last_nonempty [str "a"; str "b"; str "hi"; []; []] = Ok (str "b").
Proof. repeat split; vm_compute; reflexivity. Qed.

Lemma length_cap_is_equality_witness :
  2 < Z.of_nat (length [1; 2; 3]) ∧
  (∀ out w',
     generate_sequence (constant_model 50 7) stub_softmax (fixed_choice 7)
       5 [1; 2; 3] [1; 1; 1] 2 42 true world0 ≠ (Ret out, w')) ∧
  (generate_sequence (constant_model 50 7) stub_softmax (fixed_choice 7)
     5 [1; 2; 3] [1; 1; 1] 2 42 true world0).1 = OutOfFuel ∧
  (∀ r w',
     converse (constant_model 50 7) stub_softmax (fixed_choice 7)
       toy_tokenizer toy_decode 0 5 (str "hi") (replicate 1001 7)
       toy_eos 0 world0 ≠ (Ret r, w')).
Proof.
  assert (H : 2 < Z.of_nat (length [1; 2; 3])) by (simpl; lia).
  split; [exact H|].
  destruct (length_cap_is_equality (constant_model 50 7) stub_softmax
              (fixed_choice 7) toy_tokenizer toy_decode 0
              5 [1; 2; 3] [1; 1; 1] 2 42 true world0 H)
    as (_ & Hnever & Hruns & Hturn).
  split; [|split].
  - apply Hnever. intros a p pick u [= <-]. discriminate.
  - apply Hruns.
    + discriminate.
    + intros ids mask. eexists. split; [reflexivity|].
      split; [apply length_replicate|].
      apply Forall_replicate. discriminate.
    + intros a p. eexists. split; [reflexivity|]. discriminate.
  - apply Hturn.
    + rewrite length_replicate. lia.
    + intros a p pick u [= <-]. discriminate.
Defined.

Example over_cap_runs_on :
  (generate_sequence (constant_model 50 7) stub_softmax stub_choice
     6 [1; 2; 3] [1; 1; 1] 2 42 true world0).1 = OutOfFuel.
Proof. vm_compute. reflexivity. Qed.

(** * Further properties *)

(** ** The top-k filter *)

Lemma kth_highest_antitone (row : list score) (k1 k2 : nat) (t1 t2 : score) :
  kth_highest row k1 t1 → kth_highest row k2 t2 → (k1 ≤ k2)%nat →
  score_le t2 t1.
Proof.
  intros (_ & Ha & _) (_ & _ & Hb) Hk.
  destruct (decide (score_le t2 t1)) as [|Hn]; [done|].
  exfalso. unfold count_above, count_at_least in *.
  assert (Himp : ∀ x, score_le t2 x → score_lt t1 x).
  { intros x Hx. apply score_lt_nge. intros Hx1. apply Hn. by etrans. }
  pose proof (length_filter_mono (score_le t2) (score_lt t1) row Himp).
  lia.
Qed.

Lemma below_to_ninf_lt (t s : score) :
  score_lt t (below_to_ninf t s) ↔ score_lt t s.
Proof.
  unfold below_to_ninf. destruct (decide (score_lt s t)) as [Hst|]; [|done].
  split.
  - by destruct t.
  - intros Hts. exfalso. apply score_lt_nge in Hts, Hst.
    destruct (score_le_total s t); tauto.
Qed.

Lemma below_to_ninf_le (t s : score) :
  score_le t (below_to_ninf t s) ↔ score_le t s.
Proof.
  unfold below_to_ninf. destruct (decide (score_lt s t)) as [Hst|]; [|done].
  apply score_lt_nge in Hst. split; [|done].
  intros Hle. by destruct t.
Qed.

Lemma below_to_ninf_idemp (t s : score) :
  below_to_ninf t (below_to_ninf t s) = below_to_ninf t s.
Proof.
  unfold below_to_ninf. destruct (decide (score_lt s t)) as [Hst|Hst].
  - by case_decide.
  - by rewrite decide_False.
Qed.

Lemma length_filter_fmap {A B} (f : A → B) (P : B → Prop) (Q : A → Prop)
    `{∀ x, Decision (P x)} `{∀ x, Decision (Q x)} (l : list A) :
  (∀ x, P (f x) ↔ Q x) →
  length (filter P (f <$> l)) = length (filter Q l).
Proof.
  intros HPQ. induction l as [|x l IH]; [done|].
  rewrite fmap_cons, !filter_cons.
  destruct (decide (P (f x))) as [HP|HP], (decide (Q x)) as [HQ|HQ];
    simpl; try lia.
  - destruct HQ. by apply HPQ.
  - destruct HP. by apply HPQ.
Qed.

Lemma kth_highest_filtered (row : list score) (k : nat) (t : score) :
  kth_highest row k t → kth_highest (below_to_ninf t <$> row) k t.
Proof.
  intros (Hin & Hlt & Hge). unfold kth_highest, count_above, count_at_least.
  rewrite (length_filter_fmap _ (score_lt t) (score_lt t))
    by apply below_to_ninf_lt.
  rewrite (length_filter_fmap _ (score_le t) (score_le t))
    by apply below_to_ninf_le.
  split; [|done].
  apply list_elem_of_fmap. exists t. split; [|done].
  unfold below_to_ninf. rewrite decide_False; [done|]. apply score_lt_irrefl.
Qed.

Lemma get_top_k_logits_nil (k : Z) : get_top_k_logits [] k = Err ValueError.
Proof.
  unfold get_top_k_logits. cbv zeta.
  change (np_sort (score_opp <$> [])) with (@nil score).
  by rewrite take_nil.
Qed.

Lemma get_top_k_logits_Ok (row out : list score) (k : Z) :
  get_top_k_logits row k = Ok out →
  row ≠ [] ∧
  ∃ t, kth_highest row
         (Z.to_nat (Z.min (Z.max k 1) (Z.of_nat (length row)))) t ∧
       out = below_to_ninf t <$> row.
Proof.
  intros Hout. destruct row as [|s row];
    [by rewrite get_top_k_logits_nil in Hout|].
  split; [done|].
  destruct (get_top_k_logits_threshold (s :: row) k) as (t & Hkth & Heq);
    [done|].
  exists t. split; [done|]. congruence.
Qed.

(** X1. [get_top_k_logits] fails on exactly one kind of input: on an empty
    row it raises [ValueError] whatever k is.  On any other row it returns
    a row of the same length in which every entry is the entry of the
    input or minus infinity. *)
Theorem top_k_filter_raises_iff_empty (row : list score) (k : Z) :
  (row = [] → get_top_k_logits row k = Err ValueError) ∧
  (row ≠ [] →
   ∃ out, get_top_k_logits row k = Ok out ∧
          length out = length row ∧
          ∀ i s, row !! i = Some s → out !! i = Some s ∨ out !! i = Some NInf).
Proof.
  split.
  - intros ->. apply get_top_k_logits_nil.
  - intros Hne.
    destruct (get_top_k_logits_threshold row k Hne) as (t & _ & Hout).
    exists (below_to_ninf t <$> row). split; [done|].
    split; [by rewrite length_fmap|].
    intros i s Hi. rewrite list_lookup_fmap, Hi. simpl.
    unfold below_to_ninf. destruct (decide (score_lt s t)); auto.
Qed.

Lemma top_k_filter_raises_iff_empty_witness :
  get_top_k_logits [] 3 = Err ValueError ∧
  ∃ out, get_top_k_logits [q 2; q 9; q 4] 2 = Ok out ∧
         length out = length [q 2; q 9; q 4].
Proof.
  destruct (top_k_filter_raises_iff_empty [] 3) as [Hempty _].
  destruct (top_k_filter_raises_iff_empty [q 2; q 9; q 4] 2) as [_ Hrow].
  split; [by apply Hempty|].
  destruct (Hrow ltac:(discriminate)) as (out & Hout & Hlen & _).
  by exists out.
Defined.

(** X2. Filtering twice is filtering once: applying [get_top_k_logits]
    with the same k to its own result returns that result unchanged. *)
Theorem top_k_filter_idempotent (row out : list score) (k : Z) :
  get_top_k_logits row k = Ok out → get_top_k_logits out k = Ok out.
Proof.
  intros Hout. apply get_top_k_logits_Ok in Hout as (Hne & t & Hkth & ->).
  destruct (get_top_k_logits_threshold (below_to_ninf t <$> row) k)
    as (t' & Hkth' & ->).
  { intros Hnil. apply fmap_nil_inv in Hnil. done. }
  rewrite length_fmap in Hkth'.
  apply kth_highest_filtered in Hkth.
  rewrite (kth_highest_unique _ _ _ _ Hkth' Hkth).
  f_equal. rewrite <- list_fmap_compose.
  apply list_fmap_ext. intros i s _. apply below_to_ninf_idemp.
Qed.

Lemma top_k_filter_idempotent_witness :
  get_top_k_logits [q 3; q 1; q 3; q 2; q 3] 2
  = Ok [q 3; NInf; q 3; NInf; q 3] ∧
  get_top_k_logits [q 3; NInf; q 3; NInf; q 3] 2
  = Ok [q 3; NInf; q 3; NInf; q 3].
Proof.
  assert (H : get_top_k_logits [q 3; q 1; q 3; q 2; q 3] 2
              = Ok [q 3; NInf; q 3; NInf; q 3]) by (vm_compute; reflexivity).
  split; [exact H|]. exact (top_k_filter_idempotent _ _ _ H).
Defined.

(** X3. A larger [top_k] never removes what a smaller one kept: for
    k1 <= k2, every entry that the filter with k1 leaves with a score other
    than minus infinity keeps that same score under the filter with k2. *)
Theorem top_k_filter_monotone (row out1 out2 : list score) (k1 k2 : Z) :
  k1 ≤ k2 →
  get_top_k_logits row k1 = Ok out1 →
  get_top_k_logits row k2 = Ok out2 →
  ∀ i s, out1 !! i = Some s → s ≠ NInf → out2 !! i = Some s.
Proof.
  intros Hk H1 H2 i s Hi Hs.
  apply get_top_k_logits_Ok in H1 as (_ & t1 & Hkth1 & ->).
  apply get_top_k_logits_Ok in H2 as (_ & t2 & Hkth2 & ->).
  assert (Hle : score_le t2 t1).
  { eapply kth_highest_antitone; [exact Hkth1 | exact Hkth2 | lia]. }
  rewrite list_lookup_fmap in Hi |- *.
  destruct (row !! i) as [x|]; [|done]. simpl in *.
  injection Hi as <-. f_equal. unfold below_to_ninf in *.
  destruct (decide (score_lt x t1)) as [|Hx1]; [done|].
  rewrite decide_False; [done|].
  apply score_le_ngt. etrans; [exact Hle|]. by apply score_le_ngt.
Qed.

Lemma top_k_filter_monotone_witness :
  1 ≤ 3 ∧
  get_top_k_logits [q 3; q 1; q 4; q 2] 1 = Ok [NInf; NInf; q 4; NInf] ∧
  get_top_k_logits [q 3; q 1; q 4; q 2] 3 = Ok [q 3; NInf; q 4; q 2] ∧
  [q 3; NInf; q 4; q 2] !! 2%nat = Some (q 4).
Proof.
  assert (Hk : 1 ≤ 3) by lia.
  assert (H1 : get_top_k_logits [q 3; q 1; q 4; q 2] 1
               = Ok [NInf; NInf; q 4; NInf]) by (vm_compute; reflexivity).
  assert (H3 : get_top_k_logits [q 3; q 1; q 4; q 2] 3
               = Ok [q 3; NInf; q 4; q 2]) by (vm_compute; reflexivity).
  split; [exact Hk|]. split; [exact H1|]. split; [exact H3|].
  apply (top_k_filter_monotone _ _ _ 1 3 Hk H1 H3 2%nat (q 4));
    [reflexivity | discriminate].
Defined.

(** X4. The filter never removes a highest score: whatever k is, every
    entry of the row that holds the maximum of the row is unchanged in
    the result. *)
Theorem top_k_filter_keeps_maximum (row out : list score) (k : Z) (t : score) :
  get_top_k_logits row k = Ok out →
  is_maximum row t →
  ∀ i, row !! i = Some t → out !! i = Some t.
Proof.
  intros Hout [_ Hmax] i Hi.
  apply get_top_k_logits_Ok in Hout as (_ & thr & (Hin & _) & ->).
  rewrite list_lookup_fmap, Hi. simpl. f_equal.
  unfold below_to_ninf. rewrite decide_False; [done|].
  apply score_le_ngt. by apply (proj1 (Forall_forall _ _) Hmax).
Qed.

Lemma top_k_filter_keeps_maximum_witness :
  get_top_k_logits [q 3; q 1; q 4; q 2] 2 = Ok [q 3; NInf; q 4; NInf] ∧
  is_maximum [q 3; q 1; q 4; q 2] (q 4) ∧
  [q 3; NInf; q 4; NInf] !! 2%nat = Some (q 4).
Proof.
  assert (H : get_top_k_logits [q 3; q 1; q 4; q 2] 2
              = Ok [q 3; NInf; q 4; NInf]) by (vm_compute; reflexivity).
  assert (Hmax : is_maximum [q 3; q 1; q 4; q 2] (q 4)).
  { split; [by repeat constructor|].
    repeat constructor; vm_compute; discriminate. }
  split; [exact H|]. split; [exact Hmax|].
  apply (top_k_filter_keeps_maximum _ _ 2 (q 4) H Hmax 2%nat). reflexivity.
Defined.

(** X5. Suppression survives the filter: when [process_logits] has set the
    score of the end-of-sequence token to minus infinity, the score at
    that index is still minus infinity after [get_top_k_logits], whatever
    k is. *)
Theorem suppressed_eos_stays_suppressed (scores sc out : list score)
    (cur_length eos_id min_length k : Z) (j : nat) :
  cur_length < min_length →
  py_index (length scores) eos_id = Ok j →
  process_logits cur_length scores eos_id min_length = Ok sc →
  get_top_k_logits sc k = Ok out →
  out !! j = Some NInf.
Proof.
  intros Hlt Hj Hsc Hout.
  unfold process_logits in Hsc. rewrite decide_True in Hsc by done.
  rewrite Hj in Hsc. simpl in Hsc. injection Hsc as <-.
  apply get_top_k_logits_Ok in Hout as (_ & t & _ & ->).
  apply py_index_lt in Hj.
  rewrite list_lookup_fmap, list_lookup_insert_eq by done. simpl.
  unfold below_to_ninf. by destruct (decide (score_lt NInf t)).
Qed.

Lemma suppressed_eos_stays_suppressed_witness :
  3 < 10 ∧
  py_index (length [q 5; q 1; q 9; q 2]) 2 = Ok 2%nat ∧
  process_logits 3 [q 5; q 1; q 9; q 2] 2 10 = Ok [q 5; q 1; NInf; q 2] ∧
  get_top_k_logits [q 5; q 1; NInf; q 2] 4 = Ok [q 5; q 1; NInf; q 2] ∧
  [q 5; q 1; NInf; q 2] !! 2%nat = Some NInf.
Proof.
  assert (Hlt : 3 < 10) by lia.
  assert (Hj : py_index (length [q 5; q 1; q 9; q 2]) 2 = Ok 2%nat)
    by reflexivity.
  assert (Hsc : process_logits 3 [q 5; q 1; q 9; q 2] 2 10
                = Ok [q 5; q 1; NInf; q 2]) by reflexivity.
  assert (Hout : get_top_k_logits [q 5; q 1; NInf; q 2] 4
                 = Ok [q 5; q 1; NInf; q 2]) by (vm_compute; reflexivity).
  split; [exact Hlt|]. split; [exact Hj|]. split; [exact Hsc|].
  split; [exact Hout|].
  exact (suppressed_eos_stays_suppressed _ _ _ 3 2 10 4 2%nat Hlt Hj Hsc Hout).
Defined.

(** ** The decoding loop: calls, draws and termination *)

Section loop_facts.
Context {prob U : Type}.
Context (compiled_model : list Z → list Z → res tensor).
Context (softmax : list score → list prob).
Context (random_choice : nat → list prob → res (U → Z)).

Abbreviation step := (sample_next compiled_model softmax random_choice).
Abbreviation gen := (generate_sequence compiled_model softmax random_choice).

Implicit Types (ids mask : list Z) (w : world U).

Lemma step_call ids mask max eos dyn w :
  port_calls (step ids mask max eos dyn w).2
  = port_calls w ++ [model_input ids mask max eos dyn].
Proof. apply (step_first_call compiled_model softmax random_choice). Qed.

Lemma step_draw ids mask max eos dyn w t w' :
  step ids mask max eos dyn w = (Ret t, w') → ∀ n, rng w' n = rng w (S n).
Proof.
  unfold sample_next. cbv zeta. rewrite bind_unfold. unfold call_model.
  destruct (compiled_model _ _) as [outputs|e]; [|done].
  rewrite bind_unfold.
  destruct (py_getitem outputs _) as [logits|e]; simpl; [|done].
  rewrite bind_unfold.
  destruct (process_logits _ logits eos 0) as [sc|e]; simpl; [|done].
  rewrite bind_unfold.
  destruct (get_top_k_logits sc 20) as [sc'|e]; simpl; [|done].
  rewrite bind_unfold.
  destruct (random_choice _ _) as [pick|e]; simpl; [|done].
  by intros [= <- <-].
Qed.

Lemma prefix_inputs_shift ids mask (t : Z) (toks : list Z) max eos dyn (n : nat) :
  (fun i => model_input (ids ++ take i (t :: toks)) (mask ++ replicate i 1)
              max eos dyn) <$> seq 1 n
  = (fun i => model_input ((ids ++ [t]) ++ take i toks)
                ((mask ++ [1]) ++ replicate i 1) max eos dyn) <$> seq 0 n.
Proof.
  rewrite <- (fmap_S_seq 0 n), <- list_fmap_compose.
  apply list_fmap_ext. intros _ i _. simpl.
  by rewrite <- !app_assoc.
Qed.

Lemma returning_run_log fuel ids mask max eos dyn w out w' :
  gen fuel ids mask max eos dyn w = (Ret out, w') →
  ∃ toks,
    out = ids ++ toks ∧
    port_calls w' = port_calls w ++
      ((fun i => model_input (ids ++ take i toks) (mask ++ replicate i 1)
                   max eos dyn) <$> seq 0 (S (length toks))) ∧
    ∀ n, rng w' n = rng w (n + S (length toks))%nat.
Proof.
  revert ids mask w. induction fuel as [|fuel IH]; intros ids mask w Hrun;
    [done|].
  rewrite generate_sequence_unfold in Hrun.
  pose proof (step_call ids mask max eos dyn w) as Hcall.
  destruct (step ids mask max eos dyn w) as [[t|e|] w1] eqn:Hstep;
    try discriminate.
  pose proof (step_draw _ _ _ _ _ _ _ _ Hstep) as Hdraw.
  simpl in Hcall.
  destruct (bool_decide _ || bool_decide _).
  - injection Hrun as <- <-. exists []. simpl.
    rewrite !app_nil_r. split; [done|]. split; [done|].
    intros n. rewrite Hdraw. f_equal. lia.
  - apply IH in Hrun as (toks & -> & Hlog & Hrng).
    exists (t :: toks). rewrite <- app_assoc. split; [done|]. split.
    + rewrite Hlog, Hcall, <- app_assoc. f_equal.
      change (seq 0 (S (length (t :: toks))))
        with (0%nat :: seq 1 (S (length toks))).
      rewrite fmap_cons, prefix_inputs_shift. simpl.
      by rewrite !app_nil_r.
    + intros n. rewrite Hrng, Hdraw. f_equal. simpl. lia.
Qed.

(** X6. What a returning call has cost.  If [generate_sequence] returns
    the prompt extended by n tokens, it has called the model exactly n+1
    times, in order on the prompt extended by the first 0, 1, ..., n
    tokens (padded when shapes are fixed), and has consumed exactly n+1
    uniform draws: the last call and the last draw serve the sample that
    is discarded. *)
Theorem returning_run_cost fuel ids mask max eos dyn w out w' :
  generate_sequence compiled_model softmax random_choice
    fuel ids mask max eos dyn w
  = (Ret out, w') →
  ∃ toks,
    out = ids ++ toks ∧
    port_calls w' = port_calls w ++
      ((fun i => model_input (ids ++ take i toks) (mask ++ replicate i 1)
                   max eos dyn) <$> seq 0 (S (length toks))) ∧
    length (port_calls w') = (length (port_calls w) + S (length toks))%nat ∧
    ∀ n, rng w' n = rng w (n + S (length toks))%nat.
Proof.
  intros Hrun. apply returning_run_log in Hrun as (toks & -> & Hlog & Hrng).
  exists toks. split; [done|]. split; [done|]. split; [|done].
  rewrite Hlog, length_app, length_fmap, length_seq. done.
Qed.

Lemma model_input_lengths ids mask max eos dyn :
  length ids = length mask →
  length (model_input ids mask max eos dyn).1
  = length (model_input ids mask max eos dyn).2 ∧
  (dyn = false → Z.of_nat (length ids) ≤ max →
   Z.of_nat (length (model_input ids mask max eos dyn).1) = max).
Proof.
  intros Hlen. unfold model_input. destruct dyn; simpl.
  - split; [done|]. discriminate.
  - rewrite !length_app, !length_replicate. split; [lia|]. lia.
Qed.

Lemma run_calls_aligned fuel ids mask max eos dyn w :
  length ids = length mask →
  ∃ calls,
    port_calls (gen fuel ids mask max eos dyn w).2 = port_calls w ++ calls ∧
    Forall (fun c => length c.1 = length c.2) calls ∧
    (dyn = false → Z.of_nat (length ids) ≤ max →
     Forall (fun c => Z.of_nat (length c.1) = max) calls).
Proof.
  revert ids mask w. induction fuel as [|fuel IH]; intros ids mask w Hlen.
  - exists []. simpl. rewrite app_nil_r. by repeat split.
  - rewrite generate_sequence_unfold.
    pose proof (step_call ids mask max eos dyn w) as Hcall.
    destruct (model_input_lengths ids mask max eos dyn Hlen) as [Hal Hcap].
    assert (Hone : ∃ calls,
      (step ids mask max eos dyn w).2.(port_calls) = port_calls w ++ calls ∧
      Forall (fun c => length c.1 = length c.2) calls ∧
      (dyn = false → Z.of_nat (length ids) ≤ max →
       Forall (fun c => Z.of_nat (length c.1) = max) calls)).
    { exists [model_input ids mask max eos dyn]. split; [done|].
      split; [by repeat constructor|]. intros. repeat constructor. auto. }
    destruct (step ids mask max eos dyn w) as [[t|e|] w1]; try done.
    destruct (bool_decide (Z.of_nat (length ids) = max)) eqn:Hmax;
      [done|].
    destruct (bool_decide (t = eos)); [done|]. simpl.
    apply bool_decide_eq_false in Hmax.
    destruct (IH (ids ++ [t]) (mask ++ [1]) w1) as (calls & Hrest & Hal' & Hcap').
    { rewrite !length_app. simpl. lia. }
    exists (model_input ids mask max eos dyn :: calls). simpl in Hcall.
    split; [by rewrite Hrest, Hcall, <- app_assoc|].
    split; [by constructor|].
    intros Hdyn Hle. constructor; [auto|].
    apply Hcap'; [done|]. rewrite length_app. simpl. lia.
Qed.

(** X7. Ids and mask stay aligned.  When the initial ids and attention
    mask have the same length, every call the loop makes to the model,
    whether the run returns, fails or goes on, passes ids and mask of the
    same length; with fixed shapes and a prompt within the cap, that
    length is [max_sequence_length] at every call. *)
Theorem model_calls_aligned fuel ids mask max eos dyn w :
  length ids = length mask →
  ∃ calls,
    port_calls (generate_sequence compiled_model softmax random_choice
                  fuel ids mask max eos dyn w).2
    = port_calls w ++ calls ∧
    Forall (fun c => length c.1 = length c.2) calls ∧
    (dyn = false → Z.of_nat (length ids) ≤ max →
     Forall (fun c => Z.of_nat (length c.1) = max) calls).
Proof. apply run_calls_aligned. Qed.

(** X8. Within the cap the loop ends.  For a non-empty prompt of at most
    [max_sequence_length] tokens, a model that always answers and a
    sampler that accepts every distribution, [generate_sequence] returns
    after at most [max_sequence_length - len + 1] iterations, and its
    result extends the prompt to at most [max_sequence_length] tokens. *)
Theorem within_cap_terminates ids mask max eos dyn w :
  ids ≠ [] → Z.of_nat (length ids) ≤ max →
  model_total compiled_model → sampler_total random_choice →
  ∃ out w',
    generate_sequence compiled_model softmax random_choice
      (S (Z.to_nat (max - Z.of_nat (length ids)))) ids mask max eos dyn w
    = (Ret out, w') ∧
    ids `prefix_of` out ∧
    Z.of_nat (length ids) ≤ Z.of_nat (length out) ≤ max.
Proof.
  intros Hne Hle Hmodel Hchoice.
  destruct (within_cap_returns compiled_model softmax random_choice
              (Z.to_nat (max - Z.of_nat (length ids))) ids mask max eos dyn w)
    as (out & w' & Hrun); [done | done | done | lia |].
  exists out, w'. split; [done|].
  apply generate_sequence_returns in Hrun
    as (toks & _ & _ & -> & _ & _ & _ & Hcap).
  split; [by exists toks|].
  split; [rewrite length_app; lia | auto].
Qed.
Lemma step_modes_agree ids mask max eos w1 w2 :
  ids ≠ [] → padding_blind compiled_model max eos →
  (∀ n, rng w1 n = rng w2 n) →
  (step ids mask max eos false w1).1 = (step ids mask max eos true w2).1 ∧
  ∀ n, rng (step ids mask max eos false w1).2 n
       = rng (step ids mask max eos true w2).2 n.
Proof.
  intros Hne Hblind Hrng. specialize (Hblind ids mask Hne).
  unfold model_input in Hblind. simpl in Hblind.
  unfold sample_next. cbv zeta. simpl negb. cbv iota. simpl fst. simpl snd.
  rewrite !bind_unfold. unfold call_model.
  destruct (compiled_model (ids ++ _) _) as [o1|e1],
           (compiled_model ids mask) as [o2|e2]; simpl in Hblind.
  - rewrite !bind_unfold. rewrite Hblind.
    destruct (py_getitem o2 _) as [logits|e]; simpl; [|done].
    rewrite !bind_unfold.
    destruct (process_logits _ logits eos 0) as [sc|e]; simpl; [|done].
    rewrite !bind_unfold.
    destruct (get_top_k_logits sc 20) as [sc'|e]; simpl; [|done].
    rewrite !bind_unfold.
    destruct (random_choice _ _) as [pick|e]; simpl; [|done].
    rewrite Hrng. split; [done|]. intros n. apply Hrng.
  - rewrite bind_unfold, Hblind. simpl. done.
  - rewrite bind_unfold. simpl. rewrite <- Hblind. simpl. done.
  - simpl. by injection Hblind as ->.
Qed.

(** X9. The padding mode does not matter to a model that ignores
    padding.  For a non-empty prompt and a model whose logits row for the
    last real token is the same with padded and unpadded input,
    [generate_sequence] has the same outcome with [dynamic_shapes] false
    and true, given the same uniform draws. *)
Theorem padding_mode_irrelevant fuel ids mask max eos w1 w2 :
  ids ≠ [] → padding_blind compiled_model max eos →
  (∀ n, rng w1 n = rng w2 n) →
  (generate_sequence compiled_model softmax random_choice
     fuel ids mask max eos false w1).1
  = (generate_sequence compiled_model softmax random_choice
       fuel ids mask max eos true w2).1.
Proof.
  intros Hne Hblind. revert ids mask w1 w2 Hne.
  induction fuel as [|fuel IH]; intros ids mask w1 w2 Hne Hrng; [done|].
  rewrite !generate_sequence_unfold.
  destruct (step_modes_agree ids mask max eos w1 w2 Hne Hblind Hrng)
    as [Hout Hrng'].
  destruct (step ids mask max eos false w1) as [o1 w1'],
           (step ids mask max eos true w2) as [o2 w2'].
  simpl in Hout, Hrng'. subst o2.
  destruct o1 as [t|e|]; [|done|done].
  destruct (bool_decide _ || bool_decide _); [done|].
  apply IH; [by destruct ids | done].
Qed.
End loop_facts.

Lemma returning_run_cost_witness :
  generate_sequence (constant_model 50 7) stub_softmax stub_choice
    10 [1] [1] 4 42 true world0
  = (Ret [1; 7; 7; 7],
     World (fun n => S (S (S (S n))))
       [([1], [1]); ([1; 7], [1; 1]); ([1; 7; 7], [1; 1; 1]);
        ([1; 7; 7; 7], [1; 1; 1; 1])]) ∧
  ∃ toks, [1; 7; 7; 7] = [1] ++ toks ∧
          length (port_calls (World (fun n => S (S (S (S n))))
             [([1], [1]); ([1; 7], [1; 1]); ([1; 7; 7], [1; 1; 1]);
              ([1; 7; 7; 7], [1; 1; 1; 1])]))
          = (length (port_calls world0) + S (length toks))%nat.
Proof.
  assert (H : generate_sequence (constant_model 50 7) stub_softmax stub_choice
                10 [1] [1] 4 42 true world0
              = (Ret [1; 7; 7; 7],
                 World (fun n => S (S (S (S n))))
                   [([1], [1]); ([1; 7], [1; 1]); ([1; 7; 7], [1; 1; 1]);
                    ([1; 7; 7; 7], [1; 1; 1; 1])])).
  { vm_compute. reflexivity. }
  split; [exact H|].
  destruct (returning_run_cost _ _ _ _ _ _ _ _ _ _ _ _ H)
    as (toks & Hout & _ & Hlen & _).
  exists toks. split; [exact Hout | exact Hlen].
Defined.

Lemma model_calls_aligned_witness :
  length [1; 2] = length [1; 1] ∧
  ∃ calls,
    port_calls (generate_sequence (constant_model 50 7) stub_softmax
                  stub_choice 10 [1; 2] [1; 1] 4 42 false world0).2
    = port_calls world0 ++ calls ∧
    Forall (fun c => Z.of_nat (length c.1) = 4) calls.
Proof.
  assert (H : length [1; 2] = length [1; 1]) by reflexivity.
  split; [exact H|].
  destruct (model_calls_aligned (constant_model 50 7) stub_softmax
              stub_choice 10 [1; 2] [1; 1] 4 42 false world0 H)
    as (calls & Hcalls & _ & Hcap).
  exists calls. split; [exact Hcalls|].
  apply Hcap; [reflexivity | simpl; lia].
Defined.

Lemma within_cap_terminates_witness :
  [1] ≠ [] ∧ Z.of_nat (length [1]) ≤ 4 ∧
  ∃ out w',
    generate_sequence (constant_model 50 7) stub_softmax (fixed_choice 7)
      (S (Z.to_nat (4 - Z.of_nat (length [1])))) [1] [1] 4 42 true world0
    = (Ret out, w') ∧
    [1] `prefix_of` out ∧
    Z.of_nat (length [1]) ≤ Z.of_nat (length out) ≤ 4.
Proof.
  assert (Hne : [1] ≠ []) by discriminate.
  assert (Hle : Z.of_nat (length [1]) ≤ 4) by (simpl; lia).
  split; [exact Hne|]. split; [exact Hle|].
  apply within_cap_terminates; [exact Hne | exact Hle | |].
  - apply constant_model_total. lia.
  - intros a p. eexists. reflexivity.
Defined.

Lemma py_getitem_replicate {A} (x : A) (n len : nat) :
  (0 < len ≤ n)%nat → py_getitem (replicate n x) (Z.of_nat len - 1) = Ok x.
Proof.
  intros Hlen. unfold py_getitem, py_index. rewrite length_replicate.
  rewrite decide_True by lia. simpl.
  by rewrite lookup_replicate_2 by lia.
Qed.

Lemma constant_model_padding_blind (V tok : nat) (max eos : Z) :
  padding_blind (constant_model V tok) max eos.
Proof.
  intros ids mask Hne. unfold constant_model, model_input. simpl.
  assert (0 < length ids)%nat by (destruct ids; [done | simpl; lia]).
  rewrite !py_getitem_replicate; [done | lia |].
  rewrite length_app. lia.
Qed.

Lemma padding_mode_irrelevant_witness :
  [1] ≠ [] ∧
  (generate_sequence (constant_model 50 7) stub_softmax stub_choice
     10 [1] [1] 4 42 false world0).1
  = (generate_sequence (constant_model 50 7) stub_softmax stub_choice
       10 [1] [1] 4 42 true world0).1.
Proof.
  assert (Hne : [1] ≠ []) by discriminate.
  split; [exact Hne|].
  apply padding_mode_irrelevant; [exact Hne | | reflexivity].
  apply constant_model_padding_blind.
Defined.

(** ** Splitting, once more *)

Section split_more.
Implicit Types sep s seg : text.

Lemma split_scan_nonempty sep s (k : nat) : split_scan sep s k ≠ [].
Proof.
  revert k. induction s as [|c s IH]; intros k; [done|].
  cbn [split_scan]. destruct k as [|k]; [|apply IH].
  destruct (starts_with sep (c :: s)); [done|].
  by destruct (split_scan sep s 0).
Qed.

Lemma split_scan_head_prefix sep s seg (rest : list text) :
  split_scan sep s 0 = seg :: rest → ∃ r, s = seg ++ r.
Proof.
  revert seg rest. induction s as [|c s IH]; intros seg rest.
  - intros [= <- <-]. by exists [].
  - cbn [split_scan]. destruct (starts_with sep (c :: s)).
    + intros [= <- _]. by exists (c :: s).
    + destruct (split_scan sep s 0) as [|seg' rest'] eqn:Hs.
      * by destruct (split_scan_nonempty sep s 0).
      * intros [= <- <-]. destruct (IH seg' rest' eq_refl) as [r ->].
        by exists r.
Qed.

Lemma occurs_nil sep : sep ≠ [] → occurs sep [] = false.
Proof. by destruct sep. Qed.

(** No segment of a split contains the separator. *)
Lemma split_scan_segments_clean sep s (k : nat) :
  sep ≠ [] → Forall (fun seg => occurs sep seg = false) (split_scan sep s k).
Proof.
  intros Hne. revert k. induction s as [|c s IH]; intros k.
  - repeat constructor. by apply occurs_nil.
  - cbn [split_scan]. destruct k as [|k]; [|apply IH].
    destruct (starts_with sep (c :: s)) eqn:Hstart.
    + constructor; [by apply occurs_nil | apply IH].
    + pose proof (IH 0%nat) as Hall.
      destruct (split_scan sep s 0) as [|seg rest] eqn:Hs.
      { by destruct (split_scan_nonempty sep s 0). }
      apply Forall_cons in Hall as [Hseg Hrest].
      constructor; [|done].
      simpl. rewrite Hseg, orb_false_r.
      destruct (starts_with sep (c :: seg)) eqn:Hc; [|done].
      apply starts_with_inv in Hc as [r Hr].
      apply split_scan_head_prefix in Hs as [r' ->].
      change (c :: seg ++ r') with ((c :: seg) ++ r') in Hstart.
      by rewrite Hr, <- app_assoc, starts_with_app in Hstart.
Qed.

Lemma join_with_cons sep seg (rest : list text) :
  rest ≠ [] → join_with sep (seg :: rest) = seg ++ sep ++ join_with sep rest.
Proof. by destruct rest. Qed.

(** [sep.join(s.split(sep))] is [s]: with [skip] characters of a matched
    separator still to pass, what is joined is the text after them. *)
Lemma join_split_scan sep s (k : nat) :
  sep ≠ [] → join_with sep (split_scan sep s k) = drop k s.
Proof.
  intros Hne. revert k. induction s as [|c s IH]; intros k.
  - by destruct k.
  - cbn [split_scan]. destruct k as [|k]; [|apply IH].
    destruct (starts_with sep (c :: s)) eqn:Hstart.
    + rewrite join_with_cons by apply split_scan_nonempty.
      rewrite IH. apply starts_with_inv in Hstart as [r Hr].
      destruct sep as [|a sep']; [done|].
      simpl in Hr. injection Hr as -> ->.
      simpl. rewrite Nat.sub_0_r. by rewrite drop_app_length.
    + specialize (IH 0%nat).
      destruct (split_scan sep s 0) as [|seg rest] eqn:Hs.
      { by destruct (split_scan_nonempty sep s 0). }
      change (drop 0 (c :: s)) with (c :: drop 0 s). rewrite <- IH.
      destruct rest as [|seg' rest']; [done|].
      by rewrite !join_with_cons by done.
Qed.

Lemma occurs_suffix sep s : occurs sep (s ++ sep) = true.
Proof.
  induction s as [|c s IH].
  - rewrite app_nil_l. pose proof (occurs_prefix sep []) as H.
    by rewrite app_nil_r in H.
  - simpl. rewrite IH. apply orb_true_r.
Qed.

(** A text in which the separator occurs splits into two segments at
    least. *)
Lemma split_scan_two sep s :
  sep ≠ [] → occurs sep s = true → (2 ≤ length (split_scan sep s 0))%nat.
Proof.
  intros Hne. induction s as [|c s IH].
  - by rewrite occurs_nil.
  - cbn [occurs split_scan].
    destruct (starts_with sep (c :: s)); simpl.
    + intros _. pose proof (split_scan_nonempty sep s (length sep - 1)).
      destruct (split_scan sep s (length sep - 1)); [done | simpl; lia].
    + intros Hocc. specialize (IH Hocc).
      destruct (split_scan sep s 0); simpl in *; lia.
Qed.

Lemma py_getitem_neg2_total {A} (l : list A) :
  (2 ≤ length l)%nat → ∃ x, py_getitem l (-2) = Ok x.
Proof.
  intros Hlen. unfold py_getitem, py_index.
  rewrite decide_False by lia. rewrite decide_True by lia. simpl.
  destruct (lookup_lt_is_Some_2 l (Z.to_nat (Z.of_nat (length l) + -2)))
    as [x Hx]; [lia|].
  exists x. by rewrite Hx.
Qed.

Lemma py_getitem_elem_of {A} (l : list A) (i : Z) (x : A) :
  py_getitem l i = Ok x → x ∈ l.
Proof.
  unfold py_getitem. destruct (py_index (length l) i) as [j|e]; simpl; [|done].
  destruct (l !! j) as [y|] eqn:Hy; [|done].
  intros [= <-]. by eapply list_elem_of_lookup_2.
Qed.

Lemma py_getitem_last_of_two {A} (l : list A) (x y : A) :
  py_getitem (l ++ [x; y]) (-1) = Ok y.
Proof.
  unfold py_getitem, py_index. rewrite length_app. simpl length.
  rewrite decide_False by lia. rewrite decide_True by lia.
  replace (Z.to_nat (Z.of_nat (length l + 2) + -1)) with (S (length l)) by lia.
  simpl. rewrite lookup_app_r by lia.
  by replace (S (length l) - length l)%nat with 1%nat by lia.
Qed.

Lemma py_getitem_last {A} (l : list A) (x : A) :
  py_getitem (l ++ [x]) (-1) = Ok x.
Proof.
  unfold py_getitem, py_index. rewrite length_app. simpl length.
  rewrite decide_False by lia. rewrite decide_True by lia.
  replace (Z.to_nat (Z.of_nat (length l + 1) + -1)) with (length l) by lia.
  simpl. by rewrite list_lookup_middle.
Qed.
End split_more.

(** ** Conversation, once more *)

Lemma count_of_app (x : Z) (l1 l2 : list Z) :
  count_of x (l1 ++ l2) = (count_of x l1 + count_of x l2)%nat.
Proof. unfold count_of. by rewrite filter_app, length_app. Qed.

Lemma count_of_singleton (x : Z) : count_of x [x] = 1%nat.
Proof. unfold count_of. by rewrite filter_cons_True. Qed.

Lemma py_getitem_nat {A} (l : list A) (n : nat) (x : A) :
  l !! n = Some x → py_getitem l (Z.of_nat n) = Ok x.
Proof.
  intros Hx. pose proof (lookup_lt_Some _ _ _ Hx).
  unfold py_getitem, py_index. rewrite decide_True by lia. simpl.
  by rewrite Nat2Z.id, Hx.
Qed.

Section conversation_more.
Context {prob U : Type}.
Context (compiled_model : list Z → list Z → res tensor).
Context (softmax : list score → list prob).
Context (random_choice : nat → list prob → res (U → Z)).
Context (tokenizer : text → list Z * list Z).
Context (tokenizer_decode : Z → text).
Context (tokenizer_eos_token_id : Z).

Abbreviation gen := (generate_sequence compiled_model softmax random_choice).
Abbreviation turn :=
  (converse compiled_model softmax random_choice tokenizer tokenizer_decode
     tokenizer_eos_token_id).
Abbreviation say :=
  (chat compiled_model softmax random_choice tokenizer tokenizer_decode
     tokenizer_eos_token_id).
Abbreviation eos_id := (eos_token_id tokenizer_eos_token_id).
Abbreviation eos_text := (eos_token tokenizer_decode tokenizer_eos_token_id).
Abbreviation decode := (decode_join tokenizer_decode).
Abbreviation prompt := (prompt_of tokenizer).

Implicit Types (ids mask history : list Z) (w : world U) (input : text).

Lemma decode_join_app ids1 ids2 :
  decode (ids1 ++ ids2) = decode ids1 ++ decode ids2.
Proof. unfold decode_join. by rewrite fmap_app, concat_app. Qed.

Lemma decode_join_singleton (i : Z) : decode [i] = tokenizer_decode i.
Proof. unfold decode_join. simpl. by rewrite app_nil_r. Qed.

Lemma prompt_extends_history input history eos_token' :
  history `prefix_of` prompt input history eos_token'.
Proof.
  unfold prompt_of. cbv zeta. case_decide as Hlen.
  - destruct history; [|done]. apply prefix_nil.
  - by apply prefix_app_r.
Qed.

Lemma converse_unfold fuel input history eos_token' (eos_id' : Z) w :
  turn fuel input history eos_token' eos_id' w =
  match gen fuel (prompt input history eos_token')
          ((fun _ => 1) <$> prompt input history eos_token')
          1000 eos_id true w with
  | (Ret out, w') =>
    match py_split (decode (out ++ [eos_id'])) eos_token' with
    | Ok segments =>
      match py_getitem segments (-2) with
      | Ok response => (Ret (response, out ++ [eos_id']), w')
      | Err e => (Raise e, w')
      end
    | Err e => (Raise e, w')
    end
  | (Raise e, w') => (Raise e, w')
  | (OutOfFuel, w') => (OutOfFuel, w')
  end.
Proof.
  unfold converse. cbv zeta. fold (prompt input history eos_token').
  rewrite bind_unfold.
  destruct (gen fuel _ _ 1000 _ true w) as [[out|e|] w1]; try done.
  rewrite bind_unfold.
  destruct (py_split _ eos_token') as [segments|e]; simpl; [|done].
  rewrite bind_unfold.
  by destruct (py_getitem segments (-2)).
Qed.

(** X10. With the default eos arguments the extraction of the response
    cannot fail: if the eos string is not empty and the decoding loop
    returns, [converse] returns a response together with the loop output
    followed by the eos id; neither the split nor the index -2 raises. *)
Theorem converse_extraction_total fuel input history w out w' :
  eos_token tokenizer_decode tokenizer_eos_token_id ≠ [] →
  generate_sequence compiled_model softmax random_choice fuel
    (prompt_of tokenizer input history
       (eos_token tokenizer_decode tokenizer_eos_token_id))
    ((fun _ => 1) <$> prompt_of tokenizer input history
       (eos_token tokenizer_decode tokenizer_eos_token_id))
    1000 (eos_token_id tokenizer_eos_token_id) true w
  = (Ret out, w') →
  ∃ response,
    converse compiled_model softmax random_choice tokenizer tokenizer_decode
      tokenizer_eos_token_id fuel input history
      (eos_token tokenizer_decode tokenizer_eos_token_id)
      (eos_token_id tokenizer_eos_token_id) w
    = (Ret (response, out ++ [eos_token_id tokenizer_eos_token_id]), w').
Proof.
  intros Hne Hgen. rewrite converse_unfold, Hgen.
  rewrite decode_join_app, decode_join_singleton. fold eos_text.
  unfold py_split. destruct eos_text as [|c sep] eqn:Hsep; [done|].
  rewrite <- Hsep in *.
  destruct (py_getitem_neg2_total (split_scan eos_text (decode out ++ eos_text) 0))
    as [response Hresp].
  { apply split_scan_two; [done | apply occurs_suffix]. }
  exists response. by rewrite Hresp.
Qed.

(** X11. An empty eos string makes every turn fail: [converse] called
    with [eos_token] empty never returns a response, and when its decoding
    loop returns it raises the [ValueError] of the split, after the whole
    generation has been done. *)
Theorem converse_empty_separator fuel input history (eos_id' : Z) w :
  (∀ r w',
     converse compiled_model softmax random_choice tokenizer tokenizer_decode
       tokenizer_eos_token_id fuel input history [] eos_id' w
     ≠ (Ret r, w')) ∧
  (∀ out w',
     generate_sequence compiled_model softmax random_choice fuel
       (prompt_of tokenizer input history [])
       ((fun _ => 1) <$> prompt_of tokenizer input history [])
       1000 (eos_token_id tokenizer_eos_token_id) true w
     = (Ret out, w') →
     converse compiled_model softmax random_choice tokenizer tokenizer_decode
       tokenizer_eos_token_id fuel input history [] eos_id' w
     = (Raise ValueError, w')).
Proof.
  split.
  - intros r w'. rewrite converse_unfold.
    by destruct (gen fuel _ _ 1000 _ true w) as [[out|e|] w1].
  - intros out w' Hgen. by rewrite converse_unfold, Hgen.
Qed.

(** X12. A turn only adds to the history: the history that [converse]
    returns starts with the history it was given, ends with the eos id it
    was given, and holds at least one more copy of that id. *)
Theorem converse_keeps_history fuel input history eos_token' (eos_id' : Z) w
    response history' w' :
  converse compiled_model softmax random_choice tokenizer tokenizer_decode
    tokenizer_eos_token_id fuel input history eos_token' eos_id' w
  = (Ret (response, history'), w') →
  history `prefix_of` history' ∧
  last history' = Some eos_id' ∧
  (length history < length history')%nat ∧
  (count_of eos_id' history < count_of eos_id' history')%nat.
Proof.
  intros Hturn.
  apply converse_returns in Hturn as (out & segments & Hgen & -> & _ & _).
  apply generate_sequence_returns in Hgen
    as (toks & _ & _ & -> & _ & _ & _ & _).
  destruct (prompt_extends_history input history eos_token') as [new Hp].
  rewrite Hp, <- !app_assoc.
  split; [by eexists|]. split.
  { rewrite !app_assoc. apply last_snoc. }
  rewrite !length_app, !count_of_app, count_of_singleton. simpl. lia.
Qed.

(** X13. The response is a clean piece of the decoded history: the
    segments [converse] picks it from, joined again with the eos string,
    give back the decoded history exactly; the response is one of them,
    and it never contains the eos string. *)
Theorem response_is_clean_segment fuel input history eos_token' (eos_id' : Z) w
    response history' w' :
  converse compiled_model softmax random_choice tokenizer tokenizer_decode
    tokenizer_eos_token_id fuel input history eos_token' eos_id' w
  = (Ret (response, history'), w') →
  ∃ segments,
    py_split (decode_join tokenizer_decode history') eos_token' = Ok segments ∧
    join_with eos_token' segments = decode_join tokenizer_decode history' ∧
    response ∈ segments ∧
    occurs eos_token' response = false.
Proof.
  intros Hturn.
  apply converse_returns in Hturn as (out & segments & _ & -> & Hsplit & Hget).
  exists segments. split; [done|].
  unfold py_split in Hsplit.
  destruct eos_token' as [|c sep] eqn:Hsep; [done|]. rewrite <- Hsep in *.
  injection Hsplit as <-.
  assert (Hne : eos_token' ≠ []) by by rewrite Hsep.
  apply py_getitem_elem_of in Hget.
  split; [by rewrite join_split_scan|]. split; [done|].
  pose proof (split_scan_segments_clean eos_token'
                (decode (out ++ [eos_id'])) 0 Hne) as Hall.
  rewrite Forall_forall in Hall. by apply Hall.
Qed.

Lemma chat_unfold fuel (self : Conversation) input w :
  say fuel self input w =
  match turn fuel input (history self) eos_text eos_id w with
  | (Ret r, w') =>
    (Ret (r.1,
          {| history := r.2;
             messages := messages self ++
               [list_ascii_of_string "Person: " ++ input;
                list_ascii_of_string "PersonaGPT: " ++ r.1] |}), w')
  | (Raise e, w') => (Raise e, w')
  | (OutOfFuel, w') => (OutOfFuel, w')
  end.
Proof.
  unfold chat. rewrite bind_unfold.
  by destruct (turn fuel input (history self) eos_text eos_id w)
    as [[r|e|] w'].
Qed.

Lemma chat_returns fuel (self : Conversation) input w response self' w' :
  say fuel self input w = (Ret (response, self'), w') →
  turn fuel input (history self) eos_text eos_id w
  = (Ret (response, history self'), w') ∧
  messages self' = messages self ++
    [list_ascii_of_string "Person: " ++ input;
     list_ascii_of_string "PersonaGPT: " ++ response].
Proof.
  rewrite chat_unfold.
  destruct (turn fuel input (history self) eos_text eos_id w)
    as [[[r h]|e|] w1]; try done.
  by intros [= <- <- <-].
Qed.

(** X14. What [chat] records.  A call of [chat] that returns has extended
    the transcript by exactly two lines, the user's text after "Person: "
    and the returned response after "PersonaGPT: ", and has replaced the
    history by one that starts with the old history and ends with the
    eos id.  When [chat] raises or does not end, it is [converse] that
    raises that exception or does not end. *)
Theorem chat_records_turn fuel (self : Conversation) input w :
  match chat compiled_model softmax random_choice tokenizer tokenizer_decode
          tokenizer_eos_token_id fuel self input w with
  | (Ret (response, self'), _) =>
    messages self' = messages self ++
      [list_ascii_of_string "Person: " ++ input;
       list_ascii_of_string "PersonaGPT: " ++ response] ∧
    history self `prefix_of` history self' ∧
    last (history self') = Some (eos_token_id tokenizer_eos_token_id) ∧
    (length (history self) < length (history self'))%nat
  | (Raise e, _) =>
    (converse compiled_model softmax random_choice tokenizer tokenizer_decode
       tokenizer_eos_token_id fuel input (history self)
       (eos_token tokenizer_decode tokenizer_eos_token_id)
       (eos_token_id tokenizer_eos_token_id) w).1 = Raise e
  | (OutOfFuel, _) =>
    (converse compiled_model softmax random_choice tokenizer tokenizer_decode
       tokenizer_eos_token_id fuel input (history self)
       (eos_token tokenizer_decode tokenizer_eos_token_id)
       (eos_token_id tokenizer_eos_token_id) w).1 = OutOfFuel
  end.
Proof.
  destruct (say fuel self input w) as [[[response self']|e|] w'] eqn:Hchat.
  - apply chat_returns in Hchat as [Hturn Hmsg].
    split; [done|].
    destruct (converse_keeps_history _ _ _ _ _ _ _ _ _ Hturn)
      as (Hpre & Hlast & Hlen & _). done.
  - rewrite chat_unfold in Hchat.
    destruct (turn fuel input (history self) eos_text eos_id w)
      as [[r|e'|] w1]; try done. by injection Hchat as -> _.
  - rewrite chat_unfold in Hchat.
    by destruct (turn fuel input (history self) eos_text eos_id w)
      as [[r|e'|] w1].
Qed.
End conversation_more.

(** ** The driver cells *)

Lemma pre_written_prompt (i : nat) :
  ∃ p, pre_written_prompts !! (i mod 4)%nat = Some p ∧
       py_getitem pre_written_prompts
         (Z.of_nat i `mod` Z.of_nat (length pre_written_prompts)) = Ok p.
Proof.
  assert (Hlt : (i mod 4 < 4)%nat) by (apply Nat.mod_upper_bound; lia).
  destruct (lookup_lt_is_Some_2 pre_written_prompts (i mod 4)%nat) as [p Hp];
    [exact Hlt|].
  exists p. split; [done|].
  change (length pre_written_prompts) with 4%nat.
  rewrite <- Nat2Z.inj_mod. by apply py_getitem_nat.
Qed.

Lemma foldl_decode (tokenizer_decode : Z → text) (acc : text) (ids : list Z) :
  foldl (fun output_text i => output_text ++ tokenizer_decode i) acc ids
  = acc ++ decode_join tokenizer_decode ids.
Proof.
  revert acc. induction ids as [|i ids IH]; intros acc; simpl.
  - by rewrite app_nil_r.
  - rewrite IH. unfold decode_join. simpl. by rewrite <- app_assoc.
Qed.

Section cells_facts.
Context {prob U : Type}.
Context (compiled_model : list Z → list Z → res tensor).
Context (softmax : list score → list prob).
Context (random_choice : nat → list prob → res (U → Z)).
Context (tokenizer : text → list Z * list Z).
Context (tokenizer_decode : Z → text).
Context (tokenizer_eos_token_id : Z).

Abbreviation say :=
  (chat compiled_model softmax random_choice tokenizer tokenizer_decode
     tokenizer_eos_token_id).
Abbreviation loop :=
  (plain_loop compiled_model softmax random_choice tokenizer tokenizer_decode
     tokenizer_eos_token_id).
Abbreviation eos_id := (eos_token_id tokenizer_eos_token_id).

Implicit Types (w : world U) (conversation : Conversation).

Lemma plain_loop_cons fuel conversation (printed : list text) (i : nat)
    (indices : list nat) w p :
  pre_written_prompts !! (i mod 4)%nat = Some p →
  loop fuel conversation printed (i :: indices) w =
  match say fuel conversation p w with
  | (Ret r, w') =>
    loop fuel r.2
      (printed ++ [list_ascii_of_string "Person: " ++ p;
                   list_ascii_of_string "PersonaGPT: " ++ r.1])
      indices w'
  | (Raise e, w') => (Raise e, w')
  | (OutOfFuel, w') => (OutOfFuel, w')
  end.
Proof.
  intros Hp. destruct (pre_written_prompt i) as (p' & Hp' & Hget).
  assert (p' = p) as -> by congruence.
  cbn [plain_loop]. rewrite bind_unfold, Hget. simpl.
  rewrite bind_unfold.
  destruct (say fuel conversation p w) as [[[response self']|e|] w'] eqn:Hchat;
    try done.
  apply (chat_returns compiled_model softmax random_choice tokenizer
           tokenizer_decode tokenizer_eos_token_id) in Hchat as [_ Hmsg].
  cbn [fst snd]. rewrite bind_unfold, Hmsg, py_getitem_second_to_last.
  unfold lift at 1. rewrite bind_unfold, py_getitem_last_of_two.
  done.
Qed.

Lemma plain_loop_returns fuel conversation (printed : list text)
    (indices : list nat) w conversation' printed' w' :
  loop fuel conversation printed indices w
  = (Ret (conversation', printed'), w') →
  ∃ lines,
    messages conversation' = messages conversation ++ lines ∧
    printed' = printed ++ lines ∧
    length lines = (2 * length indices)%nat ∧
    (∀ j i (p : text), indices !! j = Some i →
       pre_written_prompts !! (i mod 4)%nat = Some p →
       lines !! (2 * j)%nat = Some (list_ascii_of_string "Person: " ++ p)) ∧
    history conversation `prefix_of` history conversation' ∧
    (count_of eos_id (history conversation) + length indices
     ≤ count_of eos_id (history conversation'))%nat.
Proof.
  revert conversation printed w.
  induction indices as [|i indices IH]; intros conversation printed w Hrun.
  - injection Hrun as <- <- <-. exists []. rewrite !app_nil_r.
    repeat split; try done. simpl. lia.
  - destruct (pre_written_prompt i) as (p & Hp & _).
    rewrite (plain_loop_cons _ _ _ _ _ _ p Hp) in Hrun.
    destruct (say fuel conversation p w) as [[[response self']|e|] w1]
      eqn:Hchat; try done.
    apply (chat_returns compiled_model softmax random_choice tokenizer
             tokenizer_decode tokenizer_eos_token_id) in Hchat as [Hturn Hmsg].
    apply (converse_keeps_history compiled_model softmax random_choice
             tokenizer tokenizer_decode tokenizer_eos_token_id)
      in Hturn as (Hpre & _ & _ & Hcount).
    simpl in Hrun.
    apply IH in Hrun as (lines & Hmsgs & Hprinted & Hlen & Hline & Hpre' & Hcnt).
    exists ([list_ascii_of_string "Person: " ++ p;
             list_ascii_of_string "PersonaGPT: " ++ response] ++ lines).
    split; [by rewrite Hmsgs, Hmsg, <- app_assoc|].
    split; [by rewrite Hprinted, <- app_assoc|].
    split; [simpl; lia|].
    split; [|split; [by etrans | simpl; lia]].
    intros [|j] i' p' Hi Hp'.
    + change (Some i = Some i') in Hi. injection Hi as <-.
      rewrite Hp in Hp'. injection Hp' as <-. reflexivity.
    + change (indices !! j = Some i') in Hi.
      replace (2 * S j)%nat with (S (S (2 * j))) by lia.
      change (lines !! (2 * j)%nat
              = Some (list_ascii_of_string "Person: " ++ p')).
      by eapply Hline.
Qed.

(** X15. The transcript of the plain conversation cell.  When the loop
    over [n_prompts] turns completes, the lines it has printed are exactly
    the messages of the conversation, two per turn; the first line of
    turn i is "Person: " followed by the pre-written prompt number
    [i mod 4]; and the history holds at least one eos id per turn. *)
Theorem plain_conversation_transcript fuel (n_prompts : nat) w
    conversation printed w' :
  plain_conversation compiled_model softmax random_choice tokenizer
    tokenizer_decode tokenizer_eos_token_id fuel n_prompts w
  = (Ret (conversation, printed), w') →
  messages conversation = printed ∧
  length printed = (2 * n_prompts)%nat ∧
  (∀ i (p : text), (i < n_prompts)%nat →
     pre_written_prompts !! (i mod 4)%nat = Some p →
     printed !! (2 * i)%nat = Some (list_ascii_of_string "Person: " ++ p)) ∧
  (n_prompts ≤ count_of (eos_token_id tokenizer_eos_token_id)
                 (history conversation))%nat.
Proof.
  unfold plain_conversation. intros Hrun.
  apply plain_loop_returns in Hrun
    as (lines & Hmsgs & Hprinted & Hlen & Hline & _ & Hcnt).
  simpl in Hmsgs, Hprinted. subst printed.
  rewrite length_seq in Hlen, Hcnt.
  split; [done|]. split; [done|]. split; [|simpl in Hcnt; lia].
  intros i p Hi Hp. apply (Hline i i p); [|done].
  by apply lookup_seq.
Qed.

Lemma generate_text_unfold fuel (t : text) w :
  generate_text compiled_model softmax random_choice tokenizer
    tokenizer_decode tokenizer_eos_token_id fuel t w =
  match generate_sequence compiled_model softmax random_choice fuel
          (tokenize tokenizer t).1 (tokenize tokenizer t).2 128 eos_id true w
  with
  | (Ret output_ids, w') =>
    (Ret (list_ascii_of_string " " ++
          decode_join tokenizer_decode output_ids), w')
  | (Raise e, w') => (Raise e, w')
  | (OutOfFuel, w') => (OutOfFuel, w')
  end.
Proof.
  unfold generate_text. cbv zeta. rewrite bind_unfold.
  destruct (generate_sequence _ _ _ fuel _ _ 128 _ true w)
    as [[ids|e|] w']; try done.
  simpl. by rewrite foldl_decode.
Qed.

(** X16. The text generation cell continues the input.  When it returns,
    the output text is one space, the decoding of the ids of the input
    text, and the decoding of the generated ids, none of which is the eos
    id; an input of at most 128 ids gives at most 128 ids in all.  With a
    tokenizer that decodes the ids of the input back to the input, the
    output is a space, the input text and the continuation. *)
Theorem generate_text_continues_input fuel (t output_text : text) w w' :
  generate_text compiled_model softmax random_choice tokenizer
    tokenizer_decode tokenizer_eos_token_id fuel t w
  = (Ret output_text, w') →
  ∃ toks,
    output_text
    = list_ascii_of_string " " ++
      decode_join tokenizer_decode (tokenize tokenizer t).1 ++
      decode_join tokenizer_decode toks ∧
    Forall (fun x => x ≠ eos_token_id tokenizer_eos_token_id) toks ∧
    ((length (tokenize tokenizer t).1 ≤ 128)%nat →
     (length (tokenize tokenizer t).1 + length toks ≤ 128)%nat) ∧
    (decode_join tokenizer_decode (tokenize tokenizer t).1 = t →
     output_text
     = list_ascii_of_string " " ++ t ++ decode_join tokenizer_decode toks).
Proof.
  rewrite generate_text_unfold.
  destruct (generate_sequence _ _ _ fuel _ _ 128 _ true w)
    as [[ids|e|] w1] eqn:Hgen; try done.
  intros [= <- <-].
  apply generate_sequence_returns in Hgen
    as (toks & _ & _ & -> & Hall & _ & _ & Hcap).
  exists toks.
  rewrite (decode_join_app tokenizer_decode).
  split; [done|]. split; [done|]. split.
  - intros Hlen. rewrite length_app in Hcap. lia.
  - by intros ->.
Qed.
End cells_facts.

(** ** Runs of the conversation with the stub collaborators *)

Lemma converse_extraction_total_witness :
  eos_token toy_decode 0 ≠ [] ∧
  ∃ response,
    converse reply_ok stub_softmax stub_choice toy_tokenizer toy_decode 0
      10 (str "hi") [] (eos_token toy_decode 0) (eos_token_id 0) world0
    = (Ret (response, [104; 105; 0; 111; 107] ++ [eos_token_id 0]),
       (generate_sequence reply_ok stub_softmax stub_choice 10
          (prompt_of toy_tokenizer (str "hi") [] (eos_token toy_decode 0))
          ((fun _ => 1) <$>
             prompt_of toy_tokenizer (str "hi") [] (eos_token toy_decode 0))
          1000 (eos_token_id 0) true world0).2).
Proof.
  assert (Hne : eos_token toy_decode 0 ≠ []).
  { intros H. vm_compute in H. discriminate H. }
  split; [exact Hne|].
  apply converse_extraction_total; [exact Hne|].
  vm_compute. reflexivity.
Defined.

Lemma converse_empty_separator_witness :
  generate_sequence reply_ok stub_softmax stub_choice 10
    (prompt_of toy_tokenizer (str "hi") [] [])
    ((fun _ => 1) <$> prompt_of toy_tokenizer (str "hi") [] [])
    1000 (eos_token_id 0) true world0
  = (Ret [104; 105], World (fun n => S n) [([104; 105], [1; 1])]) ∧
  converse reply_ok stub_softmax stub_choice toy_tokenizer toy_decode 0
    10 (str "hi") [] [] 0 world0
  = (Raise ValueError, World (fun n => S n) [([104; 105], [1; 1])]).
Proof.
  assert (H : generate_sequence reply_ok stub_softmax stub_choice 10
                (prompt_of toy_tokenizer (str "hi") [] [])
                ((fun _ => 1) <$> prompt_of toy_tokenizer (str "hi") [] [])
                1000 (eos_token_id 0) true world0
              = (Ret [104; 105], World (fun n => S n) [([104; 105], [1; 1])]))
    by (vm_compute; reflexivity).
  split; [exact H|].
  destruct (converse_empty_separator reply_ok stub_softmax stub_choice
              toy_tokenizer toy_decode 0 10 (str "hi") [] 0 world0)
    as [_ Hraise].
  exact (Hraise _ _ H).
Defined.

Lemma converse_keeps_history_witness :
  toy_converse reply_ok 10 (str "yo") [104; 105; 0; 111; 107; 0] world0
  = (Ret ([], [104; 105; 0; 111; 107; 0; 121; 111; 0; 0]),
     (toy_converse reply_ok 10 (str "yo") [104; 105; 0; 111; 107; 0] world0).2) ∧
  [104; 105; 0; 111; 107; 0]
    `prefix_of` [104; 105; 0; 111; 107; 0; 121; 111; 0; 0] ∧
  (count_of 0%Z [104; 105; 0; 111; 107; 0]%Z
   < count_of 0%Z [104; 105; 0; 111; 107; 0; 121; 111; 0; 0]%Z)%nat.
Proof.
  assert (H : toy_converse reply_ok 10 (str "yo") [104; 105; 0; 111; 107; 0]
                world0
              = (Ret ([], [104; 105; 0; 111; 107; 0; 121; 111; 0; 0]),
                 (toy_converse reply_ok 10 (str "yo")
                    [104; 105; 0; 111; 107; 0] world0).2))
    by (vm_compute; reflexivity).
  split; [exact H|].
  destruct (converse_keeps_history reply_ok stub_softmax stub_choice
              toy_tokenizer toy_decode 0 10 (str "yo")
              [104; 105; 0; 111; 107; 0] _ _ world0 _ _ _ H)
    as (Hpre & _ & _ & Hcount).
  split; [exact Hpre | exact Hcount].
Defined.

Lemma response_is_clean_segment_witness :
  toy_converse reply_ok 10 (str "hi") [] world0
  = (Ret (str "ok", [104; 105; 0; 111; 107; 0]),
     (toy_converse reply_ok 10 (str "hi") [] world0).2) ∧
  ∃ segments,
    py_split (decode_join toy_decode [104; 105; 0; 111; 107; 0])
      (eos_token toy_decode 0) = Ok segments ∧
    join_with (eos_token toy_decode 0) segments
    = decode_join toy_decode [104; 105; 0; 111; 107; 0] ∧
    str "ok" ∈ segments ∧
    occurs (eos_token toy_decode 0) (str "ok") = false.
Proof.
  assert (H : toy_converse reply_ok 10 (str "hi") [] world0
              = (Ret (str "ok", [104; 105; 0; 111; 107; 0]),
                 (toy_converse reply_ok 10 (str "hi") [] world0).2))
    by (vm_compute; reflexivity).
  split; [exact H|].
  exact (response_is_clean_segment reply_ok stub_softmax stub_choice
           toy_tokenizer toy_decode 0 10 (str "hi") [] _ _ world0 _ _ _ H).
Defined.

Lemma plain_conversation_transcript_witness :
  ∃ conversation printed w',
    plain_conversation (constant_model 128 0) stub_softmax stub_choice
      toy_tokenizer toy_decode 0 5 2 world0
    = (Ret (conversation, printed), w') ∧
    messages conversation = printed ∧
    length printed = 4%nat ∧
    (2 ≤ count_of (eos_token_id 0) (history conversation))%nat.
Proof.
  destruct (plain_conversation (constant_model 128 0) stub_softmax stub_choice
              toy_tokenizer toy_decode 0 5 2 world0)
    as [[[conversation printed]|e|] w'] eqn:H;
    [| vm_compute in H; discriminate H..].
  exists conversation, printed, w'. split; [reflexivity|].
  destruct (plain_conversation_transcript _ _ _ _ _ _ _ _ _ _ _ _ H)
    as (Hmsg & Hlen & _ & Hcount).
  split; [exact Hmsg|]. split; [exact Hlen | exact Hcount].
Defined.

Example plain_conversation_lines :
  (plain_conversation (constant_model 128 0) stub_softmax stub_choice
     toy_tokenizer toy_decode 0 5 2 world0).1
  = Ret ({| history :=
              toy_encode (str "Hi,How are you?") 0 ++ [0; 0] ++
              toy_encode (str "What are you doing?") 0 ++ [0; 0];
            messages :=
              [str "Person: Hi,How are you?"; str "PersonaGPT: ";
               str "Person: What are you doing?"; str "PersonaGPT: "] |},
         [str "Person: Hi,How are you?"; str "PersonaGPT: ";
          str "Person: What are you doing?"; str "PersonaGPT: "]).
Proof. vm_compute. reflexivity. Qed.

Lemma generate_text_continues_input_witness :
  generate_text (scripted_model 128 [0; 0; 33]%nat 0) stub_softmax stub_choice
    toy_tokenizer toy_decode 0 10 (str "hi") world0
  = (Ret (str " hi!"),
     (generate_text (scripted_model 128 [0; 0; 33]%nat 0) stub_softmax
        stub_choice toy_tokenizer toy_decode 0 10 (str "hi") world0).2) ∧
  ∃ toks,
    str " hi!"
    = list_ascii_of_string " " ++
      decode_join toy_decode (tokenize toy_tokenizer (str "hi")).1 ++
      decode_join toy_decode toks ∧
    Forall (fun x => x ≠ eos_token_id 0) toks.
Proof.
  assert (H : generate_text (scripted_model 128 [0; 0; 33]%nat 0) stub_softmax
                stub_choice toy_tokenizer toy_decode 0 10 (str "hi") world0
              = (Ret (str " hi!"),
                 (generate_text (scripted_model 128 [0; 0; 33]%nat 0)
                    stub_softmax stub_choice toy_tokenizer toy_decode 0 10
                    (str "hi") world0).2))
    by (vm_compute; reflexivity).
  split; [exact H|].
  destruct (generate_text_continues_input _ _ _ _ _ _ _ _ _ _ _ H)
    as (toks & Htext & Hall & _).
  exists toks. split; [exact Htext | exact Hall].
Defined.
